(** * PANOC-ALM inner solvers: PANOC and PGA

    A shallow embedding of the two inner solvers of the PANOC-ALM library,

      - [PANOCSolver<DirectionProviderT>::operator()]
        (src/include/panoc-alm/inner/panoc.hpp), and
      - [PGA::operator()] (src/include/panoc-alm/inner/pga.hpp),

    together with the properties their specification states about them.

    The two functions are written in C++ over [real_t] (IEEE-754 binary64),
    Eigen vectors, a problem description and a handful of helpers
    ([detail::calc_ψ_ŷ], [detail::calc_x̂], ...), a direction provider (a
    template parameter) and a limited-memory QR factorisation.  None of these
    is defined in the two files: the scalar type with its operations, the
    helpers, the direction provider and the QR object are therefore taken as
    interfaces (type classes), and the solvers are embedded over them, program
    variable by program variable.  Two implementations of the scalar
    interface are given further down: [binary64], the machine's doubles, on
    which the solvers can be run as the C++ runs them, and [xreal], exact
    rationals extended with ±∞ and NaN, on which the order laws some
    properties rest on are proved.

    Naming.  The source's identifiers are kept where the lexer takes them;
    a circumflex is spelled [hat] ([x̂ₖ] is [xhatₖ], [ŷx̂ₖ] is [yhat_xhatₖ],
    [grad_̂ψₖ] is [grad_ψhatₖ]), the subscript [ₖ₊₁] is written [ₖ₁]
    ([xₖ₊₁] is [xₖ₁]), [rₐₐₖ₋₁] is [rₐₐ_prev] and [σ_norm_γ⁻¹pₖ] is
    [σ_norm_γinv_pₖ]. *)

From Stdlib Require Import List Bool Arith ZArith Lia QArith Qabs Lqa.
From Stdlib Require Import PrimFloat.
Import ListNotations.
Close Scope Q_scope.

Set Implicit Arguments.
Set Primitive Projections.

(** ** The scalar type [real_t] *)

(** What the solvers use of [real_t]: the literals [0], [1], [2] and [0.5],
    [pa::inf], [std::numeric_limits<real_t>::epsilon()], the four arithmetic
    operations, unary minus, [std::abs], [std::sqrt], the comparisons [<],
    [<=] and [==], and [std::isfinite]. *)
Class RealOps (real_t : Type) : Type := {
  r0 : real_t;
  r1 : real_t;
  r2 : real_t;
  r05 : real_t;
  inf : real_t;
  epsilon : real_t;
  radd : real_t -> real_t -> real_t;
  rsub : real_t -> real_t -> real_t;
  rmul : real_t -> real_t -> real_t;
  rdiv : real_t -> real_t -> real_t;
  rneg : real_t -> real_t;
  rabs : real_t -> real_t;
  rsqrt : real_t -> real_t;
  rltb : real_t -> real_t -> bool;
  rleb : real_t -> real_t -> bool;
  reqb : real_t -> real_t -> bool;
  isfinite : real_t -> bool
}.

Declare Scope real_scope.
Delimit Scope real_scope with r.
Infix "+" := radd : real_scope.
Infix "-" := rsub : real_scope.
Infix "*" := rmul : real_scope.
Infix "/" := rdiv : real_scope.
Notation "- x" := (rneg x) : real_scope.
Infix "<?" := rltb : real_scope.
Infix "<=?" := rleb : real_scope.
Infix "=?" := reqb : real_scope.
Notation "a >? b" := (rltb b a) : real_scope.
Notation "a >=? b" := (rleb b a) : real_scope.
Notation "a !=? b" := (negb (reqb a b)) (at level 70) : real_scope.

(** [a] is a NaN: the only values that do not compare equal to themselves. *)
Definition is_nan {real_t : Type} {RO : RealOps real_t} (a : real_t) : bool :=
  negb (reqb a a).

(** ** Outcomes of a call *)

(** A call returns, or throws [std::logic_error] (the statement after the
    main loop), or does something the language leaves undefined ([k % 0],
    a column index out of range), or runs a [while] loop for longer than the
    fuel it was given. *)
Inductive outcome (A : Type) : Type :=
| Ret (a : A)
| Throws
| Undefined
| OutOfFuel.
Arguments Ret {A} a.
Arguments Throws {A}.
Arguments Undefined {A}.
Arguments OutOfFuel {A}.

Definition bind {A B : Type} (m : outcome A) (f : A -> outcome B) : outcome B :=
  match m with
  | Ret a => f a
  | Throws => Throws
  | Undefined => Undefined
  | OutOfFuel => OutOfFuel
  end.

Notation "x <- m ;; f" := (bind m (fun x => f))
  (at level 61, m at next level, right associativity).
Notation "' pat <- m ;; f" := (bind m (fun x => match x with pat => f end))
  (at level 61, pat pattern, m at next level, right associativity).

(** ** [SolverStatus] and the exit flags *)

Inductive SolverStatus : Type :=
| Unknown
| Converged
| MaxTime
| MaxIter
| NotFinite
| NoProgress
| Interrupted.

Definition SolverStatus_eqb (a b : SolverStatus) : bool :=
  match a, b with
  | Unknown, Unknown | Converged, Converged | MaxTime, MaxTime
  | MaxIter, MaxIter | NotFinite, NotFinite | NoProgress, NoProgress
  | Interrupted, Interrupted => true
  | _, _ => false
  end.

(** The six [bool] locals of the stop test, the same in both solvers. *)
Record ExitFlags : Type := {
  out_of_time : bool;
  out_of_iter : bool;
  interrupted : bool;
  not_finite : bool;
  conv : bool;
  max_no_progress : bool
}.

(** [bool exit = conv || out_of_iter || out_of_time || not_finite ||
                 interrupted || max_no_progress;] *)
Definition exit (f : ExitFlags) : bool :=
  conv f || out_of_iter f || out_of_time f || not_finite f ||
  interrupted f || max_no_progress f.

(** The conditional chain that sets [s.status] in the exit block. *)
Definition exit_status (f : ExitFlags) : SolverStatus :=
  if conv f then Converged
  else if out_of_time f then MaxTime
  else if out_of_iter f then MaxIter
  else if not_finite f then NotFinite
  else if max_no_progress f then NoProgress
  else Interrupted.

(** The six flags by name, and a status read off a priority list: the status
    of the first flag of the list that is set.  This is how the
    specification words the choice of the status; [code_priority] is the
    order of the conditional chain above, [spec_priority] the order the
    specification gives. *)
Inductive Flag : Type :=
| FConv
| FOutOfIter
| FOutOfTime
| FNotFinite
| FInterrupted
| FNoProgress.

Definition flag_set (f : ExitFlags) (g : Flag) : bool :=
  match g with
  | FConv => conv f
  | FOutOfIter => out_of_iter f
  | FOutOfTime => out_of_time f
  | FNotFinite => not_finite f
  | FInterrupted => interrupted f
  | FNoProgress => max_no_progress f
  end.

Definition flag_status (g : Flag) : SolverStatus :=
  match g with
  | FConv => Converged
  | FOutOfIter => MaxIter
  | FOutOfTime => MaxTime
  | FNotFinite => NotFinite
  | FInterrupted => Interrupted
  | FNoProgress => NoProgress
  end.

Fixpoint status_by_priority (order : list Flag) (f : ExitFlags) : option SolverStatus :=
  match order with
  | [] => None
  | g :: rest => if flag_set f g then Some (flag_status g)
                 else status_by_priority rest f
  end.

Definition spec_priority : list Flag :=
  [FConv; FOutOfIter; FOutOfTime; FNotFinite; FInterrupted; FNoProgress].

Definition code_priority : list Flag :=
  [FConv; FOutOfTime; FOutOfIter; FNotFinite; FNoProgress; FInterrupted].

(** ** Vectors and matrices *)

(** [vec] is a dense vector of [real_t]; [mat] a dense matrix, kept as the
    list of its columns.  The operations are Eigen's, componentwise; the
    reductions ([dot], [squaredNorm]) sum from the first component on. *)
Section Vectors.
Context {real_t : Type} {RO : RealOps real_t}.
Local Open Scope real_scope.

Definition vec : Type := list real_t.
Definition mat : Type := list vec.

(** [std::max(a, b)], which is what [cwiseMax] applies per component. *)
Definition rmax (a b : real_t) : real_t := if a <? b then b else a.

Definition map2 (f : real_t -> real_t -> real_t) (u v : vec) : vec :=
  map (fun ab => f (fst ab) (snd ab)) (combine u v).

Definition vadd (u v : vec) : vec := map2 radd u v.
Definition vsub (u v : vec) : vec := map2 rsub u v.
Definition vscale (c : real_t) (v : vec) : vec := map (fun a => c * a) v.
(** [v * c], the scalar on the right as in [xₖ * params.Lipschitz.ε]. *)
Definition vscale_r (v : vec) (c : real_t) : vec := map (fun a => a * c) v.
Definition cwiseAbs (v : vec) : vec := map rabs v.
Definition cwiseMax (v : vec) (c : real_t) : vec := map (fun a => rmax a c) v.
Definition dot (u v : vec) : real_t :=
  fold_left radd (map2 rmul u v) r0.
Definition squaredNorm (v : vec) : real_t := dot v v.
Definition norm (v : vec) : real_t := rsqrt (squaredNorm v).
Definition allFinite (v : vec) : bool := forallb isfinite v.
(** [u == v]: every pair of components compares equal. *)
Definition veqb (u v : vec) : bool :=
  forallb (fun ab => fst ab =? snd ab) (combine u v).

(** A vector of [n] components that were never written: it holds whatever the
    allocator left there, [junk i] at index [i]. *)
Definition uninit (junk : nat -> real_t) (n : nat) : vec := map junk (seq 0 n).

(** [M.resize(rows, cols)] on an empty matrix. *)
Definition mat_resize (junk : nat -> real_t) (rows cols : nat) : mat :=
  repeat (uninit junk rows) cols.

Definition mat_cols (M : mat) : nat := length M.

(** [M.col(i) = v]: outside the matrix Eigen's behaviour is undefined. *)
Definition set_col (M : mat) (i : nat) (v : vec) : outcome mat :=
  if (i <? length M)%nat then Ret (firstn i M ++ v :: skipn (S i) M)
  else Undefined.

Definition get_col (M : mat) (i : nat) : outcome vec :=
  match nth_error M i with
  | Some c => Ret c
  | None => Undefined
  end.

End Vectors.

Arguments vec : clear implicits.
Arguments mat : clear implicits.

(** ** The interfaces the solvers consume *)

(** The problem and the helpers of [detail::] (panoc-helpers.hpp), as the
    lambdas at the head of both solvers call them.  An argument that the C++
    passes as an output buffer is a result here; the scratch buffers
    [work_n] and [work_m] hold nothing between calls and are left out. *)
Class Helpers (real_t Problem Box : Type) : Type := {
  problem_n : Problem -> nat;
  problem_m : Problem -> nat;
  problem_C : Problem -> Box;
  (** [calc_ψ_ŷ(problem, x, y, Σ, ŷ)]: returns ψ(x), writes ŷ. *)
  calc_ψ_yhat : Problem -> vec real_t -> vec real_t -> vec real_t ->
                real_t * vec real_t;
  (** [calc_ψ_grad_ψ(problem, x, y, Σ, grad_ψ, work_n, work_m)]: returns
      ψ(x), writes ∇ψ(x). *)
  calc_ψ_grad_ψ : Problem -> vec real_t -> vec real_t -> vec real_t ->
                  real_t * vec real_t;
  (** [calc_grad_ψ(problem, x, y, Σ, grad_ψ, work_n, work_m)]. *)
  calc_grad_ψ : Problem -> vec real_t -> vec real_t -> vec real_t -> vec real_t;
  (** [calc_grad_ψ_from_ŷ(problem, x, ŷ, grad_ψ, work_n)]. *)
  calc_grad_ψ_from_yhat : Problem -> vec real_t -> vec real_t -> vec real_t;
  (** [calc_x̂(problem, γ, x, grad_ψ, x̂, p)]: writes x̂ and p. *)
  calc_xhat : Problem -> real_t -> vec real_t -> vec real_t ->
              vec real_t * vec real_t;
  (** [calc_err_z(problem, x̂, y, Σ, err_z)]. *)
  calc_err_z : Problem -> vec real_t -> vec real_t -> vec real_t -> vec real_t;
  (** [calc_error_stop_crit(pₖ, γ, grad_̂ψₖ, grad_ψₖ)]. *)
  calc_error_stop_crit : vec real_t -> real_t -> vec real_t -> vec real_t -> real_t;
  (** [project(v, problem.C)]. *)
  project : vec real_t -> Box -> vec real_t
}.

(** [PANOCDirection<DirectionProvider>], the template parameter of the PANOC
    solver: the provider is an object the solver owns and mutates, so every
    operation returns its new state. *)
Class PANOCDirection (real_t Box D : Type) : Type := {
  (** [direction_provider.resize(n, lbfgs_mem)] *)
  dir_resize : D -> nat -> nat -> D;
  (** [initialize(dp, xₖ, x̂ₖ, pₖ, grad_ψₖ)] *)
  dir_initialize : D -> vec real_t -> vec real_t -> vec real_t -> vec real_t -> D;
  (** [apply(dp, xₖ, x̂ₖ, pₖ, qₖ)]: [qₖ] is passed in and written. *)
  dir_apply : D -> vec real_t -> vec real_t -> vec real_t -> vec real_t ->
              D * vec real_t;
  (** [update(dp, xₖ, xₖ₊₁, pₖ, pₖ₊₁, grad_ψₖ₊₁, C, γₖ₊₁)] *)
  dir_update : D -> vec real_t -> vec real_t -> vec real_t -> vec real_t ->
               vec real_t -> Box -> real_t -> D * bool;
  (** [changed_γ(dp, γₖ, old_γₖ)] *)
  dir_changed_γ : D -> real_t -> real_t -> D;
  (** [direction_provider.reset()] *)
  dir_reset : D -> D
}.

(** [LimitedMemoryQR] and [minimize_update_anderson] (anderson-helpers.hpp). *)
Class LimitedMemoryQR (real_t QR : Type) : Type := {
  (** a default-constructed [LimitedMemoryQR] *)
  qr_default : QR;
  qr_resize : QR -> nat -> nat -> QR;
  qr_scale_R : QR -> real_t -> QR;
  qr_num_columns : QR -> nat;
  qr_ring_tail : QR -> nat;
  qr_reset : QR -> QR;
  (** [minimize_update_anderson(qr, G, rₖ, rₖ₋₁, gₖ, γ_LS, yₖ)]: updates
      [qr] and [G], writes [γ_LS] and [yₖ]. *)
  minimize_update_anderson :
    QR -> mat real_t -> vec real_t -> vec real_t -> vec real_t ->
    vec real_t -> vec real_t ->
    QR * mat real_t * vec real_t * vec real_t
}.

(** ** What a call sees of its surroundings, and what it leaves behind *)

(** The clock, the stop signal (which another thread may set) and the
    contents of fresh storage are not the solver's to decide: a call reads
    them.  [time_elapsed k] is [steady_clock::now() - start_time] as read in
    iteration [k], counted in ticks of the clock, whose period
    [steady_clock::period] is [tick_num / tick_den] seconds;
    [stop_requested k] is what [stop_signal.stop_requested()] answers in
    iteration [k]; [junk] is what fresh vectors and scalars hold, and
    [junk_time] what the [elapsed_time] of a fresh [Stats] holds, which has
    no initialiser. *)
Record Env (real_t : Type) : Type := {
  time_elapsed : nat -> Z;
  tick_num : positive;
  tick_den : positive;
  stop_requested : nat -> bool;
  junk : nat -> real_t;
  junk_time : Z
}.

(** Durations are counted in [Z]: the 64-bit counts of [std::chrono] are
    taken to be in range.  [ticks > max_time], for a [max_time] in
    microseconds: [operator>] converts both sides to their common period,
    which loses nothing, so that ticks · tick_num / tick_den seconds are
    compared with [max_time] / 10⁶ seconds. *)
Definition longer_than {real_t : Type} (env : Env real_t) (ticks max_time : Z)
    : bool :=
  (max_time * Z.pos (tick_den env) <?
   ticks * (Z.pos (tick_num env) * 1000000))%Z.

(** [duration_cast<microseconds>(ticks)]: the quotient is truncated towards
    zero. *)
Definition to_microseconds {real_t : Type} (env : Env real_t) (ticks : Z) : Z :=
  Z.quot (ticks * (Z.pos (tick_num env) * 1000000)) (Z.pos (tick_den env)).

(** The fields of the aggregate handed to [progress_cb] (the references to
    [problem] and [params], which the call never changes, are left out). *)
Record ProgressInfo (real_t : Type) : Type := {
  pi_k : nat;
  pi_x : vec real_t;
  pi_p : vec real_t;
  pi_norm_sq_p : real_t;
  pi_x_hat : vec real_t;
  pi_ψ : real_t;
  pi_grad_ψ : vec real_t;
  pi_ψ_hat : real_t;
  pi_grad_ψ_hat : vec real_t;
  pi_L : real_t;
  pi_γ : real_t;
  pi_ε : real_t;
  pi_Σ : vec real_t;
  pi_y : vec real_t
}.

(** What a call shows while it runs: a line of [print_progress] (the
    iteration and the five numbers printed), or a call of [progress_cb]. *)
Inductive Event (real_t : Type) : Type :=
| Printed (k : nat) (ψ norm_grad_ψ norm_p γ ε : real_t)
| Progress (info : ProgressInfo real_t).

(** [Stats], and a fresh one with the defaults of its declaration.
    [elapsed_time], in microseconds, has no default there: a fresh [Stats]
    holds whatever was in its place. *)
Record Stats (real_t : Type) : Type := {
  iterations : nat;
  stats_ε : real_t;
  elapsed_time : Z;
  status : SolverStatus;
  linesearch_failures : nat;
  lbfgs_failures : nat;
  lbfgs_rejected : nat
}.

Definition Stats_default {real_t : Type} {RO : RealOps real_t}
    (env : Env real_t) : Stats real_t :=
  {| iterations := 0; stats_ε := inf; elapsed_time := junk_time env;
     status := Unknown;
     linesearch_failures := 0; lbfgs_failures := 0; lbfgs_rejected := 0 |}.

(** The three arguments a solver writes to ([x] and [y] are read, too). *)
Record Outputs (real_t : Type) : Type := {
  out_x : vec real_t;
  out_y : vec real_t;
  out_err_z : vec real_t
}.

(** ** Bounds on the estimate and the step size *)

Section Bounds.
Context {real_t : Type} {RO : RealOps real_t}.
Local Open Scope real_scope.

(** An estimate [L] and a step size [γ] within the bounds of a run that
    started from the estimate [L0] and the step size [γ0]: [L0 ≤ L] and
    [0 ≤ γ ≤ γ0]. *)
Definition bounded (L0 γ0 L γ : real_t) : Prop :=
  (L0 <=? L) = true /\ (r0 <=? γ) = true /\ (γ <=? γ0) = true.

(** Every call of the progress callback in [tr] reported values within the
    bounds. *)
Definition reported_bounded (L0 γ0 : real_t) (tr : list (Event real_t)) : Prop :=
  forall info, In (Progress info) tr -> bounded L0 γ0 (pi_L info) (pi_γ info).

End Bounds.

(** * The PANOC solver *)

Module PANOC.

(** [PANOCParams], by the fields the solver reads. *)
Record Params (real_t : Type) : Type := {
  Lipschitz_ε : real_t;
  Lipschitz_δ : real_t;
  Lipschitz_Lγ_factor : real_t;
  max_iter : nat;
  max_time : Z;
  τ_min : real_t;
  lbfgs_mem : nat;
  print_interval : nat;
  quadratic_upperbound_threshold : real_t;
  update_lipschitz_in_linesearch : bool;
  alternative_linesearch_cond : bool;
  anderson_acceleration : nat
}.

(** The members of a [PANOCSolver] that a call reads: its parameters, its
    direction provider, and whether a progress callback is installed. *)
Record Solver (real_t D : Type) : Type := {
  params : Params real_t;
  direction_provider : D;
  progress_cb : bool
}.

(** The variables of iteration [k]. *)
Record Cur (real_t : Type) : Type := {
  xₖ : vec real_t;
  xhatₖ : vec real_t;
  yhat_xhatₖ : vec real_t;
  pₖ : vec real_t;
  qₖ : vec real_t;
  grad_ψₖ : vec real_t;
  grad_ψhatₖ : vec real_t;
  ψₖ : real_t;
  Lₖ : real_t;
  γₖ : real_t;
  σₖ : real_t;
  ψxhatₖ : real_t;
  grad_ψₖᵀpₖ : real_t;
  norm_sq_pₖ : real_t;
  φₖ : real_t
}.

(** The vectors of iteration [k + 1]. *)
Record Next (real_t : Type) : Type := {
  xₖ₁ : vec real_t;
  xhatₖ₁ : vec real_t;
  yhat_xhatₖ₁ : vec real_t;
  pₖ₁ : vec real_t;
  grad_ψₖ₁ : vec real_t
}.

(** The storage of the Anderson acceleration. *)
Record Anderson (real_t QR : Type) : Type := {
  rₐₐ_prev : vec real_t;
  rₐₐₖ : vec real_t;
  yₐₐₖ : vec real_t;
  xₐₐₖ : vec real_t;
  gₐₐₖ : vec real_t;
  γₐₐ_LS : vec real_t;
  yhatₐₐₖ : vec real_t;
  Gₐₐ : mat real_t;
  qr : QR
}.

(** Everything the main loop carries from one iteration to the next. *)
Record State (real_t D QR : Type) : Type := {
  cur : Cur real_t;
  next : Next real_t;
  aa : Anderson real_t QR;
  no_progress : nat;
  s : Stats real_t;
  dp : D;
  trace : list (Event real_t)
}.

(** The variables a quadratic upper-bound loop writes.  The solver has the
    loop twice, over the variables of iteration [k] at the head of the main
    loop and over those of iteration [k + 1] inside the line search. *)
Record QUB (real_t : Type) : Type := {
  qub_L : real_t;
  qub_σ : real_t;
  qub_γ : real_t;
  qub_xhat : vec real_t;
  qub_p : vec real_t;
  qub_grad_ψᵀp : real_t;
  qub_norm_sq_p : real_t;
  qub_ψxhat : real_t;
  qub_yhat : vec real_t
}.

(** The variables the line search loop writes: [τ], the vectors of iteration
    [k + 1], the two vectors of iteration [k] it swaps away, the scalars
    declared before the loop, the direction provider and the Anderson
    storage (both told when γ changes). *)
Record LineSearch (real_t D QR : Type) : Type := {
  τ : real_t;
  ls_xhatₖ : vec real_t;
  ls_grad_ψhatₖ : vec real_t;
  ls_next : Next real_t;
  φₖ₁ : real_t;
  ψₖ₁ : real_t;
  ψxhatₖ₁ : real_t;
  grad_ψₖ₁ᵀpₖ₁ : real_t;
  norm_sq_pₖ₁ : real_t;
  Lₖ₁ : real_t;
  σₖ₁ : real_t;
  γₖ₁ : real_t;
  ls_cond : real_t;
  ls_dp : D;
  ls_aa : Anderson real_t QR
}.

(** What a call leaves: the [Stats] it returns, the three arguments it may
    have written, the direction provider, and what it printed and reported. *)
Record Result (real_t D : Type) : Type := {
  res_stats : Stats real_t;
  res_out : Outputs real_t;
  res_dp : D;
  res_trace : list (Event real_t)
}.

Section Solve.
Context {real_t : Type} {RO : RealOps real_t}.
Context {Problem Box : Type} {HP : Helpers real_t Problem Box}.
Context {D : Type} {DIR : PANOCDirection real_t Box D}.
Context {QR : Type} {LMQR : LimitedMemoryQR real_t QR}.
Local Open Scope real_scope.

(** The solver object, the surroundings, and [fuel], the number of times the
    body of an inner [while] loop may be repeated. *)
Variable slv : Solver real_t D.
Variable env : Env real_t.
Variable fuel : nat.

(** The arguments of [operator()]. *)
Variable problem : Problem.
Variable Σ : vec real_t.
Variable ε : real_t.
Variable always_overwrite_results : bool.
Variable x : vec real_t.
Variable y : vec real_t.
Variable err_z : vec real_t.

Local Notation "'prm'" := (params slv).

(** *** Allocation *)

(** [mₐₐ = std::min(params.anderson_acceleration, problem.n)] *)
Definition mₐₐ : nat := Nat.min (anderson_acceleration prm) (problem_n problem).

(** The Anderson storage after the [resize] calls; it stays empty when
    [params.anderson_acceleration] is zero. *)
Definition alloc_anderson : Anderson real_t QR :=
  if (anderson_acceleration prm =? 0)%nat then
    {| rₐₐ_prev := []; rₐₐₖ := []; yₐₐₖ := []; xₐₐₖ := []; gₐₐₖ := [];
       γₐₐ_LS := []; yhatₐₐₖ := []; Gₐₐ := []; qr := qr_default |}
  else
    {| rₐₐ_prev := uninit (junk env) (problem_n problem);
       rₐₐₖ := uninit (junk env) (problem_n problem);
       yₐₐₖ := uninit (junk env) (problem_n problem);
       xₐₐₖ := uninit (junk env) (problem_n problem);
       gₐₐₖ := uninit (junk env) (problem_n problem);
       γₐₐ_LS := uninit (junk env) mₐₐ;
       yhatₐₐₖ := uninit (junk env) (problem_m problem);
       Gₐₐ := mat_resize (junk env) (problem_n problem) mₐₐ;
       qr := qr_resize qr_default (problem_n problem) mₐₐ |}.

(** *** The helper lambdas *)

Definition calc_ψ_yhat' (x : vec real_t) : real_t * vec real_t :=
  calc_ψ_yhat problem x y Σ.
Definition calc_ψ_grad_ψ' (x : vec real_t) : real_t * vec real_t :=
  calc_ψ_grad_ψ problem x y Σ.
Definition calc_grad_ψ' (x : vec real_t) : vec real_t :=
  calc_grad_ψ problem x y Σ.
Definition calc_grad_ψ_from_yhat' (x yhat : vec real_t) : vec real_t :=
  calc_grad_ψ_from_yhat problem x yhat.
Definition calc_xhat' (γ : real_t) (x grad_ψ : vec real_t) : vec real_t * vec real_t :=
  calc_xhat problem γ x grad_ψ.
Definition calc_err_z' (xhat : vec real_t) : vec real_t :=
  calc_err_z problem xhat y Σ.

Definition print_progress (k : nat) (ψₖ : real_t) (grad_ψₖ : vec real_t)
    (norm_sq_pₖ γₖ εₖ : real_t) : Event real_t :=
  Printed k ψₖ (norm grad_ψₖ) (rsqrt norm_sq_pₖ) γₖ εₖ.

Definition anderson_changed_γ (a : Anderson real_t QR) (γₖ old_γₖ : real_t)
    : Anderson real_t QR :=
  if (anderson_acceleration prm =? 0)%nat then a
  else
    {| rₐₐ_prev := vscale_r (rₐₐ_prev a) (γₖ / old_γₖ);
       rₐₐₖ := rₐₐₖ a; yₐₐₖ := yₐₐₖ a; xₐₐₖ := xₐₐₖ a; gₐₐₖ := gₐₐₖ a;
       γₐₐ_LS := γₐₐ_LS a; yhatₐₐₖ := yhatₐₐₖ a; Gₐₐ := Gₐₐ a;
       qr := qr_scale_R (qr a) (γₖ / old_γₖ) |}.

(** *** Estimate of the Lipschitz constant *)

(** [h = (xₖ * params.Lipschitz.ε).cwiseAbs().cwiseMax(params.Lipschitz.δ)] *)
Definition h : vec real_t :=
  cwiseMax (cwiseAbs (vscale_r x (Lipschitz_ε prm))) (Lipschitz_δ prm).

(** [(grad_ψₖ₊₁ - grad_ψₖ).norm() / h.norm()], with [grad_ψₖ₊₁] = ∇ψ(x₀ + h)
    and [grad_ψₖ] = ∇ψ(x₀). *)
Definition initial_lipschitz : real_t :=
  norm (vsub (calc_grad_ψ' (vadd x h)) (snd (calc_ψ_grad_ψ' x))) / norm h.

(** *** The quadratic upper bound loop *)

(** The loop condition, over an iterate with objective [ψ]. *)
Definition qub_cond (ψ : real_t) (q : QUB real_t) : bool :=
  (qub_ψxhat q - ψ >? qub_grad_ψᵀp q + r05 * qub_L q * qub_norm_sq_p q) &&
  (rabs (qub_grad_ψᵀp q / ψ) >? quadratic_upperbound_threshold prm).

(** A projected gradient step at the iterate [x] with gradient [grad_ψ], for
    the estimate [L] and the step size [γ]: x̂ and p, ∇ψ(x)ᵀp and ‖p‖², ψ(x̂)
    and ŷ(x̂). *)
Definition prox_step (L σ γ : real_t) (x grad_ψ : vec real_t) : QUB real_t :=
  let xhat_p := calc_xhat' γ x grad_ψ in
  let ψ_yhat := calc_ψ_yhat' (fst xhat_p) in
  {| qub_L := L; qub_σ := σ; qub_γ := γ;
     qub_xhat := fst xhat_p; qub_p := snd xhat_p;
     qub_grad_ψᵀp := dot grad_ψ (snd xhat_p);
     qub_norm_sq_p := squaredNorm (snd xhat_p);
     qub_ψxhat := fst ψ_yhat; qub_yhat := snd ψ_yhat |}.

(** The loop body, at the iterate [x] with gradient [grad_ψ]:
    [L *= 2; σ /= 2; γ /= 2;] and the step again. *)
Definition qub_body (x grad_ψ : vec real_t) (q : QUB real_t) : QUB real_t :=
  prox_step (qub_L q * r2) (qub_σ q / r2) (qub_γ q / r2) x grad_ψ.

Fixpoint qub_loop (passes : nat) (x grad_ψ : vec real_t) (ψ : real_t)
    (q : QUB real_t) : outcome (QUB real_t) :=
  if qub_cond ψ q then
    match passes with
    | O => OutOfFuel
    | S passes' => qub_loop passes' x grad_ψ ψ (qub_body x grad_ψ q)
    end
  else Ret q.

Definition cur_qub (c : Cur real_t) : QUB real_t :=
  {| qub_L := Lₖ c; qub_σ := σₖ c; qub_γ := γₖ c; qub_xhat := xhatₖ c;
     qub_p := pₖ c; qub_grad_ψᵀp := grad_ψₖᵀpₖ c;
     qub_norm_sq_p := norm_sq_pₖ c; qub_ψxhat := ψxhatₖ c;
     qub_yhat := yhat_xhatₖ c |}.

Definition set_cur_qub (c : Cur real_t) (q : QUB real_t) : Cur real_t :=
  {| xₖ := xₖ c; xhatₖ := qub_xhat q; yhat_xhatₖ := qub_yhat q;
     pₖ := qub_p q; qₖ := qₖ c; grad_ψₖ := grad_ψₖ c;
     grad_ψhatₖ := grad_ψhatₖ c; ψₖ := ψₖ c; Lₖ := qub_L q; γₖ := qub_γ q;
     σₖ := qub_σ q; ψxhatₖ := qub_ψxhat q; grad_ψₖᵀpₖ := qub_grad_ψᵀp q;
     norm_sq_pₖ := qub_norm_sq_p q; φₖ := φₖ c |}.

(** *** Head of an iteration: step size, L-BFGS flush and initialisation *)

(** Whether the quadratic upper bound loop runs at the head of iteration [k]. *)
Definition qub_at_head (k : nat) : bool :=
  (k =? 0)%nat || negb (update_lipschitz_in_linesearch prm).

Definition quadratic_upper_bound (k : nat) (c : Cur real_t) : outcome (Cur real_t) :=
  if qub_at_head k then
    q <- qub_loop fuel (xₖ c) (grad_ψₖ c) (ψₖ c) (cur_qub c) ;;
    Ret (set_cur_qub c q)
  else Ret c.

Definition head (k : nat) (st : State real_t D QR) : outcome (State real_t D QR) :=
  let old_γₖ := γₖ (cur st) in
  c <- quadratic_upper_bound k (cur st) ;;
  (* Flush L-BFGS if γ changed *)
  let changed := (0 <? k)%nat && (γₖ c !=? old_γₖ) in
  let dp1 := if changed then dir_changed_γ (dp st) (γₖ c) old_γₖ else dp st in
  let aa1 := if changed then anderson_changed_γ (aa st) (γₖ c) old_γₖ else aa st in
  (* Initialize the L-BFGS *)
  let dp2 := if (k =? 0)%nat
             then dir_initialize dp1 (xₖ c) (xhatₖ c) (pₖ c) (grad_ψₖ c)
             else dp1 in
  Ret {| cur := c; next := next st; aa := aa1; no_progress := no_progress st;
         s := s st; dp := dp2; trace := trace st |}.

(** *** Stop condition *)

Definition set_grad_ψhatₖ (c : Cur real_t) (g : vec real_t) : Cur real_t :=
  {| xₖ := xₖ c; xhatₖ := xhatₖ c; yhat_xhatₖ := yhat_xhatₖ c; pₖ := pₖ c;
     qₖ := qₖ c; grad_ψₖ := grad_ψₖ c; grad_ψhatₖ := g; ψₖ := ψₖ c;
     Lₖ := Lₖ c; γₖ := γₖ c; σₖ := σₖ c; ψxhatₖ := ψxhatₖ c;
     grad_ψₖᵀpₖ := grad_ψₖᵀpₖ c; norm_sq_pₖ := norm_sq_pₖ c; φₖ := φₖ c |}.

(** [εₖ = calc_error_stop_crit(pₖ, γₖ, grad_̂ψₖ, grad_ψₖ)] *)
Definition εₖ_of (c : Cur real_t) : real_t :=
  calc_error_stop_crit (pₖ c) (γₖ c) (grad_ψhatₖ c) (grad_ψₖ c).

Definition progress_info (k : nat) (c : Cur real_t) (εₖ : real_t) : ProgressInfo real_t :=
  {| pi_k := k; pi_x := xₖ c; pi_p := pₖ c; pi_norm_sq_p := norm_sq_pₖ c;
     pi_x_hat := xhatₖ c; pi_ψ := ψₖ c; pi_grad_ψ := grad_ψₖ c;
     pi_ψ_hat := ψxhatₖ c; pi_grad_ψ_hat := grad_ψhatₖ c; pi_L := Lₖ c;
     pi_γ := γₖ c; pi_ε := εₖ; pi_Σ := Σ; pi_y := y |}.

(** What iteration [k] prints and reports. *)
Definition report (k : nat) (c : Cur real_t) (εₖ : real_t) : list (Event real_t) :=
  (if negb (print_interval prm =? 0)%nat && (k mod print_interval prm =? 0)%nat
   then [print_progress k (ψₖ c) (grad_ψₖ c) (norm_sq_pₖ c) (γₖ c) εₖ]
   else []) ++
  (if progress_cb slv then [Progress (progress_info k c εₖ)] else []).

Definition exit_flags (k : nat) (εₖ : real_t) (no_progress : nat) : ExitFlags :=
  {| out_of_time := longer_than env (time_elapsed env k) (max_time prm);
     out_of_iter := (k =? max_iter prm)%nat;
     interrupted := stop_requested env k;
     not_finite := negb (isfinite εₖ);
     conv := εₖ <=? ε;
     max_no_progress := (lbfgs_mem prm <? no_progress)%nat |}.

(** Whether the exit block writes [x], [y] and [err_z]. *)
Definition overwrites (f : ExitFlags) : bool :=
  conv f || interrupted f || always_overwrite_results.

(** The exit block. *)
Definition exit_block (k : nat) (εₖ : real_t) (f : ExitFlags)
    (st : State real_t D QR) : Result real_t D :=
  {| res_stats :=
       {| iterations := k; stats_ε := εₖ;
          elapsed_time := to_microseconds env (time_elapsed env k);
          status := exit_status f;
          linesearch_failures := linesearch_failures (s st);
          lbfgs_failures := lbfgs_failures (s st);
          lbfgs_rejected := lbfgs_rejected (s st) |};
     res_out :=
       if overwrites f then
         {| out_x := xhatₖ (cur st); out_y := yhat_xhatₖ (cur st);
            out_err_z := calc_err_z' (xhatₖ (cur st)) |}
       else {| out_x := x; out_y := y; out_err_z := err_z |};
     res_dp := dp st;
     res_trace := trace st |}.

(** *** Quasi-Newton step *)

Definition set_qₖ (c : Cur real_t) (q : vec real_t) : Cur real_t :=
  {| xₖ := xₖ c; xhatₖ := xhatₖ c; yhat_xhatₖ := yhat_xhatₖ c; pₖ := pₖ c;
     qₖ := q; grad_ψₖ := grad_ψₖ c; grad_ψhatₖ := grad_ψhatₖ c; ψₖ := ψₖ c;
     Lₖ := Lₖ c; γₖ := γₖ c; σₖ := σₖ c; ψxhatₖ := ψxhatₖ c;
     grad_ψₖᵀpₖ := grad_ψₖᵀpₖ c; norm_sq_pₖ := norm_sq_pₖ c; φₖ := φₖ c |}.

(** [if (k > 0) Direction::apply(direction_provider, xₖ, x̂ₖ, pₖ, qₖ);] *)
Definition quasi_newton (k : nat) (c : Cur real_t) (d : D) : Cur real_t * D :=
  if (0 <? k)%nat then
    let r := dir_apply d (xₖ c) (xhatₖ c) (pₖ c) (qₖ c) in
    (set_qₖ c (snd r), fst r)
  else (c, d).

(** *** Anderson acceleration *)

(** [v.topRows(k)] *)
Definition topRows (v : vec real_t) (k : nat) : outcome (vec real_t) :=
  if (k <=? length v)%nat then Ret (firstn k v) else Undefined.

(** The step at [k = 0]: the first residual and the first column of [Gₐₐ]. *)
Definition anderson_first (c : Cur real_t) (a : Anderson real_t QR)
    : outcome (Anderson real_t QR) :=
  let rₐₐ_prev' := vscale (- γₖ c) (grad_ψₖ c) in
  let yₐₐₖ' := vadd (xₖ c) rₐₐ_prev' in
  G <- set_col (Gₐₐ a) 0 yₐₐₖ' ;;
  Ret {| rₐₐ_prev := rₐₐ_prev'; rₐₐₖ := rₐₐₖ a; yₐₐₖ := yₐₐₖ'; xₐₐₖ := xₐₐₖ a;
         gₐₐₖ := gₐₐₖ a; γₐₐ_LS := γₐₐ_LS a; yhatₐₐₖ := yhatₐₐₖ a; Gₐₐ := G;
         qr := qr a |}.

(** The least squares problem and the update of the history, up to the
    flush on a coefficient that is not finite. *)
Definition anderson_extrapolate (c : Cur real_t) (a : Anderson real_t QR)
    : outcome (Anderson real_t QR) :=
  let gₐₐₖ' := vsub (xₖ c) (vscale (γₖ c) (grad_ψₖ c)) in
  let rₐₐₖ' := vsub gₐₐₖ' (yₐₐₖ a) in
  let r := minimize_update_anderson (qr a) (Gₐₐ a) rₐₐₖ' (rₐₐ_prev a) gₐₐₖ'
             (γₐₐ_LS a) (yₐₐₖ a) in
  let qr1 := fst (fst (fst r)) in
  let G1 := snd (fst (fst r)) in
  let γₐₐ_LS' := snd (fst r) in
  let yₐₐₖ' := snd r in
  γ_LS_active <- topRows γₐₐ_LS' (qr_num_columns qr1) ;;
  Gq <- (if negb (allFinite γ_LS_active) then
           (* Save the latest function evaluation gₖ at the first index *)
           let newest_g_idx := qr_ring_tail qr1 in
           G2 <- (if negb (newest_g_idx =? 0)%nat then
                    col <- get_col G1 newest_g_idx ;; set_col G1 0 col
                  else Ret G1) ;;
           (* Flush everything else and reset indices *)
           Ret (G2, qr_reset qr1)
         else Ret (G1, qr1)) ;;
  Ret {| rₐₐ_prev := rₐₐ_prev a; rₐₐₖ := rₐₐₖ'; yₐₐₖ := yₐₐₖ'; xₐₐₖ := xₐₐₖ a;
         gₐₐₖ := gₐₐₖ'; γₐₐ_LS := γₐₐ_LS'; yhatₐₐₖ := yhatₐₐₖ a;
         Gₐₐ := fst Gq; qr := snd Gq |}.

(** The projected accelerated point. *)
Definition anderson_candidate (a : Anderson real_t QR) : vec real_t :=
  project (yₐₐₖ a) (problem_C problem).

(** Acceptance or rejection, after the extrapolation. *)
Definition anderson_decide (c : Cur real_t) (a : Anderson real_t QR)
    : bool * Cur real_t * Anderson real_t QR :=
  let xₐₐₖ' := anderson_candidate a in
  let ψ_yhat := calc_ψ_yhat' xₐₐₖ' in
  let ψₐₐₖ₁ := fst ψ_yhat in
  let yhatₐₐₖ' := snd ψ_yhat in
  let anderson_accepted := ψₐₐₖ₁ <? ψxhatₖ c in
  if anderson_accepted then
    (* x̂ₖ.swap(xₐₐₖ) *)
    let xhatₖ' := xₐₐₖ' in
    let xₐₐₖ'' := xhatₖ c in
    let pₖ' := vsub xhatₖ' (xₖ c) in
    (true,
     {| xₖ := xₖ c; xhatₖ := xhatₖ'; yhat_xhatₖ := yhat_xhatₖ c; pₖ := pₖ';
        qₖ := qₖ c; grad_ψₖ := grad_ψₖ c;
        grad_ψhatₖ := calc_grad_ψ_from_yhat' xhatₖ' yhatₐₐₖ'; ψₖ := ψₖ c;
        Lₖ := Lₖ c; γₖ := γₖ c; σₖ := σₖ c; ψxhatₖ := ψₐₐₖ₁;
        grad_ψₖᵀpₖ := grad_ψₖᵀpₖ c; norm_sq_pₖ := norm_sq_pₖ c; φₖ := φₖ c |},
     {| rₐₐ_prev := rₐₐ_prev a; rₐₐₖ := rₐₐₖ a; yₐₐₖ := yₐₐₖ a;
        xₐₐₖ := xₐₐₖ''; gₐₐₖ := gₐₐₖ a; γₐₐ_LS := γₐₐ_LS a;
        yhatₐₐₖ := yhatₐₐₖ'; Gₐₐ := Gₐₐ a; qr := qr a |})
  else
    (false, c,
     {| rₐₐ_prev := rₐₐ_prev a; rₐₐₖ := rₐₐₖ a; yₐₐₖ := yₐₐₖ a;
        xₐₐₖ := xₐₐₖ'; gₐₐₖ := gₐₐₖ a; γₐₐ_LS := γₐₐ_LS a;
        yhatₐₐₖ := yhatₐₐₖ'; Gₐₐ := Gₐₐ a; qr := qr a |}).

(** The Anderson block of iteration [k]: [anderson_accepted] and the
    variables as the block leaves them. *)
Definition anderson (k : nat) (c : Cur real_t) (a : Anderson real_t QR)
    : outcome (bool * Cur real_t * Anderson real_t QR) :=
  if (anderson_acceleration prm =? 0)%nat then Ret (false, c, a)
  else if (k =? 0)%nat then
    a' <- anderson_first c a ;; Ret (false, c, a')
  else
    a' <- anderson_extrapolate c a ;; Ret (anderson_decide c a').

(** *** Line search *)

(** [τ] before the loop, and the direction provider and the failure counter
    after the check of the quasi-Newton step. *)
Definition linesearch_τ (k : nat) (c : Cur real_t) : real_t :=
  if (k =? 0)%nat then r0
  else if negb (allFinite (qₖ c)) then r0
  else r1.

Definition lbfgs_failed (k : nat) (c : Cur real_t) : bool :=
  negb (k =? 0)%nat && negb (allFinite (qₖ c)).

(** [σ_norm_γ⁻¹pₖ = σₖ * norm_sq_pₖ / (γₖ * γₖ)] *)
Definition σ_norm_γinv_pₖ (c : Cur real_t) : real_t :=
  σₖ c * norm_sq_pₖ c / (γₖ c * γₖ c).

(** The variables of the line search as the loop finds them: the scalars
    declared before it hold nothing yet. *)
Definition linesearch_init (k : nat) (c : Cur real_t) (nx : Next real_t) (d : D)
    (a : Anderson real_t QR) : LineSearch real_t D QR :=
  {| τ := linesearch_τ k c;
     ls_xhatₖ := xhatₖ c; ls_grad_ψhatₖ := grad_ψhatₖ c; ls_next := nx;
     φₖ₁ := junk env 0; ψₖ₁ := junk env 0; ψxhatₖ₁ := junk env 0;
     grad_ψₖ₁ᵀpₖ₁ := junk env 0; norm_sq_pₖ₁ := junk env 0;
     Lₖ₁ := junk env 0; σₖ₁ := junk env 0; γₖ₁ := junk env 0;
     ls_cond := junk env 0;
     ls_dp := if lbfgs_failed k c then dir_reset d else d;
     ls_aa := a |}.

(** Whether a pass takes the safe prox step: [τ / 2 < params.τ_min]. *)
Definition linesearch_failed (t : real_t) : bool := t / r2 <? τ_min prm.

(** The candidate [xₖ₊₁] of a pass: the safe prox step when the line search
    has failed ([xₖ₊₁.swap(x̂ₖ)]), the quasi-Newton step otherwise. *)
Definition next_x (c : Cur real_t) (l : LineSearch real_t D QR) : vec real_t :=
  if linesearch_failed (τ l) then ls_xhatₖ l
  else vadd (vadd (xₖ c) (vscale (r1 - τ l) (pₖ c))) (vscale (τ l) (qₖ c)).

(** [ψₖ₊₁] of a pass: [ψx̂ₖ], or ψ at the candidate. *)
Definition next_ψ (c : Cur real_t) (l : LineSearch real_t D QR) : real_t :=
  if linesearch_failed (τ l) then ψxhatₖ c
  else fst (calc_ψ_grad_ψ' (next_x c l)).

(** [grad_ψₖ₊₁] of a pass: [grad_̂ψₖ] ([grad_ψₖ₊₁.swap(grad_̂ψₖ)]), or ∇ψ at
    the candidate. *)
Definition next_grad_ψ (c : Cur real_t) (l : LineSearch real_t D QR) : vec real_t :=
  if linesearch_failed (τ l) then ls_grad_ψhatₖ l
  else snd (calc_ψ_grad_ψ' (next_x c l)).

(** One pass of the [do ... while] body. *)
Definition linesearch_pass (c : Cur real_t) (l : LineSearch real_t D QR)
    : outcome (LineSearch real_t D QR) :=
  (* Calculate xₖ₊₁; Calculate x̂ₖ₊₁, pₖ₊₁ (projected gradient step) with
     Lₖ₊₁ = Lₖ, σₖ₊₁ = σₖ, γₖ₊₁ = γₖ *)
  let q0 := prox_step (Lₖ c) (σₖ c) (γₖ c) (next_x c l) (next_grad_ψ c l) in
  let norm_sq_pₖ₁_ₖ := qub_norm_sq_p q0 in
  let old_γₖ₁ := γₖ c in
  (* Quadratic upper bound *)
  q <- (if update_lipschitz_in_linesearch prm
        then qub_loop fuel (next_x c l) (next_grad_ψ c l) (next_ψ c l) q0
        else Ret q0) ;;
  (* Flush L-BFGS if γ changed *)
  let changed := update_lipschitz_in_linesearch prm && (qub_γ q !=? old_γₖ₁) in
  let dp' := if changed then dir_changed_γ (ls_dp l) (qub_γ q) old_γₖ₁
             else ls_dp l in
  let aa' := if changed then anderson_changed_γ (ls_aa l) (qub_γ q) old_γₖ₁
             else ls_aa l in
  (* Compute forward-backward envelope *)
  let φₖ₁' :=
    next_ψ c l + r1 / (r2 * qub_γ q) * qub_norm_sq_p q + qub_grad_ψᵀp q in
  let ls_cond0 := φₖ₁' - (φₖ c - σ_norm_γinv_pₖ c) in
  let ls_cond' :=
    if alternative_linesearch_cond prm
    then ls_cond0 - (r05 / qub_γ q - r05 / γₖ c) * norm_sq_pₖ₁_ₖ
    else ls_cond0 in
  Ret {| τ := τ l / r2;
         (* the vectors swapped away hold what xₖ₊₁ and grad_ψₖ₊₁ held *)
         ls_xhatₖ := if linesearch_failed (τ l) then xₖ₁ (ls_next l)
                     else ls_xhatₖ l;
         ls_grad_ψhatₖ := if linesearch_failed (τ l) then grad_ψₖ₁ (ls_next l)
                          else ls_grad_ψhatₖ l;
         ls_next := {| xₖ₁ := next_x c l; xhatₖ₁ := qub_xhat q;
                       yhat_xhatₖ₁ := qub_yhat q; pₖ₁ := qub_p q;
                       grad_ψₖ₁ := next_grad_ψ c l |};
         φₖ₁ := φₖ₁'; ψₖ₁ := next_ψ c l; ψxhatₖ₁ := qub_ψxhat q;
         grad_ψₖ₁ᵀpₖ₁ := qub_grad_ψᵀp q; norm_sq_pₖ₁ := qub_norm_sq_p q;
         Lₖ₁ := qub_L q; σₖ₁ := qub_σ q; γₖ₁ := qub_γ q;
         ls_cond := ls_cond'; ls_dp := dp'; ls_aa := aa' |}.

(** [while (ls_cond > 0 && τ >= params.τ_min)] *)
Definition linesearch_continues (l : LineSearch real_t D QR) : bool :=
  (ls_cond l >? r0) && (τ l >=? τ_min prm).

(** The [do ... while] loop: a pass, then the test. *)
Fixpoint linesearch_loop (passes : nat) (c : Cur real_t)
    (l : LineSearch real_t D QR) : outcome (LineSearch real_t D QR) :=
  l' <- linesearch_pass c l ;;
  if linesearch_continues l' then
    match passes with
    | O => OutOfFuel
    | S passes' => linesearch_loop passes' c l'
    end
  else Ret l'.

(** [if (τ < params.τ_min && k != 0) ++s.linesearch_failures;] *)
Definition counts_linesearch_failure (k : nat) (l : LineSearch real_t D QR) : bool :=
  (τ l <? τ_min prm) && negb (k =? 0)%nat.

(** *** Progress check, Anderson update and advance *)

(** [if (no_progress > 0 || k % params.lbfgs_mem == 0)
       no_progress = xₖ == xₖ₊₁ ? no_progress + 1 : 0;]
    The remainder is taken only when [no_progress] is zero; by zero it is
    undefined. *)
Definition update_no_progress (k : nat) (no_progress : nat)
    (xₖ xₖ₁ : vec real_t) : outcome nat :=
  let count := if veqb xₖ xₖ₁ then S no_progress else 0%nat in
  if (0 <? no_progress)%nat then Ret count
  else if (lbfgs_mem prm =? 0)%nat then Undefined
  else if (k mod lbfgs_mem prm =? 0)%nat then Ret count
  else Ret no_progress.

(** [if (k > 0 && params.anderson_acceleration) { ... }] after the line
    search. *)
Definition anderson_update (k : nat) (anderson_accepted : bool)
    (a : Anderson real_t QR) : Anderson real_t QR :=
  if (0 <? k)%nat && negb (anderson_acceleration prm =? 0)%nat then
    {| rₐₐ_prev := rₐₐₖ a;                           (* rₐₐₖ.swap(rₐₐₖ₋₁) *)
       rₐₐₖ := rₐₐ_prev a;
       yₐₐₖ := if anderson_accepted then yₐₐₖ a else gₐₐₖ a;
       xₐₐₖ := xₐₐₖ a;
       gₐₐₖ := if anderson_accepted then gₐₐₖ a else yₐₐₖ a;
       γₐₐ_LS := γₐₐ_LS a; yhatₐₐₖ := yhatₐₐₖ a; Gₐₐ := Gₐₐ a; qr := qr a |}
  else a.

(** The variables of iteration [k + 1] become those of the next pass of the
    main loop; the vectors are swapped, so the old ones stay in the storage
    of iteration [k + 1]. *)
Definition advance_cur (c : Cur real_t) (l : LineSearch real_t D QR) : Cur real_t :=
  {| xₖ := xₖ₁ (ls_next l); xhatₖ := xhatₖ₁ (ls_next l);
     yhat_xhatₖ := yhat_xhatₖ₁ (ls_next l); pₖ := pₖ₁ (ls_next l);
     qₖ := qₖ c; grad_ψₖ := grad_ψₖ₁ (ls_next l);
     grad_ψhatₖ := ls_grad_ψhatₖ l;
     ψₖ := ψₖ₁ l; Lₖ := Lₖ₁ l; γₖ := γₖ₁ l; σₖ := σₖ₁ l;
     ψxhatₖ := ψxhatₖ₁ l; grad_ψₖᵀpₖ := grad_ψₖ₁ᵀpₖ₁ l;
     norm_sq_pₖ := norm_sq_pₖ₁ l; φₖ := φₖ₁ l |}.

Definition advance_next (c : Cur real_t) (l : LineSearch real_t D QR) : Next real_t :=
  {| xₖ₁ := xₖ c; xhatₖ₁ := ls_xhatₖ l; yhat_xhatₖ₁ := yhat_xhatₖ c;
     pₖ₁ := pₖ c; grad_ψₖ₁ := grad_ψₖ c |}.

(** *** One iteration of the main loop *)

Definition add_lbfgs_failure (b : bool) (st : Stats real_t) : Stats real_t :=
  {| iterations := iterations st; stats_ε := stats_ε st;
     elapsed_time := elapsed_time st; status := status st;
     linesearch_failures := linesearch_failures st;
     lbfgs_failures := if b then S (lbfgs_failures st) else lbfgs_failures st;
     lbfgs_rejected := lbfgs_rejected st |}.

Definition add_linesearch_failure (b : bool) (st : Stats real_t) : Stats real_t :=
  {| iterations := iterations st; stats_ε := stats_ε st;
     elapsed_time := elapsed_time st; status := status st;
     linesearch_failures :=
       if b then S (linesearch_failures st) else linesearch_failures st;
     lbfgs_failures := lbfgs_failures st;
     lbfgs_rejected := lbfgs_rejected st |}.

(** [s.lbfgs_rejected += not accepted] *)
Definition add_lbfgs_rejected (accepted : bool) (st : Stats real_t) : Stats real_t :=
  {| iterations := iterations st; stats_ε := stats_ε st;
     elapsed_time := elapsed_time st; status := status st;
     linesearch_failures := linesearch_failures st;
     lbfgs_failures := lbfgs_failures st;
     lbfgs_rejected :=
       if accepted then lbfgs_rejected st else S (lbfgs_rejected st) |}.

(** The iteration up to the stop test: the head, ∇ψ(x̂ₖ), and what is
    printed and reported. *)
Definition before_exit (k : nat) (st : State real_t D QR)
    : outcome (State real_t D QR) :=
  st1 <- head k st ;;
  (* Calculate ∇ψ(x̂ₖ) *)
  let c := set_grad_ψhatₖ (cur st1)
             (calc_grad_ψ_from_yhat' (xhatₖ (cur st1)) (yhat_xhatₖ (cur st1))) in
  Ret {| cur := c; next := next st1; aa := aa st1;
         no_progress := no_progress st1; s := s st1; dp := dp st1;
         trace := trace st1 ++ report k c (εₖ_of c) |}.

(** The flags of iteration [k], read in the state [before_exit] leaves. *)
Definition flags_at (k : nat) (st : State real_t D QR) : ExitFlags :=
  exit_flags k (εₖ_of (cur st)) (no_progress st).

(** The iteration after a stop test that did not exit. *)
Definition after_exit (k : nat) (st : State real_t D QR)
    : outcome (State real_t D QR) :=
  (* Calculate quasi-Newton step *)
  let cd := quasi_newton k (cur st) (dp st) in
  (* Anderson acceleration *)
  r <- anderson k (fst cd) (aa st) ;;
  let anderson_accepted := fst (fst r) in
  let c := snd (fst r) in
  (* Line search *)
  let s1 := add_lbfgs_failure (lbfgs_failed k c) (s st) in
  l <- linesearch_loop fuel c (linesearch_init k c (next st) (snd cd) (snd r)) ;;
  let s2 := add_linesearch_failure (counts_linesearch_failure k l) s1 in
  (* Update L-BFGS *)
  let upd := dir_update (ls_dp l) (xₖ c) (xₖ₁ (ls_next l)) (pₖ c)
               (pₖ₁ (ls_next l)) (grad_ψₖ₁ (ls_next l)) (problem_C problem)
               (γₖ₁ l) in
  let s3 := add_lbfgs_rejected (snd upd) s2 in
  (* Check if we made any progress *)
  np <- update_no_progress k (no_progress st) (xₖ c) (xₖ₁ (ls_next l)) ;;
  (* Update Anderson, advance step *)
  Ret {| cur := advance_cur c l; next := advance_next c l;
         aa := anderson_update k anderson_accepted (ls_aa l);
         no_progress := np; s := s3; dp := fst upd; trace := trace st |}.

(** [for (unsigned k = 0; k <= params.max_iter; ++k) { ... }] followed by
    [throw std::logic_error("[PANOC] loop error")]: [remaining] passes are
    left, the next one is iteration [k]. *)
Fixpoint main_loop (remaining k : nat) (st : State real_t D QR)
    : outcome (Result real_t D) :=
  match remaining with
  | O => Throws
  | S remaining' =>
      st1 <- before_exit k st ;;
      if exit (flags_at k st1)
      then Ret (exit_block k (εₖ_of (cur st1)) (flags_at k st1) st1)
      else st2 <- after_exit k st1 ;; main_loop remaining' (S k) st2
  end.

(** *** The call *)

(** The estimate after the clamp, or nothing when it is not finite. *)
Definition lipschitz_estimate : option real_t :=
  let Lₖ := initial_lipschitz in
  if Lₖ <? epsilon then Some epsilon
  else if negb (isfinite Lₖ) then None
  else Some Lₖ.

(** [γₖ = params.Lipschitz.Lγ_factor / Lₖ] *)
Definition initial_γ (L0 : real_t) : real_t := Lipschitz_Lγ_factor prm / L0.

(** The variables at the head of the main loop, for the estimate [L0]. *)
Definition initial_cur (L0 : real_t) : Cur real_t :=
  let ψ_grad_ψ := calc_ψ_grad_ψ' x in
  let γ0 := initial_γ L0 in
  let σ0 := γ0 * (r1 - γ0 * L0) / r2 in
  (* Calculate x̂₀, p₀ (projected gradient step) *)
  let xhat_p := calc_xhat' γ0 x (snd ψ_grad_ψ) in
  (* Calculate ψ(x̂ₖ) and ŷ(x̂ₖ) *)
  let ψ_yhat := calc_ψ_yhat' (fst xhat_p) in
  let grad_ψᵀp := dot (snd ψ_grad_ψ) (snd xhat_p) in
  let norm_sq_p := squaredNorm (snd xhat_p) in
  {| xₖ := x; xhatₖ := fst xhat_p; yhat_xhatₖ := snd ψ_yhat;
     pₖ := snd xhat_p; qₖ := uninit (junk env) (problem_n problem);
     grad_ψₖ := snd ψ_grad_ψ;
     grad_ψhatₖ := uninit (junk env) (problem_n problem);
     ψₖ := fst ψ_grad_ψ; Lₖ := L0; γₖ := γ0; σₖ := σ0;
     ψxhatₖ := fst ψ_yhat; grad_ψₖᵀpₖ := grad_ψᵀp; norm_sq_pₖ := norm_sq_p;
     (* Compute forward-backward envelope *)
     φₖ := fst ψ_grad_ψ + r1 / (r2 * γ0) * norm_sq_p + grad_ψᵀp |}.

Definition initial_next : Next real_t :=
  {| xₖ₁ := vadd x h;
     xhatₖ₁ := uninit (junk env) (problem_n problem);
     yhat_xhatₖ₁ := uninit (junk env) (problem_m problem);
     pₖ₁ := uninit (junk env) (problem_n problem);
     grad_ψₖ₁ := calc_grad_ψ' (vadd x h) |}.

(** [direction_provider.resize(n, params.lbfgs_mem)] *)
Definition resized_dp : D :=
  dir_resize (direction_provider slv) (problem_n problem) (lbfgs_mem prm).

Definition initial_state (L0 : real_t) : State real_t D QR :=
  {| cur := initial_cur L0; next := initial_next; aa := alloc_anderson;
     no_progress := 0; s := Stats_default env; dp := resized_dp; trace := [] |}.

(** The return on an estimate that is not finite: [s.status] is set and
    nothing else is touched, so that [s.elapsed_time] is still what the
    fresh [s] held. *)
Definition not_finite_return : Result real_t D :=
  {| res_stats :=
       {| iterations := 0; stats_ε := inf; elapsed_time := junk_time env;
          status := NotFinite; linesearch_failures := 0; lbfgs_failures := 0;
          lbfgs_rejected := 0 |};
     res_out := {| out_x := x; out_y := y; out_err_z := err_z |};
     res_dp := resized_dp;
     res_trace := [] |}.

(** [PANOCSolver<DirectionProviderT>::operator()] *)
Definition solve : outcome (Result real_t D) :=
  match lipschitz_estimate with
  | None => Ret not_finite_return
  | Some L0 => main_loop (S (max_iter prm)) 0 (initial_state L0)
  end.

(** *** The iterations of a run, and what holds of their variables *)

(** [stop_test_at k st k' st']: a main loop that starts iteration [k] in the
    state [st] makes the stop test of iteration [k'] in the state [st']. *)
Inductive stop_test_at :
    nat -> State real_t D QR -> nat -> State real_t D QR -> Prop :=
| stop_test_now k st st1 :
    before_exit k st = Ret st1 -> stop_test_at k st k st1
| stop_test_later k st st1 st2 k' st' :
    before_exit k st = Ret st1 ->
    exit (flags_at k st1) = false ->
    after_exit k st1 = Ret st2 ->
    stop_test_at (S k) st2 k' st' ->
    stop_test_at k st k' st'.

(** The line search of iteration [k], as [after_exit] runs it: from the
    variables the quasi-Newton step and the Anderson block leave. *)
Definition linesearch_of (k : nat) (st : State real_t D QR)
    : outcome (LineSearch real_t D QR) :=
  r <- anderson k (fst (quasi_newton k (cur st) (dp st))) (aa st) ;;
  linesearch_loop fuel (snd (fst r))
    (linesearch_init k (snd (fst r)) (next st)
       (snd (quasi_newton k (cur st) (dp st))) (snd r)).

(** The variables of a quadratic upper bound loop agree with the iterate
    [x], of gradient [grad_ψ], they belong to: x̂ and p are the projected
    gradient step from [x] with the step size γ, ψx̂ and ŷ are ψ(x̂) and
    ŷ(x̂), and the two scalars are ∇ψ(x)ᵀp and ‖p‖². *)
Definition qub_coherent (x grad_ψ : vec real_t) (q : QUB real_t) : Prop :=
  qub_xhat q = fst (calc_xhat' (qub_γ q) x grad_ψ) /\
  qub_p q = snd (calc_xhat' (qub_γ q) x grad_ψ) /\
  qub_ψxhat q = fst (calc_ψ_yhat' (qub_xhat q)) /\
  qub_yhat q = snd (calc_ψ_yhat' (qub_xhat q)) /\
  qub_grad_ψᵀp q = dot grad_ψ (qub_p q) /\
  qub_norm_sq_p q = squaredNorm (qub_p q).

Definition coherent (c : Cur real_t) : Prop :=
  qub_coherent (xₖ c) (grad_ψₖ c) (cur_qub c).

(** None of the numbers the loop condition compares is a NaN. *)
Definition qub_compares (ψ : real_t) (q : QUB real_t) : Prop :=
  is_nan (qub_ψxhat q - ψ) = false /\
  is_nan (qub_grad_ψᵀp q + r05 * qub_L q * qub_norm_sq_p q) = false /\
  is_nan (rabs (qub_grad_ψᵀp q / ψ)) = false /\
  is_nan (quadratic_upperbound_threshold prm) = false.

End Solve.

End PANOC.

(** * The PGA solver *)

Module PGA.

(** [PGAParams] *)
Record Params (real_t : Type) : Type := {
  Lipschitz_ε : real_t;
  Lipschitz_δ : real_t;
  Lipschitz_Lγ_factor : real_t;
  max_iter : nat;
  max_time : Z;
  print_interval : nat
}.

(** The variables the main loop carries from one iteration to the next. *)
Record State (real_t : Type) : Type := {
  xₖ : vec real_t;
  xhatₖ : vec real_t;
  pₖ : vec real_t;
  yhatₖ : vec real_t;
  grad_ψₖ : vec real_t;
  grad_ψxhatₖ : vec real_t;
  ψₖ : real_t;
  ψxhatₖ : real_t;
  Lₖ : real_t;
  γₖ : real_t;
  no_progress : nat;
  trace : list (Event real_t)
}.

(** The variables of the projected gradient step and of the quadratic upper
    bound loop that follows it. *)
Record Step (real_t : Type) : Type := {
  st_L : real_t;
  st_γ : real_t;
  st_xhat : vec real_t;
  st_p : vec real_t;
  st_ψxhat : real_t;
  st_yhat : vec real_t;
  st_grad_ψᵀp : real_t;
  st_norm_sq_p : real_t
}.

Record Result (real_t : Type) : Type := {
  res_stats : Stats real_t;
  res_out : Outputs real_t;
  res_trace : list (Event real_t)
}.

Section Solve.
Context {real_t : Type} {RO : RealOps real_t}.
Context {Problem Box : Type} {HP : Helpers real_t Problem Box}.
Local Open Scope real_scope.

(** The parameters of the solver object, the surroundings, and the bound on
    the passes of the inner [while] loop. *)
Variable params : Params real_t.
Variable env : Env real_t.
Variable fuel : nat.

(** The arguments of [operator()]. *)
Variable problem : Problem.
Variable Σ : vec real_t.
Variable ε : real_t.
Variable x : vec real_t.
Variable y : vec real_t.
Variable err_z : vec real_t.

(** *** The helper lambdas *)

Definition calc_ψ_yhat' (x : vec real_t) : real_t * vec real_t :=
  calc_ψ_yhat problem x y Σ.
Definition calc_ψ_grad_ψ' (x : vec real_t) : real_t * vec real_t :=
  calc_ψ_grad_ψ problem x y Σ.
Definition calc_grad_ψ' (x : vec real_t) : vec real_t :=
  calc_grad_ψ problem x y Σ.
Definition calc_grad_ψ_from_yhat' (x yhat : vec real_t) : vec real_t :=
  calc_grad_ψ_from_yhat problem x yhat.
Definition calc_xhat' (γ : real_t) (x grad_ψ : vec real_t) : vec real_t * vec real_t :=
  calc_xhat problem γ x grad_ψ.
Definition calc_err_z' (xhat : vec real_t) : vec real_t :=
  calc_err_z problem xhat y Σ.

Definition print_progress (k : nat) (ψₖ : real_t) (grad_ψₖ pₖ : vec real_t)
    (γₖ εₖ : real_t) : Event real_t :=
  Printed k ψₖ (norm grad_ψₖ) (norm pₖ) γₖ εₖ.

(** *** Estimate of the Lipschitz constant *)

(** [h = (x * params.Lipschitz.ε).cwiseAbs().cwiseMax(params.Lipschitz.δ)] *)
Definition h : vec real_t :=
  cwiseMax (cwiseAbs (vscale_r x (Lipschitz_ε params))) (Lipschitz_δ params).

(** [x += h]: the argument [x] itself is moved to x₀ + h. *)
Definition x_plus_h : vec real_t := vadd x h.

(** [(grad_ψx̂ₖ - grad_ψₖ).norm() / h.norm()], with [grad_ψx̂ₖ] = ∇ψ(x₀ + h)
    and [grad_ψₖ] = ∇ψ(x₀). *)
Definition initial_lipschitz : real_t :=
  norm (vsub (calc_grad_ψ' x_plus_h) (snd (calc_ψ_grad_ψ' x))) / norm h.

Definition lipschitz_estimate : option real_t :=
  let Lₖ := initial_lipschitz in
  if Lₖ <? epsilon then Some epsilon
  else if negb (isfinite Lₖ) then None
  else Some Lₖ.

(** [γₖ = params.Lipschitz.Lγ_factor / Lₖ] *)
Definition initial_γ (L0 : real_t) : real_t := Lipschitz_Lγ_factor params / L0.

(** *** Projected gradient step and quadratic upper bound *)

(** The step with the estimate [L] and the step size [γ]. *)
Definition step (xₖ grad_ψₖ : vec real_t) (L γ : real_t) : Step real_t :=
  (* Projected gradient step: x̂ₖ and pₖ *)
  let xhat_p := calc_xhat' γ xₖ grad_ψₖ in
  (* Calculate ψ(x̂ₖ) and ŷ(x̂ₖ) *)
  let ψ_yhat := calc_ψ_yhat' (fst xhat_p) in
  {| st_L := L; st_γ := γ; st_xhat := fst xhat_p; st_p := snd xhat_p;
     st_ψxhat := fst ψ_yhat; st_yhat := snd ψ_yhat;
     (* Calculate ∇ψ(xₖ)ᵀpₖ and ‖pₖ‖² *)
     st_grad_ψᵀp := dot grad_ψₖ (snd xhat_p);
     st_norm_sq_p := squaredNorm (snd xhat_p) |}.

(** [real_t margin = 0] *)
Definition margin : real_t := r0.

(** [ψx̂ₖ > ψₖ + margin + grad_ψₖᵀpₖ + 0.5 * Lₖ * norm_sq_pₖ] *)
Definition qub_cond (ψₖ : real_t) (q : Step real_t) : bool :=
  st_ψxhat q >? ψₖ + margin + st_grad_ψᵀp q + r05 * st_L q * st_norm_sq_p q.

Definition qub_body (xₖ grad_ψₖ : vec real_t) (q : Step real_t) : Step real_t :=
  step xₖ grad_ψₖ (st_L q * r2) (st_γ q / r2).

Fixpoint qub_loop (passes : nat) (xₖ grad_ψₖ : vec real_t) (ψₖ : real_t)
    (q : Step real_t) : outcome (Step real_t) :=
  if qub_cond ψₖ q then
    match passes with
    | O => OutOfFuel
    | S passes' => qub_loop passes' xₖ grad_ψₖ ψₖ (qub_body xₖ grad_ψₖ q)
    end
  else Ret q.

(** *** One iteration of the main loop *)

(** The iteration up to the stop test. *)
Definition before_exit (k : nat) (st : State real_t) : outcome (State real_t) :=
  q <- qub_loop fuel (xₖ st) (grad_ψₖ st) (ψₖ st)
         (step (xₖ st) (grad_ψₖ st) (Lₖ st) (γₖ st)) ;;
  (* Calculate ∇ψ(x̂ₖ) *)
  let grad_ψxhatₖ' := calc_grad_ψ_from_yhat' (st_xhat q) (st_yhat q) in
  let εₖ := calc_error_stop_crit (st_p q) (st_γ q) grad_ψxhatₖ' (grad_ψₖ st) in
  Ret {| xₖ := xₖ st; xhatₖ := st_xhat q; pₖ := st_p q; yhatₖ := st_yhat q;
         grad_ψₖ := grad_ψₖ st; grad_ψxhatₖ := grad_ψxhatₖ';
         ψₖ := ψₖ st; ψxhatₖ := st_ψxhat q; Lₖ := st_L q; γₖ := st_γ q;
         no_progress := no_progress st;
         trace :=
           trace st ++
           (if negb (print_interval params =? 0)%nat
               && (k mod print_interval params =? 0)%nat
            then [print_progress k (ψₖ st) (grad_ψₖ st) (st_p q) (st_γ q) εₖ]
            else []) |}.

(** [εₖ = calc_error_stop_crit(pₖ, γₖ, grad_ψx̂ₖ, grad_ψₖ)] *)
Definition εₖ_of (st : State real_t) : real_t :=
  calc_error_stop_crit (pₖ st) (γₖ st) (grad_ψxhatₖ st) (grad_ψₖ st).

Definition flags_at (k : nat) (st : State real_t) : ExitFlags :=
  {| out_of_time := longer_than env (time_elapsed env k) (max_time params);
     out_of_iter := (k =? max_iter params)%nat;
     interrupted := stop_requested env k;
     not_finite := negb (isfinite (εₖ_of st));
     conv := εₖ_of st <=? ε;
     max_no_progress := (1 <? no_progress st)%nat |}.

(** The exit block: the three arguments are written on every exit. *)
Definition exit_block (k : nat) (st : State real_t) : Result real_t :=
  {| res_stats :=
       {| iterations := k; stats_ε := εₖ_of st;
          elapsed_time := to_microseconds env (time_elapsed env k);
          status := exit_status (flags_at k st);
          linesearch_failures := 0; lbfgs_failures := 0; lbfgs_rejected := 0 |};
     res_out :=
       {| out_x := xhatₖ st; out_y := yhatₖ st;
          out_err_z := calc_err_z' (xhatₖ st) |};
     res_trace := trace st |}.

(** The iteration after a stop test that did not exit. *)
Definition after_exit (st : State real_t) : State real_t :=
  {| xₖ := xhatₖ st;                                     (* xₖ.swap(x̂ₖ) *)
     xhatₖ := xₖ st;
     pₖ := pₖ st; yhatₖ := yhatₖ st;
     grad_ψₖ := grad_ψxhatₖ st;                (* grad_ψₖ.swap(grad_ψx̂ₖ) *)
     grad_ψxhatₖ := grad_ψₖ st;
     ψₖ := ψxhatₖ st; ψxhatₖ := ψxhatₖ st;
     Lₖ := Lₖ st; γₖ := γₖ st;
     no_progress := if veqb (xₖ st) (xhatₖ st) then S (no_progress st) else 0;
     trace := trace st |}.

(** [for (unsigned k = 0; k <= params.max_iter; ++k) { ... }] followed by
    [throw std::logic_error("[PGA]   loop error")]. *)
Fixpoint main_loop (remaining k : nat) (st : State real_t)
    : outcome (Result real_t) :=
  match remaining with
  | O => Throws
  | S remaining' =>
      st1 <- before_exit k st ;;
      if exit (flags_at k st1) then Ret (exit_block k st1)
      else main_loop remaining' (S k) (after_exit st1)
  end.

(** *** The call *)

Definition initial_state (L0 : real_t) : State real_t :=
  {| xₖ := x;
     xhatₖ := uninit (junk env) (problem_n problem);
     pₖ := uninit (junk env) (problem_n problem);
     yhatₖ := uninit (junk env) (problem_m problem);
     grad_ψₖ := snd (calc_ψ_grad_ψ' x);
     grad_ψxhatₖ := calc_grad_ψ' x_plus_h;
     ψₖ := fst (calc_ψ_grad_ψ' x); ψxhatₖ := junk env 0;
     Lₖ := L0; γₖ := initial_γ L0; no_progress := 0; trace := [] |}.

(** The return on an estimate that is not finite: [s.status] is set, and
    [s.elapsed_time] is still what the fresh [s] held; [x] was moved to
    x₀ + h before and stays there. *)
Definition not_finite_return : Result real_t :=
  {| res_stats :=
       {| iterations := 0; stats_ε := inf; elapsed_time := junk_time env;
          status := NotFinite; linesearch_failures := 0; lbfgs_failures := 0;
          lbfgs_rejected := 0 |};
     res_out := {| out_x := x_plus_h; out_y := y; out_err_z := err_z |};
     res_trace := [] |}.

(** [PGA::operator()] *)
Definition solve : outcome (Result real_t) :=
  match lipschitz_estimate with
  | None => Ret not_finite_return
  | Some L0 => main_loop (S (max_iter params)) 0 (initial_state L0)
  end.

(** [stop_test_at k st k' st']: a main loop that starts iteration [k] in the
    state [st] makes the stop test of iteration [k'] in the state [st']. *)
Inductive stop_test_at : nat -> State real_t -> nat -> State real_t -> Prop :=
| stop_test_now k st st1 :
    before_exit k st = Ret st1 -> stop_test_at k st k st1
| stop_test_later k st st1 k' st' :
    before_exit k st = Ret st1 ->
    exit (flags_at k st1) = false ->
    stop_test_at (S k) (after_exit st1) k' st' ->
    stop_test_at k st k' st'.

End Solve.

End PGA.

(** * Two implementations of [real_t] *)

(** ** The machine's doubles *)

(** IEEE-754 binary64 as the kernel has it: the C++ [double]. *)
#[global] Instance binary64 : RealOps float := {|
  r0 := 0%float;
  r1 := 1%float;
  r2 := 2%float;
  r05 := 0.5%float;
  inf := infinity;
  epsilon := 0x1p-52%float;
  radd := PrimFloat.add;
  rsub := PrimFloat.sub;
  rmul := PrimFloat.mul;
  rdiv := PrimFloat.div;
  rneg := PrimFloat.opp;
  rabs := PrimFloat.abs;
  rsqrt := PrimFloat.sqrt;
  rltb := PrimFloat.ltb;
  rleb := PrimFloat.leb;
  reqb := PrimFloat.eqb;
  isfinite := PrimFloat.is_finite
|}.

(** ** Exact arithmetic with the special values *)

(** Rationals with +∞, −∞ and NaN, which combine as IEEE-754 combines them;
    finite results are exact, and kept in lowest terms.  There is one zero
    (it divides like +0), and the square root is rounded down to a multiple
    of 2⁻³² of the denominator's reciprocal. *)
Inductive xreal : Type :=
| Fin (q : Q)
| PInf
| NInf
| NaN.

Definition Qlt_bool (a b : Q) : bool := negb (Qle_bool b a).

Definition xneg (a : xreal) : xreal :=
  match a with
  | Fin q => Fin (Qred (- q))
  | PInf => NInf
  | NInf => PInf
  | NaN => NaN
  end.

Definition xadd (a b : xreal) : xreal :=
  match a, b with
  | NaN, _ | _, NaN => NaN
  | Fin p, Fin q => Fin (Qred (p + q))
  | PInf, NInf | NInf, PInf => NaN
  | PInf, _ | _, PInf => PInf
  | NInf, _ | _, NInf => NInf
  end.

Definition xsub (a b : xreal) : xreal := xadd a (xneg b).

(** ∞ times a finite number, by the sign of the number. *)
Definition xscale_inf (positive : bool) (q : Q) : xreal :=
  match (0 ?= q)%Q with
  | Lt => if positive then PInf else NInf
  | Gt => if positive then NInf else PInf
  | Eq => NaN
  end.

Definition xmul (a b : xreal) : xreal :=
  match a, b with
  | NaN, _ | _, NaN => NaN
  | Fin p, Fin q => Fin (Qred (p * q))
  | Fin p, PInf | PInf, Fin p => xscale_inf true p
  | Fin p, NInf | NInf, Fin p => xscale_inf false p
  | PInf, PInf | NInf, NInf => PInf
  | PInf, NInf | NInf, PInf => NInf
  end.

Definition xdiv (a b : xreal) : xreal :=
  match a, b with
  | NaN, _ | _, NaN => NaN
  | Fin p, Fin q =>
      if Qeq_bool q 0 then
        match (0 ?= p)%Q with
        | Lt => PInf
        | Gt => NInf
        | Eq => NaN
        end
      else Fin (Qred (p / q))
  | Fin _, (PInf | NInf) => Fin 0
  | PInf, Fin q => if Qle_bool 0 q then PInf else NInf
  | NInf, Fin q => if Qle_bool 0 q then NInf else PInf
  | (PInf | NInf), (PInf | NInf) => NaN
  end.

Definition xabs (a : xreal) : xreal :=
  match a with
  | Fin q => Fin (Qred (Qabs q))
  | PInf | NInf => PInf
  | NaN => NaN
  end.

Definition Qsqrt (q : Q) : Q :=
  Qred (Z.sqrt (Qnum q * Zpos (Qden q) * 2 ^ 64) # (Qden q * 2 ^ 32)).

Definition xsqrt (a : xreal) : xreal :=
  match a with
  | Fin q => if Qlt_bool q 0 then NaN else Fin (Qsqrt q)
  | PInf => PInf
  | NInf | NaN => NaN
  end.

Definition xltb (a b : xreal) : bool :=
  match a, b with
  | NaN, _ | _, NaN => false
  | Fin p, Fin q => Qlt_bool p q
  | _, NInf => false
  | NInf, _ => true
  | PInf, _ => false
  | _, PInf => true
  end.

Definition xleb (a b : xreal) : bool :=
  match a, b with
  | NaN, _ | _, NaN => false
  | Fin p, Fin q => Qle_bool p q
  | NInf, _ => true
  | _, PInf => true
  | _, NInf => false
  | PInf, _ => false
  end.

Definition xeqb (a b : xreal) : bool :=
  match a, b with
  | Fin p, Fin q => Qeq_bool p q
  | PInf, PInf | NInf, NInf => true
  | _, _ => false
  end.

Definition xisfinite (a : xreal) : bool :=
  match a with
  | Fin _ => true
  | _ => false
  end.

#[global] Instance xreal_ops : RealOps xreal := {|
  r0 := Fin 0;
  r1 := Fin 1;
  r2 := Fin 2;
  r05 := Fin (1 # 2);
  inf := PInf;
  epsilon := Fin (1 # 4503599627370496);
  radd := xadd;
  rsub := xsub;
  rmul := xmul;
  rdiv := xdiv;
  rneg := xneg;
  rabs := xabs;
  rsqrt := xsqrt;
  rltb := xltb;
  rleb := xleb;
  reqb := xeqb;
  isfinite := xisfinite
|}.

(** What a square root can be in [xreal]: not negative, not −∞. *)
Definition nonneg_or_nan (a : xreal) : Prop :=
  match a with
  | Fin q => (0 <= q)%Q
  | PInf | NaN => True
  | NInf => False
  end.

(** ** The order laws the properties rest on *)

(** Facts of IEEE-754 arithmetic, stated over the interface.  Each holds of
    binary64 (rounding is monotone, a product or quotient takes the sign of
    its operands, a sum of squares that starts from +0 is never negative);
    they are proved of [xreal] below. *)
Record RealLaws {real_t : Type} (RO : RealOps real_t) : Prop := {
  (** machine epsilon is a positive number *)
  epsilon_finite : isfinite epsilon = true;
  epsilon_pos : rltb r0 epsilon = true;
  (** numbers are ordered: a finite number is below or equal to itself,
      and so is whatever compares below or equal to something *)
  leb_refl : forall a, isfinite a = true -> rleb a a = true;
  leb_refl_r : forall a b, rleb a b = true -> rleb b b = true;
  (** [<] and [<=] are total on what is not a NaN *)
  not_ltb_leb : forall a b,
    is_nan a = false -> is_nan b = false -> rltb b a = false -> rleb a b = true;
  finite_not_nan : forall a, isfinite a = true -> is_nan a = false;
  ltb_leb_trans : forall a b c,
    rltb a b = true -> rleb b c = true -> rltb a c = true;
  (** doubling a number above a positive one stays above it *)
  double_above : forall a b,
    rltb r0 a = true -> rleb a b = true -> rleb a (rmul b r2) = true;
  (** halving a number that is not negative keeps it so, and below what it
      was below *)
  half_nonneg : forall a, rleb r0 a = true -> rleb r0 (rdiv a r2) = true;
  half_below : forall a b,
    rleb r0 a = true -> rleb a b = true -> rleb (rdiv a r2) b = true;
  (** a quotient of a number that is not negative by a positive finite one
      is not negative *)
  div_nonneg : forall a b,
    rleb r0 a = true -> rltb r0 b = true -> isfinite b = true ->
    rleb r0 (rdiv a b) = true;
  (** a quotient of two norms is never −∞: if it is not finite it is not
      below anything *)
  norm_quotient : forall (u v : vec real_t) (e : real_t),
    isfinite (rdiv (norm u) (norm v)) = false ->
    rltb (rdiv (norm u) (norm v)) e = false;
  (** [|a·e| = |a|·e] for a positive [e] *)
  abs_mul_pos : forall a e, rltb r0 e = true -> rabs (rmul a e) = rmul (rabs a) e;
  (** what is below a number is not above or equal to it *)
  ltb_not_leb : forall a b, rltb a b = true -> rleb b a = false
}.

(** * A family of problems, a direction provider and a QR object to run the
      solvers on *)

Section Fixtures.
Context {real_t : Type} {RO : RealOps real_t}.
Local Open Scope real_scope.

(** [pa::Box]: the set of the [v] with [lowerbound ≤ v ≤ upperbound]. *)
Record Box : Type := {
  lowerbound : vec real_t;
  upperbound : vec real_t
}.

(** A problem without constraints [g] ([m = 0]): a smooth objective, given
    with its gradient, over a box. *)
Record Smooth : Type := {
  dim : nat;
  objective : vec real_t -> real_t;
  gradient : vec real_t -> vec real_t;
  feasible : Box
}.

(** [std::min(a, b)] *)
Definition rmin (a b : real_t) : real_t := if b <? a then b else a.

(** [v.cwiseMax(box.lowerbound).cwiseMin(box.upperbound)] *)
Definition project_box (v : vec real_t) (B : Box) : vec real_t :=
  map2 rmin (map2 rmax v (lowerbound B)) (upperbound B).

(** [v.lpNorm<Eigen::Infinity>()] *)
Definition lpNorm_inf (v : vec real_t) : real_t :=
  fold_left rmax (map rabs v) r0.

(** The helpers for such a problem: ψ is the objective, ŷ is empty, and the
    stop criterion is ‖γ⁻¹p + (∇ψ(x) − ∇ψ(x̂))‖∞. *)
#[global] Instance smooth_helpers : Helpers real_t Smooth Box := {|
  problem_n := dim;
  problem_m := fun _ => 0%nat;
  problem_C := feasible;
  calc_ψ_yhat := fun p x _ _ => (objective p x, []);
  calc_ψ_grad_ψ := fun p x _ _ => (objective p x, gradient p x);
  calc_grad_ψ := fun p x _ _ => gradient p x;
  calc_grad_ψ_from_yhat := fun p x _ => gradient p x;
  calc_xhat := fun p γ x grad_ψ =>
    let xhat := project_box (vsub x (vscale γ grad_ψ)) (feasible p) in
    (xhat, vsub xhat x);
  calc_err_z := fun _ _ _ _ => [];
  calc_error_stop_crit := fun p γ grad_ψhat grad_ψ =>
    lpNorm_inf (vadd (vscale (r1 / γ) p) (vsub grad_ψ grad_ψhat));
  project := project_box
|}.

(** ψ(x) = ½‖x − c‖² over the box [lo, hi]. *)
Definition quadratic (c lo hi : vec real_t) : Smooth :=
  {| dim := length c;
     objective := fun x => r05 * squaredNorm (vsub x c);
     gradient := fun x => vsub x c;
     feasible := {| lowerbound := lo; upperbound := hi |} |}.

(** ψ(x) = Σ 1/xᵢ over the box [lo, hi]: the gradient, −1/xᵢ², is not finite
    at zero. *)
Definition reciprocal (lo hi : vec real_t) : Smooth :=
  {| dim := length lo;
     objective := fun x => fold_left radd (map (fun a => r1 / a) x) r0;
     gradient := fun x => map (fun a => - (r1 / (a * a))) x;
     feasible := {| lowerbound := lo; upperbound := hi |} |}.

(** A direction provider that proposes the projected gradient step itself
    and counts the updates since its history was last flushed. *)
#[global] Instance counting_direction : PANOCDirection real_t Box nat := {|
  dir_resize := fun _ _ _ => 0%nat;
  dir_initialize := fun _ _ _ _ _ => 0%nat;
  dir_apply := fun d _ _ p _ => (d, p);
  dir_update := fun d _ _ _ _ _ _ _ => (S d, true);
  dir_changed_γ := fun _ _ _ => 0%nat;
  dir_reset := fun _ => 0%nat
|}.

(** A QR object without memory (its state is its number of columns, always
    zero) whose extrapolation is one more residual step, [yₖ = gₖ + rₖ]. *)
#[global] Instance memoryless_qr : LimitedMemoryQR real_t nat := {|
  qr_default := 0%nat;
  qr_resize := fun _ _ _ => 0%nat;
  qr_scale_R := fun q _ => q;
  qr_num_columns := fun q => q;
  qr_ring_tail := fun _ => 0%nat;
  qr_reset := fun _ => 0%nat;
  minimize_update_anderson := fun q G r _ g γ_LS _ => (q, G, γ_LS, vadd g r)
|}.

(** Parameters: the defaults of [PGAParams] where PANOC has the same
    field, with the described changes. *)
Definition panoc_params (ε_L δ_L Lγ τ θ : real_t) (iters : nat) (time : Z)
    (in_linesearch : bool) (anderson : nat) : PANOC.Params real_t :=
  {| PANOC.Lipschitz_ε := ε_L; PANOC.Lipschitz_δ := δ_L;
     PANOC.Lipschitz_Lγ_factor := Lγ; PANOC.max_iter := iters;
     PANOC.max_time := time; PANOC.τ_min := τ; PANOC.lbfgs_mem := 10;
     PANOC.print_interval := 0; PANOC.quadratic_upperbound_threshold := θ;
     PANOC.update_lipschitz_in_linesearch := in_linesearch;
     PANOC.alternative_linesearch_cond := false;
     PANOC.anderson_acceleration := anderson |}.

Definition pga_params (ε_L δ_L Lγ : real_t) (iters : nat) (time : Z)
    : PGA.Params real_t :=
  {| PGA.Lipschitz_ε := ε_L; PGA.Lipschitz_δ := δ_L;
     PGA.Lipschitz_Lγ_factor := Lγ; PGA.max_iter := iters;
     PGA.max_time := time; PGA.print_interval := 0 |}.

(** Surroundings: a clock of [num / den] seconds a tick reads [t k] ticks
    in iteration [k], a stop is requested from iteration [stop_from] on,
    fresh vectors and scalars hold zeros, and the [elapsed_time] of a fresh
    [Stats] holds [-1]. *)
Definition clocked (num den : positive) (t : nat -> Z)
    (stop_from : option nat) : Env real_t :=
  {| time_elapsed := t;
     tick_num := num;
     tick_den := den;
     stop_requested := fun k =>
       match stop_from with
       | Some k0 => (k0 <=? k)%nat
       | None => false
       end;
     junk := fun _ => r0;
     junk_time := (-1)%Z |}.

(** The same with a clock that ticks once a microsecond. *)
Definition surroundings (t : nat -> Z) (stop_from : option nat) : Env real_t :=
  clocked 1 1000000 t stop_from.

(** 2⁻ᵏ *)
Definition half_pow (k : nat) : real_t := Nat.iter k (fun a => a / r2) r1.

(** The quadratic ½‖x − (2, 2)‖² in the box [−1, 1]², whose minimiser is
    (1, 1); the same bowl around (2, 3) without bounds; the reciprocal on
    [−1, 1]. *)
Definition bowl_in_box : Smooth :=
  quadratic [r2; r2] [- r1; - r1] [r1; r1].
Definition bowl : Smooth :=
  quadratic [r2; r2 + r1] [- inf; - inf] [inf; inf].
Definition pole : Smooth := reciprocal [- r1] [r1].

(** Parameters for the runs below: ε_L = 2⁻²⁰, δ_L = 2⁻⁴⁰, Lγ_factor =
    15/16, τ_min = 2⁻⁸, θ_qub = 2⁻³³, and a tolerance of 2⁻²⁷. *)
Definition demo_solver (iters : nat) (time : Z) (in_linesearch : bool)
    (anderson : nat) : PANOC.Solver real_t nat :=
  {| PANOC.params :=
       panoc_params (half_pow 20) (half_pow 40) (r1 - half_pow 4) (half_pow 8)
         (half_pow 33) iters time in_linesearch anderson;
     PANOC.direction_provider := 0%nat;
     PANOC.progress_cb := true |}.

Definition demo_pga (iters : nat) (time : Z) : PGA.Params real_t :=
  pga_params (half_pow 20) (half_pow 40) (r1 - half_pow 4) iters time.

Definition tolerance : real_t := half_pow 27.

(** The clock reads [k + 1] microseconds in iteration [k]; nobody asks to
    stop, or somebody did before the call. *)
Definition ticking : Env real_t :=
  surroundings (fun k => Z.of_nat (S k)) None.
Definition stopped : Env real_t :=
  surroundings (fun k => Z.of_nat (S k)) (Some 0%nat).

End Fixtures.

Arguments Box : clear implicits.
Arguments Smooth : clear implicits.

(** * What a run shows, and the same solver with another budget *)

Section Shown.
Context {real_t : Type}.

(** The iterations for which the progress callback was called, in the order
    of the calls. *)
Definition reported_iterations (tr : list (Event real_t)) : list nat :=
  flat_map (fun e => match e with
                     | Progress info => [pi_k info]
                     | Printed _ _ _ _ _ _ => []
                     end) tr.

(** The iterations for which a line was printed, in the order of the lines. *)
Definition printed_iterations (tr : list (Event real_t)) : list nat :=
  flat_map (fun e => match e with
                     | Printed k _ _ _ _ _ => [k]
                     | Progress _ => []
                     end) tr.

(** The iterations [k ≤ last] at which a solver with the given
    [print_interval] prints. *)
Definition print_schedule (print_interval last : nat) : list nat :=
  if (print_interval =? 0)%nat then []
  else filter (fun k => (k mod print_interval =? 0)%nat) (seq 0 (S last)).

End Shown.

(** A PANOC solver, and the parameters of a PGA solver, with [max_iter]
    set to [N] and nothing else changed. *)
Definition panoc_with_max_iter {real_t D : Type} (slv : PANOC.Solver real_t D)
    (N : nat) : PANOC.Solver real_t D :=
  {| PANOC.params :=
       {| PANOC.Lipschitz_ε := PANOC.Lipschitz_ε (PANOC.params slv);
          PANOC.Lipschitz_δ := PANOC.Lipschitz_δ (PANOC.params slv);
          PANOC.Lipschitz_Lγ_factor :=
            PANOC.Lipschitz_Lγ_factor (PANOC.params slv);
          PANOC.max_iter := N;
          PANOC.max_time := PANOC.max_time (PANOC.params slv);
          PANOC.τ_min := PANOC.τ_min (PANOC.params slv);
          PANOC.lbfgs_mem := PANOC.lbfgs_mem (PANOC.params slv);
          PANOC.print_interval := PANOC.print_interval (PANOC.params slv);
          PANOC.quadratic_upperbound_threshold :=
            PANOC.quadratic_upperbound_threshold (PANOC.params slv);
          PANOC.update_lipschitz_in_linesearch :=
            PANOC.update_lipschitz_in_linesearch (PANOC.params slv);
          PANOC.alternative_linesearch_cond :=
            PANOC.alternative_linesearch_cond (PANOC.params slv);
          PANOC.anderson_acceleration :=
            PANOC.anderson_acceleration (PANOC.params slv) |};
     PANOC.direction_provider := PANOC.direction_provider slv;
     PANOC.progress_cb := PANOC.progress_cb slv |}.

Definition pga_with_max_iter {real_t : Type} (params : PGA.Params real_t)
    (N : nat) : PGA.Params real_t :=
  {| PGA.Lipschitz_ε := PGA.Lipschitz_ε params;
     PGA.Lipschitz_δ := PGA.Lipschitz_δ params;
     PGA.Lipschitz_Lγ_factor := PGA.Lipschitz_Lγ_factor params;
     PGA.max_iter := N;
     PGA.max_time := PGA.max_time params;
     PGA.print_interval := PGA.print_interval params |}.

(** [a] doubled, and halved, [i] times over, as [L *= 2] and [γ /= 2] do it. *)
Definition doubled {real_t : Type} {RO : RealOps real_t} (i : nat) (a : real_t)
    : real_t :=
  Nat.iter i (fun b => rmul b r2) a.

Definition halved {real_t : Type} {RO : RealOps real_t} (i : nat) (a : real_t)
    : real_t :=
  Nat.iter i (fun b => rdiv b r2) a.

(** * Pictures of an iteration *)

Section Pictures.
Context {real_t : Type} {RO : RealOps real_t}.
Context {Problem Box : Type} {HP : Helpers real_t Problem Box}.
Variable problem : Problem.
Variable Σ : vec real_t.
Variable y : vec real_t.

(** The aggregate handed to the callback is a consistent picture of the
    iteration: x̂ and p are the projected gradient step from [x] with the
    step size γ, the scalars belong to them, and ε is the stop criterion. *)
Definition snapshot_consistent (info : ProgressInfo real_t) : Prop :=
  pi_x_hat info =
    fst (calc_xhat problem (pi_γ info) (pi_x info) (pi_grad_ψ info)) /\
  pi_p info =
    snd (calc_xhat problem (pi_γ info) (pi_x info) (pi_grad_ψ info)) /\
  pi_norm_sq_p info = squaredNorm (pi_p info) /\
  pi_ψ_hat info = fst (calc_ψ_yhat problem (pi_x_hat info) y Σ) /\
  pi_grad_ψ_hat info =
    calc_grad_ψ_from_yhat problem (pi_x_hat info)
      (snd (calc_ψ_yhat problem (pi_x_hat info) y Σ)) /\
  pi_ε info =
    calc_error_stop_crit (pi_p info) (pi_γ info) (pi_grad_ψ_hat info)
      (pi_grad_ψ info) /\
  pi_Σ info = Σ /\ pi_y info = y.

(** [ψ] and [g] are the objective and the gradient at [xk], computed there
    by [calc_ψ_grad_ψ], or by [calc_ψ_ŷ] and [calc_grad_ψ_from_ŷ]. *)
Definition evaluated_at (xk : vec real_t) (ψ : real_t) (g : vec real_t) : Prop :=
  (ψ = fst (calc_ψ_grad_ψ problem xk y Σ) /\
   g = snd (calc_ψ_grad_ψ problem xk y Σ)) \/
  (ψ = fst (calc_ψ_yhat problem xk y Σ) /\
   g = calc_grad_ψ_from_yhat problem xk (snd (calc_ψ_yhat problem xk y Σ))).

End Pictures.

(** * Properties *)

Unset Implicit Arguments.

(** ** Outcomes, flags and storage *)

Lemma bind_Ret {A B : Type} (m : outcome A) (f : A -> outcome B) (b : B) :
  bind m f = Ret b -> exists a, m = Ret a /\ f a = Ret b.
Proof. destruct m; simpl; try discriminate. intros H. now exists a. Qed.

(** The conditional chain of the exit block picks the status of the first
    flag set in the order [code_priority]. *)
Lemma exit_status_code_priority (f : ExitFlags) :
  exit f = true -> status_by_priority code_priority f = Some (exit_status f).
Proof.
  unfold exit, exit_status, code_priority. simpl.
  destruct (conv f), (out_of_time f), (out_of_iter f), (not_finite f),
    (max_no_progress f), (interrupted f); simpl; intros H; try reflexivity;
    discriminate.
Qed.

Lemma exit_status_Converged (f : ExitFlags) :
  exit_status f = Converged <-> conv f = true.
Proof.
  unfold exit_status.
  destruct (conv f), (out_of_time f), (out_of_iter f), (not_finite f),
    (max_no_progress f); split; intros H; try reflexivity; discriminate.
Qed.

Lemma exit_status_Interrupted (f : ExitFlags) :
  exit f = true -> exit_status f = Interrupted -> interrupted f = true.
Proof.
  unfold exit, exit_status.
  destruct (conv f), (out_of_time f), (out_of_iter f), (not_finite f),
    (max_no_progress f), (interrupted f); simpl; intros H1 H2;
    try reflexivity; discriminate.
Qed.

Lemma length_uninit {real_t : Type} (junk : nat -> real_t) (n : nat) :
  length (uninit junk n) = n.
Proof. unfold uninit. now rewrite length_map, length_seq. Qed.

Lemma mat_cols_resize {real_t : Type} (junk : nat -> real_t) (rows cols : nat) :
  mat_cols (mat_resize junk rows cols) = cols.
Proof. unfold mat_cols, mat_resize. apply repeat_length. Qed.

Lemma mat_rows_resize {real_t : Type} (junk : nat -> real_t) (rows cols : nat)
    (c : vec real_t) :
  In c (mat_resize junk rows cols) -> length c = rows.
Proof.
  unfold mat_resize. intros H. apply repeat_spec in H. subst c.
  apply length_uninit.
Qed.

(** ** The laws hold of [xreal] *)

Section XrealLaws.

#[local] Arguments Qred : simpl never.
#[local] Arguments Qle_bool : simpl never.
#[local] Arguments Qeq_bool : simpl never.
#[local] Arguments Qcompare : simpl never.
#[local] Arguments Qmult : simpl never.
#[local] Arguments Qdiv : simpl never.
#[local] Arguments Qplus : simpl never.
#[local] Arguments Qabs : simpl never.
#[local] Arguments Qlt_bool : simpl never.
#[local] Arguments Qsqrt : simpl never.

Lemma Qle_bool_false (a b : Q) : Qle_bool a b = false <-> (b < a)%Q.
Proof.
  split; intros H.
  - apply Qnot_le_lt. intros Hle. apply Qle_bool_iff in Hle. congruence.
  - destruct (Qle_bool a b) eqn:E; [|reflexivity].
    apply Qle_bool_iff in E. exfalso. apply (Qlt_not_le _ _ H E).
Qed.

Lemma Qlt_bool_iff (a b : Q) : Qlt_bool a b = true <-> (a < b)%Q.
Proof. unfold Qlt_bool. rewrite negb_true_iff. apply Qle_bool_false. Qed.

Lemma Qlt_bool_false (a b : Q) : Qlt_bool a b = false <-> (b <= a)%Q.
Proof. unfold Qlt_bool. rewrite negb_false_iff. apply Qle_bool_iff. Qed.

Lemma Qeq_bool_false_pos (q : Q) : (0 < q)%Q -> Qeq_bool q 0 = false.
Proof.
  intros H. destruct (Qeq_bool q 0) eqn:E; [|reflexivity].
  apply Qeq_bool_iff in E. rewrite E in H. discriminate.
Qed.

Lemma Qcompare_abs (p : Q) :
  (0 ?= Qred (Qabs p))%Q =
  match (0 ?= p)%Q with
  | Eq => Eq
  | _ => Lt
  end.
Proof.
  destruct (0 ?= p)%Q eqn:C.
  - rewrite <- Qeq_alt in *. rewrite Qred_correct, <- C. reflexivity.
  - rewrite <- Qlt_alt in *. rewrite Qred_correct, Qabs_pos; lra.
  - rewrite <- Qgt_alt in C. rewrite <- Qlt_alt.
    rewrite Qred_correct, Qabs_neg; lra.
Qed.

Lemma Qsqrt_nonneg (q : Q) : (0 <= Qsqrt q)%Q.
Proof.
  unfold Qsqrt. rewrite Qred_correct. unfold Qle. simpl.
  rewrite Z.mul_1_r. apply Z.sqrt_nonneg.
Qed.

Lemma xsqrt_range (a : xreal) : nonneg_or_nan (xsqrt a).
Proof.
  destruct a as [q| | |]; simpl; trivial.
  destruct (Qlt_bool q 0); simpl; trivial. apply Qsqrt_nonneg.
Qed.

Lemma xdiv_range (a b : xreal) :
  nonneg_or_nan a -> nonneg_or_nan b -> nonneg_or_nan (xdiv a b).
Proof.
  destruct a as [p| | |], b as [q| | |]; simpl; trivial; try tauto;
    try (intros; apply Qle_refl).
  - intros Hp Hq. destruct (Qeq_bool q 0) eqn:E.
    + destruct (0 ?= p)%Q eqn:C; simpl; trivial.
      apply Qgt_alt in C. apply (Qlt_not_le _ _ C Hp).
    + simpl. rewrite Qred_correct.
      assert (Hq' : (0 < q)%Q).
      { apply Qle_lteq in Hq. destruct Hq as [Hq|Hq]; [exact Hq|].
        symmetry in Hq. apply Qeq_bool_iff in Hq. congruence. }
      apply Qle_shift_div_l; [exact Hq'|]. now rewrite Qmult_0_l.
  - intros _ Hq. apply Qle_bool_iff in Hq. now rewrite Hq.
Qed.

Lemma xreal_laws : RealLaws xreal_ops.
Proof.
  constructor.
  - reflexivity.
  - reflexivity.
  - intros [q| | |]; simpl; try discriminate. intros _.
    apply Qle_bool_iff, Qle_refl.
  - intros [p| | |] [q| | |]; simpl; try discriminate; try reflexivity;
      intros _; apply Qle_bool_iff, Qle_refl.
  - intros [p| | |] [q| | |]; unfold is_nan; simpl; try discriminate;
      try reflexivity.
    intros _ _ H. now apply Qlt_bool_false in H; apply Qle_bool_iff.
  - intros [q| | |]; unfold is_nan; simpl; try discriminate. intros _.
    apply negb_false_iff, Qeq_bool_iff. reflexivity.
  - intros [p| | |] [q| | |] [r| | |]; simpl; try discriminate; try reflexivity.
    intros H1 H2. apply Qlt_bool_iff in H1. apply Qle_bool_iff in H2.
    apply Qlt_bool_iff. eapply Qlt_le_trans; eauto.
  - intros [p| | |] [q| | |]; simpl; try discriminate; try reflexivity.
    intros H1 H2. apply Qlt_bool_iff in H1. apply Qle_bool_iff in H2.
    apply Qle_bool_iff. rewrite Qred_correct. lra.
  - intros [p| | |]; simpl; try discriminate; try reflexivity.
    intros H. apply Qle_bool_iff in H. apply Qle_bool_iff.
    rewrite Qred_correct. apply Qle_shift_div_l; [reflexivity|]. lra.
  - intros [p| | |] [q| | |]; simpl; try discriminate; try reflexivity.
    intros H1 H2. apply Qle_bool_iff in H1. apply Qle_bool_iff in H2.
    apply Qle_bool_iff. rewrite Qred_correct.
    apply Qle_shift_div_r; [reflexivity|]. lra.
  - intros [p| | |] [q| | |]; simpl; try discriminate; try reflexivity.
    + intros H1 H2 _. apply Qle_bool_iff in H1. apply Qlt_bool_iff in H2.
      rewrite (Qeq_bool_false_pos q H2). simpl. apply Qle_bool_iff.
      rewrite Qred_correct. apply Qle_shift_div_l; [exact H2|].
      now rewrite Qmult_0_l.
    + intros _ H2 _. apply Qlt_bool_iff in H2.
      assert (H : Qle_bool 0 q = true) by (apply Qle_bool_iff; lra).
      now rewrite H.
  - intros u v e. unfold norm.
    pose proof (xdiv_range _ _ (xsqrt_range (squaredNorm u))
                  (xsqrt_range (squaredNorm v))) as H.
    change (@rdiv xreal xreal_ops) with xdiv.
    change (@rsqrt xreal xreal_ops) with xsqrt.
    destruct (xdiv _ _); simpl in *; try discriminate; try tauto;
      destruct e; reflexivity.
  - intros [p| | |] [q| | |]; simpl; try discriminate; try reflexivity.
    + intros H. apply Qlt_bool_iff in H. f_equal. apply Qred_complete.
      rewrite !Qred_correct, Qabs_Qmult, (Qabs_pos q); [reflexivity|lra].
    + intros _. unfold xscale_inf. rewrite Qcompare_abs.
      destruct (0 ?= p)%Q; reflexivity.
    + intros H. apply Qlt_bool_iff in H. unfold xscale_inf.
      rewrite (proj1 (Qlt_alt _ _) H). reflexivity.
    + intros H. apply Qlt_bool_iff in H. unfold xscale_inf.
      rewrite (proj1 (Qlt_alt _ _) H). reflexivity.
  - intros [p| | |] [q| | |]; simpl; try discriminate; try reflexivity.
    intros H. apply Qlt_bool_iff in H. now apply Qle_bool_false.
Qed.

End XrealLaws.

(** ** The estimate, whatever the solver *)

Section Estimate.
Context {real_t : Type} {RO : RealOps real_t}.
Hypothesis laws : RealLaws RO.

(** The estimate the main loop starts from is a positive number. *)
Lemma estimate_positive (L L0 : real_t) :
  (if rltb L epsilon then Some epsilon
   else if negb (isfinite L) then None else Some L) = Some L0 ->
  rltb r0 L0 = true /\ isfinite L0 = true.
Proof.
  destruct (rltb L epsilon) eqn:E.
  - intros H. injection H as <-.
    split; [apply (epsilon_pos laws)|apply (epsilon_finite laws)].
  - destruct (isfinite L) eqn:F; [|discriminate]. intros H. injection H as <-.
    split; [|exact F].
    apply (ltb_leb_trans laws r0 epsilon L (epsilon_pos laws)).
    apply (not_ltb_leb laws); trivial; apply (finite_not_nan laws); trivial.
    apply (epsilon_finite laws).
Qed.

(** The first estimate and step size are within their own bounds. *)
Lemma initial_bounded (Lγ L0 : real_t) :
  rleb r0 Lγ = true -> rltb r0 L0 = true -> isfinite L0 = true ->
  bounded L0 (rdiv Lγ L0) L0 (rdiv Lγ L0).
Proof.
  intros H0 Hp Hf. unfold bounded.
  pose proof (div_nonneg laws Lγ L0 H0 Hp Hf) as Hγ.
  repeat split; trivial.
  - now apply (leb_refl laws).
  - exact (leb_refl_r laws _ _ Hγ).
Qed.

(** [h], component by component. *)
Lemma cwise_h (x : vec real_t) (ε_L δ_L : real_t) :
  rltb r0 ε_L = true ->
  cwiseMax (cwiseAbs (vscale_r x ε_L)) δ_L =
  map (fun xi => rmax (rmul (rabs xi) ε_L) δ_L) x.
Proof.
  intros Hε. unfold cwiseMax, cwiseAbs, vscale_r.
  rewrite !map_map. apply map_ext. intros a.
  now rewrite (abs_mul_pos laws).
Qed.

End Estimate.

(** ** Runs of the PANOC solver *)

Section PANOC_runs.
Context {real_t : Type} {RO : RealOps real_t}.
Context {Problem Box : Type} {HP : Helpers real_t Problem Box}.
Context {D : Type} {DIR : PANOCDirection real_t Box D}.
Context {QR : Type} {LMQR : LimitedMemoryQR real_t QR}.
Variable slv : PANOC.Solver real_t D.
Variable env : Env real_t.
Variable fuel : nat.
Variable problem : Problem.
Variable Σ : vec real_t.
Variable ε : real_t.
Variable always_overwrite_results : bool.
Variable x : vec real_t.
Variable y : vec real_t.
Variable err_z : vec real_t.

Local Abbreviation before_exit := (PANOC.before_exit slv fuel problem Σ y).
Local Abbreviation after_exit := (PANOC.after_exit slv env fuel problem Σ y).
Local Abbreviation flags_at := (PANOC.flags_at slv env ε).
Local Abbreviation exit_block :=
  (PANOC.exit_block env problem Σ always_overwrite_results x y err_z).
Local Abbreviation main_loop :=
  (PANOC.main_loop slv env fuel problem Σ ε always_overwrite_results x y err_z).
Local Abbreviation stop_test_at := (PANOC.stop_test_at slv env fuel problem Σ ε y).
Local Abbreviation qub_loop := (PANOC.qub_loop slv problem Σ y).
Local Abbreviation qub_body := (PANOC.qub_body problem Σ y).
Local Abbreviation qub_coherent := (PANOC.qub_coherent problem Σ y).
Local Abbreviation coherent := (PANOC.coherent problem Σ y).
Local Abbreviation linesearch_pass := (PANOC.linesearch_pass slv fuel problem Σ y).
Local Abbreviation linesearch_loop := (PANOC.linesearch_loop slv fuel problem Σ y).
Local Abbreviation initial_state := (PANOC.initial_state slv env problem Σ x y).
Local Abbreviation solve :=
  (PANOC.solve slv env fuel problem Σ ε always_overwrite_results x y err_z).
Local Abbreviation estimate := (PANOC.lipschitz_estimate slv problem Σ x y).

Lemma main_loop_S remaining k st :
  main_loop (S remaining) k st =
  (st1 <- before_exit k st ;;
   if exit (flags_at k st1)
   then Ret (exit_block k (PANOC.εₖ_of (PANOC.cur st1)) (flags_at k st1) st1)
   else st2 <- after_exit k st1 ;; main_loop remaining (S k) st2).
Proof. reflexivity. Qed.

(** A main loop that returns does so from the exit block of an iteration
    it reached. *)
Lemma main_loop_exits remaining : forall k st r,
  main_loop remaining k st = Ret r ->
  exists k' st',
    stop_test_at k st k' st' /\
    exit (flags_at k' st') = true /\
    r = exit_block k' (PANOC.εₖ_of (PANOC.cur st')) (flags_at k' st') st'.
Proof.
  induction remaining as [|rem IH]; intros k st r H.
  - discriminate.
  - rewrite main_loop_S in H. apply bind_Ret in H.
    destruct H as [st1 [H1 H]]. cbv beta in H.
    destruct (exit (flags_at k st1)) eqn:E.
    + injection H as <-. exists k, st1. split; [now constructor|]. now split.
    + apply bind_Ret in H. destruct H as [st2 [H2 H]].
      apply IH in H. destruct H as [k' [st' [Hr [He Hres]]]].
      exists k', st'. split; [|now split].
      eapply PANOC.stop_test_later; eauto.
Qed.

(** A call that returns does so before the main loop, on an estimate that
    is not finite, or from the exit block of an iteration. *)
Lemma panoc_solve_cases r :
  solve = Ret r ->
  (estimate = None /\ r = PANOC.not_finite_return slv env problem x y err_z) \/
  (exists L0 k st,
     estimate = Some L0 /\
     stop_test_at 0 (initial_state L0) k st /\
     exit (flags_at k st) = true /\
     r = exit_block k (PANOC.εₖ_of (PANOC.cur st)) (flags_at k st) st).
Proof.
  unfold PANOC.solve. destruct estimate as [L0|] eqn:E; intros H.
  - right. apply main_loop_exits in H. destruct H as [k [st [H1 [H2 H3]]]].
    exists L0, k, st. auto.
  - left. injection H as <-. auto.
Qed.

Lemma panoc_estimate_cases :
  RealLaws RO ->
  (rltb (PANOC.initial_lipschitz slv problem Σ x y) epsilon = true ->
   estimate = Some epsilon) /\
  (isfinite (PANOC.initial_lipschitz slv problem Σ x y) = false ->
   estimate = None) /\
  (rltb (PANOC.initial_lipschitz slv problem Σ x y) epsilon = false ->
   isfinite (PANOC.initial_lipschitz slv problem Σ x y) = true ->
   estimate = Some (PANOC.initial_lipschitz slv problem Σ x y)).
Proof.
  intros laws. unfold PANOC.lipschitz_estimate. cbv zeta. repeat split.
  - now intros ->.
  - intros Hf. unfold PANOC.initial_lipschitz in *.
    now rewrite (norm_quotient laws _ _ epsilon Hf), Hf.
  - now intros -> ->.
Qed.

(** *** The variables agree with the iterate *)

Lemma prox_step_coherent L σ γ xk g :
  qub_coherent xk g (PANOC.prox_step problem Σ y L σ γ xk g).
Proof. unfold PANOC.qub_coherent, PANOC.prox_step. simpl. tauto. Qed.

Lemma qub_body_coherent xk g q : qub_coherent xk g (qub_body xk g q).
Proof. apply prox_step_coherent. Qed.

Lemma qub_loop_coherent passes : forall xk g ψ q q',
  qub_coherent xk g q -> qub_loop passes xk g ψ q = Ret q' ->
  qub_coherent xk g q'.
Proof.
  induction passes as [|p IH]; intros xk g ψ q q' Hq H; simpl in H;
    destruct (PANOC.qub_cond slv ψ q); try discriminate.
  - now injection H as <-.
  - eapply IH; [|exact H]. apply qub_body_coherent.
  - now injection H as <-.
Qed.

Lemma linesearch_pass_coherent c l l' :
  linesearch_pass c l = Ret l' -> coherent (PANOC.advance_cur c l').
Proof.
  unfold PANOC.linesearch_pass. intros H.
  apply bind_Ret in H. destruct H as [q [Hq H]]. injection H as <-.
  unfold PANOC.coherent. cbn.
  destruct (PANOC.update_lipschitz_in_linesearch (PANOC.params slv)).
  - eapply qub_loop_coherent in Hq; [|apply prox_step_coherent]. exact Hq.
  - injection Hq as <-. apply prox_step_coherent.
Qed.

Lemma linesearch_loop_coherent passes : forall c l l',
  linesearch_loop passes c l = Ret l' -> coherent (PANOC.advance_cur c l').
Proof.
  induction passes as [|p IH]; intros c l l' H; simpl in H;
    apply bind_Ret in H; destruct H as [l1 [H1 H]]; cbv beta in H;
    destruct (PANOC.linesearch_continues slv l1); try discriminate.
  - injection H as <-. eapply linesearch_pass_coherent; eauto.
  - eapply IH; eauto.
  - injection H as <-. eapply linesearch_pass_coherent; eauto.
Qed.

(** The pass a line search ends with finds [x̂ₖ] and [grad_̂ψₖ] as the
    iteration left them: a pass that swaps them away is the last one. *)
Lemma linesearch_loop_last (laws : RealLaws RO) passes : forall c l l',
  linesearch_loop passes c l = Ret l' ->
  PANOC.ls_xhatₖ l = PANOC.xhatₖ c ->
  PANOC.ls_grad_ψhatₖ l = PANOC.grad_ψhatₖ c ->
  exists l0,
    linesearch_pass c l0 = Ret l' /\
    PANOC.ls_xhatₖ l0 = PANOC.xhatₖ c /\
    PANOC.ls_grad_ψhatₖ l0 = PANOC.grad_ψhatₖ c.
Proof.
  induction passes as [|p IH]; intros c l l' H Hx Hg; simpl in H;
    apply bind_Ret in H; destruct H as [l1 [H1 H]]; cbv beta in H;
    destruct (PANOC.linesearch_continues slv l1) eqn:E; try discriminate.
  - injection H as <-. now exists l.
  - apply (IH _ _ _ H);
      unfold PANOC.linesearch_pass in H1; apply bind_Ret in H1;
      destruct H1 as [q [_ H1]]; injection H1 as <-;
      unfold PANOC.linesearch_continues in E; cbn in E;
      apply andb_true_iff in E; destruct E as [_ E]; cbn;
      (destruct (PANOC.linesearch_failed slv (PANOC.τ l)) eqn:F;
       [unfold PANOC.linesearch_failed in F;
        apply (ltb_not_leb laws) in F; congruence|assumption]).
  - injection H as <-. now exists l.
Qed.

Lemma before_exit_coherent k st st1 :
  coherent (PANOC.cur st) -> before_exit k st = Ret st1 ->
  coherent (PANOC.cur st1).
Proof.
  unfold PANOC.before_exit, PANOC.head, PANOC.quadratic_upper_bound.
  intros Hc H. apply bind_Ret in H. destruct H as [st0 [H0 H]].
  injection H as <-. apply bind_Ret in H0. destruct H0 as [c [Hq H0]].
  injection H0 as <-. simpl.
  destruct (PANOC.qub_at_head slv k).
  - apply bind_Ret in Hq. destruct Hq as [q [Hq Hr]]. injection Hr as <-.
    eapply qub_loop_coherent in Hq; [|exact Hc]. exact Hq.
  - injection Hq as <-. exact Hc.
Qed.

Lemma after_exit_coherent k st st2 :
  after_exit k st = Ret st2 -> coherent (PANOC.cur st2).
Proof.
  unfold PANOC.after_exit. intros H.
  apply bind_Ret in H. destruct H as [r [_ H]]. cbv beta zeta in H.
  apply bind_Ret in H. destruct H as [l [Hl H]]. cbv beta zeta in H.
  apply bind_Ret in H. destruct H as [np [_ H]]. injection H as <-.
  simpl. eapply linesearch_loop_coherent; eauto.
Qed.

Lemma stop_test_at_coherent k st k' st' :
  stop_test_at k st k' st' -> coherent (PANOC.cur st) ->
  coherent (PANOC.cur st').
Proof.
  induction 1 as [k st st1 H1|k st st1 st2 k' st' H1 E H2 _ IH]; intros Hc.
  - eapply before_exit_coherent; eauto.
  - apply IH. eapply after_exit_coherent; eauto.
Qed.

Lemma initial_state_coherent L0 : coherent (PANOC.cur (initial_state L0)).
Proof. unfold PANOC.coherent, PANOC.qub_coherent. simpl. tauto. Qed.

(** *** The quadratic upper bound loop *)

Lemma qub_loop_ends passes : forall xk g ψ q q',
  qub_loop passes xk g ψ q = Ret q' -> PANOC.qub_cond slv ψ q' = false.
Proof.
  induction passes as [|p IH]; intros xk g ψ q q' H; simpl in H;
    destruct (PANOC.qub_cond slv ψ q) eqn:E; try discriminate.
  - now injection H as <-.
  - eapply IH; eauto.
  - now injection H as <-.
Qed.

(** What the loop leaves is what some number of passes makes of what it
    found. *)
Lemma qub_loop_iter passes : forall xk g ψ q q',
  qub_loop passes xk g ψ q = Ret q' ->
  exists i, i <= passes /\ q' = Nat.iter i (qub_body xk g) q.
Proof.
  induction passes as [|p IH]; intros xk g ψ q q' H; simpl in H;
    destruct (PANOC.qub_cond slv ψ q); try discriminate.
  - injection H as <-. now exists 0.
  - apply IH in H. destruct H as [i [Hi ->]]. exists (S i). split; [lia|].
    now rewrite Nat.iter_succ_r.
  - injection H as <-. exists 0. split; [lia|reflexivity].
Qed.

Lemma qub_cond_false_settled (laws : RealLaws RO) ψ q :
  PANOC.qub_cond slv ψ q = false -> PANOC.qub_compares slv ψ q ->
  rleb (rsub (PANOC.qub_ψxhat q) ψ)
       (radd (PANOC.qub_grad_ψᵀp q)
          (rmul (rmul r05 (PANOC.qub_L q)) (PANOC.qub_norm_sq_p q))) = true \/
  rleb (rabs (rdiv (PANOC.qub_grad_ψᵀp q) ψ))
       (PANOC.quadratic_upperbound_threshold (PANOC.params slv)) = true.
Proof.
  unfold PANOC.qub_cond. intros H [N1 [N2 [N3 N4]]].
  apply andb_false_iff in H. destruct H as [H|H].
  - left. now apply (not_ltb_leb laws).
  - right. now apply (not_ltb_leb laws).
Qed.

(** *** The Anderson block and the rest of an iteration *)

Lemma anderson_keeps k c a acc c' a' :
  PANOC.anderson slv problem Σ y k c a = Ret (acc, c', a') ->
  PANOC.xₖ c' = PANOC.xₖ c /\ PANOC.qₖ c' = PANOC.qₖ c /\
  PANOC.Lₖ c' = PANOC.Lₖ c /\ PANOC.γₖ c' = PANOC.γₖ c.
Proof.
  unfold PANOC.anderson. intros H.
  destruct (PANOC.anderson_acceleration (PANOC.params slv) =? 0).
  - injection H as _ <- _. tauto.
  - destruct (k =? 0).
    + apply bind_Ret in H. destruct H as [a1 [_ H]].
      injection H as _ <- _. tauto.
    + apply bind_Ret in H. destruct H as [a1 [_ H]].
      unfold PANOC.anderson_decide in H. cbv zeta in H.
      destruct (rltb _ _) in H; injection H as _ <- _; cbn; tauto.
Qed.

Lemma after_exit_inv k st st' :
  after_exit k st = Ret st' ->
  exists l,
    PANOC.linesearch_of slv env fuel problem Σ y k st = Ret l /\
    PANOC.xₖ (PANOC.cur st') = PANOC.xₖ₁ (PANOC.ls_next l) /\
    linesearch_failures (PANOC.s st') =
      (if PANOC.counts_linesearch_failure slv k l
       then S (linesearch_failures (PANOC.s st))
       else linesearch_failures (PANOC.s st)) /\
    PANOC.update_no_progress slv k (PANOC.no_progress st)
      (PANOC.xₖ (PANOC.cur st)) (PANOC.xₖ₁ (PANOC.ls_next l)) =
      Ret (PANOC.no_progress st').
Proof.
  unfold PANOC.after_exit, PANOC.linesearch_of. intros H.
  apply bind_Ret in H. destruct H as [[[acc c] a] [Ha H]]. cbv beta zeta in H.
  apply bind_Ret in H. destruct H as [l [Hl H]]. cbv beta zeta in H.
  apply bind_Ret in H. destruct H as [np [Hnp H]]. injection H as <-.
  exists l. rewrite Ha. cbn. cbn in Hl, Hnp. rewrite Hl.
  apply anderson_keeps in Ha. destruct Ha as [Hx _].
  assert (Hx' : PANOC.xₖ c = PANOC.xₖ (PANOC.cur st)).
  { rewrite Hx. unfold PANOC.quasi_newton. now destruct (0 <? k). }
  rewrite <- Hx'. repeat split; trivial.
Qed.

Lemma before_exit_trace k st st1 :
  before_exit k st = Ret st1 ->
  PANOC.trace st1 =
    PANOC.trace st ++
    PANOC.report slv Σ y k (PANOC.cur st1) (PANOC.εₖ_of (PANOC.cur st1)).
Proof.
  unfold PANOC.before_exit. intros H. apply bind_Ret in H.
  destruct H as [st0 [H0 H]]. injection H as <-. cbn.
  unfold PANOC.head in H0. apply bind_Ret in H0. destruct H0 as [c [_ H0]].
  now injection H0 as <-.
Qed.

Lemma after_exit_trace k st st2 :
  after_exit k st = Ret st2 -> PANOC.trace st2 = PANOC.trace st.
Proof.
  unfold PANOC.after_exit. intros H.
  apply bind_Ret in H. destruct H as [r [_ H]]. cbv beta zeta in H.
  apply bind_Ret in H. destruct H as [l [_ H]]. cbv beta zeta in H.
  apply bind_Ret in H. destruct H as [np [_ H]]. now injection H as <-.
Qed.

(** *** The estimate never falls and the step size never grows *)

Section Bounded.
Hypothesis laws : RealLaws RO.
Variable L0 γ0 : real_t.
Hypothesis L0_pos : rltb r0 L0 = true.

Lemma qub_body_bounded xk g q :
  bounded L0 γ0 (PANOC.qub_L q) (PANOC.qub_γ q) ->
  bounded L0 γ0 (PANOC.qub_L (qub_body xk g q)) (PANOC.qub_γ (qub_body xk g q)).
Proof.
  intros [HL [H0 Hγ]]. unfold bounded. cbn. repeat split.
  - now apply (double_above laws).
  - now apply (half_nonneg laws).
  - now apply (half_below laws).
Qed.

Lemma qub_iter_bounded xk g q i :
  bounded L0 γ0 (PANOC.qub_L q) (PANOC.qub_γ q) ->
  bounded L0 γ0 (PANOC.qub_L (Nat.iter i (qub_body xk g) q))
                (PANOC.qub_γ (Nat.iter i (qub_body xk g) q)).
Proof.
  intros Hq. induction i as [|i IH]; [exact Hq|].
  rewrite Nat.iter_succ. exact (qub_body_bounded xk g _ IH).
Qed.

Lemma qub_loop_bounded passes xk g ψ q q' :
  bounded L0 γ0 (PANOC.qub_L q) (PANOC.qub_γ q) ->
  qub_loop passes xk g ψ q = Ret q' ->
  bounded L0 γ0 (PANOC.qub_L q') (PANOC.qub_γ q').
Proof.
  intros Hq H. apply qub_loop_iter in H. destruct H as [i [_ ->]].
  exact (qub_iter_bounded xk g q i Hq).
Qed.

Lemma linesearch_pass_bounded c l l' :
  bounded L0 γ0 (PANOC.Lₖ c) (PANOC.γₖ c) ->
  linesearch_pass c l = Ret l' ->
  bounded L0 γ0 (PANOC.Lₖ₁ l') (PANOC.γₖ₁ l').
Proof.
  unfold PANOC.linesearch_pass. intros Hc H.
  apply bind_Ret in H. destruct H as [q [Hq H]]. injection H as <-. cbn.
  destruct (PANOC.update_lipschitz_in_linesearch (PANOC.params slv)).
  - eapply qub_loop_bounded; [|exact Hq]. exact Hc.
  - injection Hq as <-. exact Hc.
Qed.

Lemma linesearch_loop_bounded passes : forall c l l',
  bounded L0 γ0 (PANOC.Lₖ c) (PANOC.γₖ c) ->
  linesearch_loop passes c l = Ret l' ->
  bounded L0 γ0 (PANOC.Lₖ₁ l') (PANOC.γₖ₁ l').
Proof.
  induction passes as [|p IH]; intros c l l' Hc H; simpl in H;
    apply bind_Ret in H; destruct H as [l1 [H1 H]]; cbv beta in H;
    destruct (PANOC.linesearch_continues slv l1); try discriminate.
  - injection H as <-. eapply linesearch_pass_bounded; eauto.
  - eapply IH; eauto.
  - injection H as <-. eapply linesearch_pass_bounded; eauto.
Qed.

Lemma before_exit_bounded k st st1 :
  bounded L0 γ0 (PANOC.Lₖ (PANOC.cur st)) (PANOC.γₖ (PANOC.cur st)) ->
  before_exit k st = Ret st1 ->
  bounded L0 γ0 (PANOC.Lₖ (PANOC.cur st1)) (PANOC.γₖ (PANOC.cur st1)).
Proof.
  unfold PANOC.before_exit, PANOC.head, PANOC.quadratic_upper_bound.
  intros Hc H. apply bind_Ret in H. destruct H as [st0 [H0 H]].
  injection H as <-. apply bind_Ret in H0. destruct H0 as [c [Hq H0]].
  injection H0 as <-. cbn.
  destruct (PANOC.qub_at_head slv k).
  - apply bind_Ret in Hq. destruct Hq as [q [Hq Hr]]. injection Hr as <-.
    eapply qub_loop_bounded in Hq; [|exact Hc]. exact Hq.
  - injection Hq as <-. exact Hc.
Qed.

Lemma after_exit_bounded k st st2 :
  bounded L0 γ0 (PANOC.Lₖ (PANOC.cur st)) (PANOC.γₖ (PANOC.cur st)) ->
  after_exit k st = Ret st2 ->
  bounded L0 γ0 (PANOC.Lₖ (PANOC.cur st2)) (PANOC.γₖ (PANOC.cur st2)).
Proof.
  unfold PANOC.after_exit. intros Hc H.
  apply bind_Ret in H. destruct H as [[[acc c] a] [Ha H]]. cbv beta zeta in H.
  apply bind_Ret in H. destruct H as [l [Hl H]]. cbv beta zeta in H.
  apply bind_Ret in H. destruct H as [np [_ H]]. injection H as <-.
  cbn. cbn in Hl. eapply linesearch_loop_bounded; [|exact Hl].
  apply anderson_keeps in Ha. destruct Ha as [_ [_ [-> ->]]].
  unfold PANOC.quasi_newton. destruct (0 <? k); exact Hc.
Qed.

Lemma stop_test_at_bounded k st k' st' :
  stop_test_at k st k' st' ->
  bounded L0 γ0 (PANOC.Lₖ (PANOC.cur st)) (PANOC.γₖ (PANOC.cur st)) ->
  bounded L0 γ0 (PANOC.Lₖ (PANOC.cur st')) (PANOC.γₖ (PANOC.cur st')).
Proof.
  induction 1 as [k st st1 H1|k st st1 st2 k' st' H1 E H2 _ IH]; intros Hc.
  - eapply before_exit_bounded; eauto.
  - apply IH. eapply after_exit_bounded; [|exact H2].
    eapply before_exit_bounded; eauto.
Qed.

Lemma before_exit_reported k st st1 :
  bounded L0 γ0 (PANOC.Lₖ (PANOC.cur st)) (PANOC.γₖ (PANOC.cur st)) ->
  reported_bounded L0 γ0 (PANOC.trace st) ->
  before_exit k st = Ret st1 ->
  reported_bounded L0 γ0 (PANOC.trace st1).
Proof.
  intros Hb Ht H info Hin.
  pose proof (before_exit_bounded k st st1 Hb H) as Hb1.
  rewrite (before_exit_trace k st st1 H) in Hin.
  apply in_app_or in Hin. destruct Hin as [Hin|Hin]; [now apply Ht|].
  unfold PANOC.report in Hin. apply in_app_or in Hin.
  destruct Hin as [Hin|Hin].
  - destruct (_ && _) in Hin; [|contradiction].
    destruct Hin as [Hin|[]]. discriminate.
  - destruct (PANOC.progress_cb slv); [|contradiction].
    destruct Hin as [Hin|[]]. injection Hin as <-. exact Hb1.
Qed.

Lemma stop_test_at_reported k st k' st' :
  stop_test_at k st k' st' ->
  bounded L0 γ0 (PANOC.Lₖ (PANOC.cur st)) (PANOC.γₖ (PANOC.cur st)) ->
  reported_bounded L0 γ0 (PANOC.trace st) ->
  reported_bounded L0 γ0 (PANOC.trace st').
Proof.
  induction 1 as [k st st1 H1|k st st1 st2 k' st' H1 E H2 _ IH]; intros Hb Ht.
  - eapply before_exit_reported; eauto.
  - apply IH.
    + eapply after_exit_bounded; [|exact H2]. eapply before_exit_bounded; eauto.
    + rewrite (after_exit_trace k st1 st2 H2).
      eapply before_exit_reported; eauto.
Qed.

End Bounded.

End PANOC_runs.

(** ** Runs of the PGA solver *)

Section PGA_runs.
Context {real_t : Type} {RO : RealOps real_t}.
Context {Problem Box : Type} {HP : Helpers real_t Problem Box}.
Variable params : PGA.Params real_t.
Variable env : Env real_t.
Variable fuel : nat.
Variable problem : Problem.
Variable Σ : vec real_t.
Variable ε : real_t.
Variable x : vec real_t.
Variable y : vec real_t.
Variable err_z : vec real_t.

Local Abbreviation before_exit := (PGA.before_exit params fuel problem Σ y).
Local Abbreviation flags_at := (PGA.flags_at params env ε).
Local Abbreviation exit_block := (PGA.exit_block params env problem Σ ε y).
Local Abbreviation main_loop := (PGA.main_loop params env fuel problem Σ ε y).
Local Abbreviation stop_test_at := (PGA.stop_test_at params env fuel problem Σ ε y).
Local Abbreviation step := (PGA.step problem Σ y).
Local Abbreviation qub_body := (PGA.qub_body problem Σ y).
Local Abbreviation qub_loop := (PGA.qub_loop problem Σ y).
Local Abbreviation solve := (PGA.solve params env fuel problem Σ ε x y err_z).
Local Abbreviation estimate := (PGA.lipschitz_estimate params problem Σ x y).
Local Abbreviation initial_state := (PGA.initial_state params env problem Σ x y).

Lemma pga_main_loop_S remaining k st :
  main_loop (S remaining) k st =
  (st1 <- before_exit k st ;;
   if exit (flags_at k st1) then Ret (exit_block k st1)
   else main_loop remaining (S k) (PGA.after_exit st1)).
Proof. reflexivity. Qed.

Lemma pga_main_loop_exits remaining : forall k st r,
  main_loop remaining k st = Ret r ->
  exists k' st',
    stop_test_at k st k' st' /\
    exit (flags_at k' st') = true /\
    r = exit_block k' st'.
Proof.
  induction remaining as [|rem IH]; intros k st r H.
  - discriminate.
  - rewrite pga_main_loop_S in H. apply bind_Ret in H.
    destruct H as [st1 [H1 H]]. cbv beta in H.
    destruct (exit (flags_at k st1)) eqn:E.
    + injection H as <-. exists k, st1. split; [now constructor|]. now split.
    + apply IH in H. destruct H as [k' [st' [Hr [He Hres]]]].
      exists k', st'. split; [|now split].
      eapply PGA.stop_test_later; eauto.
Qed.

Lemma pga_solve_cases r :
  solve = Ret r ->
  (estimate = None /\ r = PGA.not_finite_return params env x y err_z) \/
  (exists L0 k st,
     estimate = Some L0 /\
     stop_test_at 0 (initial_state L0) k st /\
     exit (flags_at k st) = true /\
     r = exit_block k st).
Proof.
  unfold PGA.solve. destruct estimate as [L0|] eqn:E; intros H.
  - right. apply pga_main_loop_exits in H. destruct H as [k [st [H1 [H2 H3]]]].
    exists L0, k, st. auto.
  - left. injection H as <-. auto.
Qed.

Lemma pga_estimate_cases :
  RealLaws RO ->
  (rltb (PGA.initial_lipschitz params problem Σ x y) epsilon = true ->
   estimate = Some epsilon) /\
  (isfinite (PGA.initial_lipschitz params problem Σ x y) = false ->
   estimate = None) /\
  (rltb (PGA.initial_lipschitz params problem Σ x y) epsilon = false ->
   isfinite (PGA.initial_lipschitz params problem Σ x y) = true ->
   estimate = Some (PGA.initial_lipschitz params problem Σ x y)).
Proof.
  intros laws. unfold PGA.lipschitz_estimate. cbv zeta. repeat split.
  - now intros ->.
  - intros Hf. unfold PGA.initial_lipschitz in *.
    now rewrite (norm_quotient laws _ _ epsilon Hf), Hf.
  - now intros -> ->.
Qed.

Lemma pga_qub_loop_iter passes : forall xk g ψ q q',
  qub_loop passes xk g ψ q = Ret q' ->
  exists i, i <= passes /\ q' = Nat.iter i (qub_body xk g) q.
Proof.
  induction passes as [|p IH]; intros xk g ψ q q' H; simpl in H;
    destruct (PGA.qub_cond ψ q); try discriminate.
  - injection H as <-. now exists 0.
  - apply IH in H. destruct H as [i [Hi ->]]. exists (S i). split; [lia|].
    now rewrite Nat.iter_succ_r.
  - injection H as <-. exists 0. split; [lia|reflexivity].
Qed.

(** Whatever the loop leaves is a projected gradient step from the iterate. *)
Lemma pga_qub_iter_step xk g i : forall L γ,
  Nat.iter i (qub_body xk g) (step xk g L γ) =
  step xk g (PGA.st_L (Nat.iter i (qub_body xk g) (step xk g L γ)))
            (PGA.st_γ (Nat.iter i (qub_body xk g) (step xk g L γ))).
Proof.
  induction i as [|i IH]; intros L γ; [reflexivity|].
  rewrite Nat.iter_succ. reflexivity.
Qed.

Lemma pga_before_exit_step k st st1 :
  before_exit k st = Ret st1 ->
  PGA.xₖ st1 = PGA.xₖ st /\ PGA.grad_ψₖ st1 = PGA.grad_ψₖ st /\
  PGA.ψₖ st1 = PGA.ψₖ st /\ PGA.no_progress st1 = PGA.no_progress st /\
  PGA.xhatₖ st1 =
    fst (calc_xhat problem (PGA.γₖ st1) (PGA.xₖ st1) (PGA.grad_ψₖ st1)) /\
  PGA.pₖ st1 =
    snd (calc_xhat problem (PGA.γₖ st1) (PGA.xₖ st1) (PGA.grad_ψₖ st1)) /\
  PGA.ψxhatₖ st1 = fst (calc_ψ_yhat problem (PGA.xhatₖ st1) y Σ) /\
  PGA.yhatₖ st1 = snd (calc_ψ_yhat problem (PGA.xhatₖ st1) y Σ).
Proof.
  unfold PGA.before_exit. intros H. apply bind_Ret in H.
  destruct H as [q [Hq H]]. injection H as <-. cbn.
  apply pga_qub_loop_iter in Hq. destruct Hq as [i [_ ->]].
  rewrite pga_qub_iter_step. cbn. tauto.
Qed.

Lemma pga_stop_test_at_step k st k' st' :
  stop_test_at k st k' st' ->
  PGA.xhatₖ st' =
    fst (calc_xhat problem (PGA.γₖ st') (PGA.xₖ st') (PGA.grad_ψₖ st')) /\
  PGA.yhatₖ st' = snd (calc_ψ_yhat problem (PGA.xhatₖ st') y Σ).
Proof.
  induction 1 as [k st st1 Hb|k st st1 k' st' Hb E _ IH].
  - apply pga_before_exit_step in Hb. tauto.
  - exact IH.
Qed.

Section Bounded.
Hypothesis laws : RealLaws RO.
Variable L0 γ0 : real_t.
Hypothesis L0_pos : rltb r0 L0 = true.

Lemma pga_qub_body_bounded xk g q :
  bounded L0 γ0 (PGA.st_L q) (PGA.st_γ q) ->
  bounded L0 γ0 (PGA.st_L (qub_body xk g q)) (PGA.st_γ (qub_body xk g q)).
Proof.
  intros [HL [H0 Hγ]]. unfold bounded. cbn. repeat split.
  - now apply (double_above laws).
  - now apply (half_nonneg laws).
  - now apply (half_below laws).
Qed.

Lemma pga_qub_iter_bounded xk g q i :
  bounded L0 γ0 (PGA.st_L q) (PGA.st_γ q) ->
  bounded L0 γ0 (PGA.st_L (Nat.iter i (qub_body xk g) q))
                (PGA.st_γ (Nat.iter i (qub_body xk g) q)).
Proof.
  intros Hq. induction i as [|i IH]; [exact Hq|].
  rewrite Nat.iter_succ. exact (pga_qub_body_bounded xk g _ IH).
Qed.

Lemma pga_before_exit_bounded k st st1 :
  bounded L0 γ0 (PGA.Lₖ st) (PGA.γₖ st) ->
  before_exit k st = Ret st1 ->
  bounded L0 γ0 (PGA.Lₖ st1) (PGA.γₖ st1).
Proof.
  unfold PGA.before_exit. intros Hc H. apply bind_Ret in H.
  destruct H as [q [Hq H]]. injection H as <-. cbn.
  apply pga_qub_loop_iter in Hq. destruct Hq as [i [_ ->]].
  apply pga_qub_iter_bounded. exact Hc.
Qed.

Lemma pga_stop_test_at_bounded k st k' st' :
  stop_test_at k st k' st' ->
  bounded L0 γ0 (PGA.Lₖ st) (PGA.γₖ st) ->
  bounded L0 γ0 (PGA.Lₖ st') (PGA.γₖ st').
Proof.
  induction 1 as [k st st1 H1|k st st1 k' st' H1 E _ IH]; intros Hc.
  - eapply pga_before_exit_bounded; eauto.
  - apply IH. cbn. eapply pga_before_exit_bounded; eauto.
Qed.

End Bounded.

End PGA_runs.

(** ** The properties of the specification *)

Section Specification.
Context {real_t : Type} {RO : RealOps real_t}.
Context {Problem Box : Type} {HP : Helpers real_t Problem Box}.
Context {D : Type} {DIR : PANOCDirection real_t Box D}.
Context {QR : Type} {LMQR : LimitedMemoryQR real_t QR}.

(** A PANOC solver object and the parameters of a PGA one, the surroundings
    and the fuel, and the arguments of a call. *)
Variable slv : PANOC.Solver real_t D.
Variable pga_prm : PGA.Params real_t.
Variable env : Env real_t.
Variable fuel : nat.
Variable problem : Problem.
Variable Σ : vec real_t.
Variable ε : real_t.
Variable always_overwrite_results : bool.
Variable x : vec real_t.
Variable y : vec real_t.
Variable err_z : vec real_t.

Local Abbreviation prm := (PANOC.params slv).
Local Abbreviation panoc_solve :=
  (PANOC.solve slv env fuel problem Σ ε always_overwrite_results x y err_z).
Local Abbreviation panoc_L := (PANOC.initial_lipschitz slv problem Σ x y).
Local Abbreviation panoc_estimate := (PANOC.lipschitz_estimate slv problem Σ x y).
Local Abbreviation panoc_initial := (PANOC.initial_state slv env problem Σ x y).
Local Abbreviation panoc_flags := (PANOC.flags_at slv env ε).
Local Abbreviation panoc_test_at := (PANOC.stop_test_at slv env fuel problem Σ ε y).
Local Abbreviation panoc_before_exit := (PANOC.before_exit slv fuel problem Σ y).
Local Abbreviation panoc_after_exit := (PANOC.after_exit slv env fuel problem Σ y).
Local Abbreviation linesearch_pass := (PANOC.linesearch_pass slv fuel problem Σ y).
Local Abbreviation coherent := (PANOC.coherent problem Σ y).
Local Abbreviation pga_solve := (PGA.solve pga_prm env fuel problem Σ ε x y err_z).
Local Abbreviation pga_L := (PGA.initial_lipschitz pga_prm problem Σ x y).
Local Abbreviation pga_estimate := (PGA.lipschitz_estimate pga_prm problem Σ x y).
Local Abbreviation pga_initial := (PGA.initial_state pga_prm env problem Σ x y).
Local Abbreviation pga_flags := (PGA.flags_at pga_prm env ε).
Local Abbreviation pga_test_at := (PGA.stop_test_at pga_prm env fuel problem Σ ε y).
Local Abbreviation pga_before_exit := (PGA.before_exit pga_prm fuel problem Σ y).

(** C1, as the code has it.  Whenever a call (PANOC or PGA) returns from
    the exit block of an iteration [k], the status it returns is the one
    of the first exit flag that is set in the order converged > out of
    time > out of iterations > not finite > no progress > interrupted:
    out of time wins over out of iterations, and no progress over
    interrupted. *)
Theorem exit_status_by_code_priority :
  (forall L0 r,
     panoc_estimate = Some L0 -> panoc_solve = Ret r ->
     exists k st,
       panoc_test_at 0 (panoc_initial L0) k st /\
       exit (panoc_flags k st) = true /\
       iterations (PANOC.res_stats r) = k /\
       status (PANOC.res_stats r) = exit_status (panoc_flags k st) /\
       status_by_priority code_priority (panoc_flags k st) =
         Some (status (PANOC.res_stats r))) /\
  (forall L0 r,
     pga_estimate = Some L0 -> pga_solve = Ret r ->
     exists k st,
       pga_test_at 0 (pga_initial L0) k st /\
       exit (pga_flags k st) = true /\
       iterations (PGA.res_stats r) = k /\
       status (PGA.res_stats r) = exit_status (pga_flags k st) /\
       status_by_priority code_priority (pga_flags k st) =
         Some (status (PGA.res_stats r))).
Proof.
  split; intros L0 r HL H.
  - apply panoc_solve_cases in H.
    destruct H as [[H _]|[L [k [st [H1 [H2 [H3 ->]]]]]]]; [congruence|].
    assert (L = L0) by congruence. subst L.
    exists k, st. repeat split; trivial.
    now apply exit_status_code_priority.
  - apply pga_solve_cases in H.
    destruct H as [[H _]|[L [k [st [H1 [H2 [H3 ->]]]]]]]; [congruence|].
    assert (L = L0) by congruence. subst L.
    exists k, st. repeat split; trivial.
    now apply exit_status_code_priority.
Qed.

(** C2, as the code has it.  A PANOC call that returns from the exit block
    of iteration [k] writes [x], [y] and [err_z] exactly when the iteration
    converged, or a stop was requested (whatever status is reported), or
    [always_overwrite_results] is set, and leaves them as they were
    otherwise; a PGA call writes them on every exit.  What is written is
    x̂ₖ, the projected gradient step from the final iterate, ŷ(x̂ₖ), and
    [calc_err_z] at x̂ₖ.  The status is [Converged] exactly when the
    iteration converged, and [Interrupted] only when a stop was requested,
    so both are exits that write. *)
Theorem outputs_written_on_exit :
  (forall L0 r,
     panoc_estimate = Some L0 -> panoc_solve = Ret r ->
     exists k st,
       panoc_test_at 0 (panoc_initial L0) k st /\
       exit (panoc_flags k st) = true /\
       PANOC.xhatₖ (PANOC.cur st) =
         fst (calc_xhat problem (PANOC.γₖ (PANOC.cur st))
                (PANOC.xₖ (PANOC.cur st)) (PANOC.grad_ψₖ (PANOC.cur st))) /\
       PANOC.yhat_xhatₖ (PANOC.cur st) =
         snd (calc_ψ_yhat problem (PANOC.xhatₖ (PANOC.cur st)) y Σ) /\
       (status (PANOC.res_stats r) = Converged <->
        conv (panoc_flags k st) = true) /\
       (status (PANOC.res_stats r) = Interrupted ->
        interrupted (panoc_flags k st) = true) /\
       PANOC.res_out r =
         if conv (panoc_flags k st) || interrupted (panoc_flags k st)
            || always_overwrite_results
         then {| out_x := PANOC.xhatₖ (PANOC.cur st);
                 out_y := PANOC.yhat_xhatₖ (PANOC.cur st);
                 out_err_z :=
                   calc_err_z problem (PANOC.xhatₖ (PANOC.cur st)) y Σ |}
         else {| out_x := x; out_y := y; out_err_z := err_z |}) /\
  (forall L0 r,
     pga_estimate = Some L0 -> pga_solve = Ret r ->
     exists k st,
       pga_test_at 0 (pga_initial L0) k st /\
       exit (pga_flags k st) = true /\
       PGA.xhatₖ st =
         fst (calc_xhat problem (PGA.γₖ st) (PGA.xₖ st) (PGA.grad_ψₖ st)) /\
       PGA.yhatₖ st = snd (calc_ψ_yhat problem (PGA.xhatₖ st) y Σ) /\
       PGA.res_out r =
         {| out_x := PGA.xhatₖ st; out_y := PGA.yhatₖ st;
            out_err_z := calc_err_z problem (PGA.xhatₖ st) y Σ |}).
Proof.
  split; intros L0 r HL H.
  - apply panoc_solve_cases in H.
    destruct H as [[H _]|[L [k [st [H1 [H2 [H3 ->]]]]]]]; [congruence|].
    assert (L = L0) by congruence. subst L. exists k, st.
    assert (Hc : coherent (PANOC.cur st)).
    { eapply stop_test_at_coherent; [exact H2|].
      apply initial_state_coherent. }
    destruct Hc as [Hx [_ [_ [Hy _]]]]. cbn in Hx, Hy.
    repeat split; trivial.
    + apply exit_status_Converged.
    + apply exit_status_Converged.
    + now apply exit_status_Interrupted.
  - apply pga_solve_cases in H.
    destruct H as [[H _]|[L [k [st [H1 [H2 [H3 ->]]]]]]]; [congruence|].
    assert (L = L0) by congruence. subst L. exists k, st.
    destruct (pga_stop_test_at_step _ _ _ _ _ _ _ _ _ _ _ H2) as [Hx Hy].
    repeat split; trivial.
Qed.

(** C3.  In both solvers the first estimate is
    ‖∇ψ(x₀ + h) − ∇ψ(x₀)‖ / ‖h‖, where hᵢ = max(|x₀ᵢ·ε_L|, δ_L), which for
    a positive ε_L is max(|x₀ᵢ|·ε_L, δ_L); an estimate below machine
    epsilon is replaced
    by machine epsilon, with which the main loop starts; on an estimate
    that is not finite the call returns at once, with the status
    [NotFinite], no iteration counted and nothing printed or reported; any
    other estimate is the one the main loop starts with. *)
Theorem initial_lipschitz_estimate (laws : RealLaws RO) :
  (* PANOC *)
  ((PANOC.h slv x =
      map (fun xi => rmax (rabs (rmul xi (PANOC.Lipschitz_ε prm)))
                       (PANOC.Lipschitz_δ prm)) x /\
    (rltb r0 (PANOC.Lipschitz_ε prm) = true ->
     PANOC.h slv x =
       map (fun xi => rmax (rmul (rabs xi) (PANOC.Lipschitz_ε prm))
                        (PANOC.Lipschitz_δ prm)) x)) /\
   panoc_L =
     rdiv (norm (vsub (calc_grad_ψ problem (vadd x (PANOC.h slv x)) y Σ)
                      (snd (calc_ψ_grad_ψ problem x y Σ))))
          (norm (PANOC.h slv x)) /\
   (rltb panoc_L epsilon = true ->
    panoc_estimate = Some epsilon /\
    panoc_solve =
      PANOC.main_loop slv env fuel problem Σ ε always_overwrite_results x y
        err_z (S (PANOC.max_iter prm)) 0 (panoc_initial epsilon)) /\
   (isfinite panoc_L = false ->
    exists r,
      panoc_solve = Ret r /\ status (PANOC.res_stats r) = NotFinite /\
      iterations (PANOC.res_stats r) = 0 /\ PANOC.res_trace r = []) /\
   (rltb panoc_L epsilon = false -> isfinite panoc_L = true ->
    panoc_estimate = Some panoc_L /\
    panoc_solve =
      PANOC.main_loop slv env fuel problem Σ ε always_overwrite_results x y
        err_z (S (PANOC.max_iter prm)) 0 (panoc_initial panoc_L))) /\
  (* PGA *)
  ((PGA.h pga_prm x =
      map (fun xi => rmax (rabs (rmul xi (PGA.Lipschitz_ε pga_prm)))
                       (PGA.Lipschitz_δ pga_prm)) x /\
    (rltb r0 (PGA.Lipschitz_ε pga_prm) = true ->
     PGA.h pga_prm x =
       map (fun xi => rmax (rmul (rabs xi) (PGA.Lipschitz_ε pga_prm))
                        (PGA.Lipschitz_δ pga_prm)) x)) /\
   pga_L =
     rdiv (norm (vsub (calc_grad_ψ problem (vadd x (PGA.h pga_prm x)) y Σ)
                      (snd (calc_ψ_grad_ψ problem x y Σ))))
          (norm (PGA.h pga_prm x)) /\
   (rltb pga_L epsilon = true ->
    pga_estimate = Some epsilon /\
    pga_solve =
      PGA.main_loop pga_prm env fuel problem Σ ε y
        (S (PGA.max_iter pga_prm)) 0 (pga_initial epsilon)) /\
   (isfinite pga_L = false ->
    exists r,
      pga_solve = Ret r /\ status (PGA.res_stats r) = NotFinite /\
      iterations (PGA.res_stats r) = 0 /\ PGA.res_trace r = []) /\
   (rltb pga_L epsilon = false -> isfinite pga_L = true ->
    pga_estimate = Some pga_L /\
    pga_solve =
      PGA.main_loop pga_prm env fuel problem Σ ε y
        (S (PGA.max_iter pga_prm)) 0 (pga_initial pga_L))).
Proof.
  split.
  - destruct (panoc_estimate_cases slv problem Σ x y laws) as [H1 [H2 H3]].
    split; [|split; [reflexivity|split; [|split]]].
    + split; [|intros Hε; now apply cwise_h].
      unfold PANOC.h, cwiseMax, cwiseAbs, vscale_r. now rewrite !map_map.
    + intros HL. specialize (H1 HL). split; [exact H1|].
      unfold PANOC.solve. now rewrite H1.
    + intros HL. specialize (H2 HL).
      exists (PANOC.not_finite_return slv env problem x y err_z).
      unfold PANOC.solve. rewrite H2. repeat split.
    + intros HL Hf. specialize (H3 HL Hf). split; [exact H3|].
      unfold PANOC.solve. now rewrite H3.
  - destruct (pga_estimate_cases pga_prm problem Σ x y laws) as [H1 [H2 H3]].
    split; [|split; [reflexivity|split; [|split]]].
    + split; [|intros Hε; now apply cwise_h].
      unfold PGA.h, cwiseMax, cwiseAbs, vscale_r. now rewrite !map_map.
    + intros HL. specialize (H1 HL). split; [exact H1|].
      unfold PGA.solve. now rewrite H1.
    + intros HL. specialize (H2 HL).
      exists (PGA.not_finite_return pga_prm env x y err_z).
      unfold PGA.solve. rewrite H2. repeat split.
    + intros HL Hf. specialize (H3 HL Hf). split; [exact H3|].
      unfold PGA.solve. now rewrite H3.
Qed.

(** C4.  When a quadratic upper bound loop of PANOC finishes (the one at
    the head of iteration [k], which runs at [k = 0] or when
    [update_lipschitz_in_linesearch] is off, or the one inside a pass of
    the line search, which runs when it is on), then, provided none of the
    numbers the loop condition compares is a NaN, either
    ψx̂ − ψ ≤ ∇ψᵀp + ½·L·‖p‖² holds of the variables it leaves, or the
    guard |∇ψᵀp / ψ| ≤ θ_qub ended the loop.  The variables meant are
    those of the iterate: the loop keeps them in agreement with it
    ([coherent]).  NaN or not, the loop condition is false of what the loop
    leaves. *)
Theorem quadratic_upper_bound_after_loop (laws : RealLaws RO) :
  (forall k c c',
     PANOC.qub_at_head slv k = true ->
     PANOC.quadratic_upper_bound slv fuel problem Σ y k c = Ret c' ->
     (coherent c -> coherent c') /\
     PANOC.qub_cond slv (PANOC.ψₖ c') (PANOC.cur_qub c') = false /\
     (PANOC.qub_compares slv (PANOC.ψₖ c') (PANOC.cur_qub c') ->
      rleb (rsub (PANOC.ψxhatₖ c') (PANOC.ψₖ c'))
           (radd (PANOC.grad_ψₖᵀpₖ c')
              (rmul (rmul r05 (PANOC.Lₖ c')) (PANOC.norm_sq_pₖ c'))) = true \/
      rleb (rabs (rdiv (PANOC.grad_ψₖᵀpₖ c') (PANOC.ψₖ c')))
           (PANOC.quadratic_upperbound_threshold prm) = true)) /\
  (forall c l l',
     PANOC.update_lipschitz_in_linesearch prm = true ->
     linesearch_pass c l = Ret l' ->
     coherent (PANOC.advance_cur c l') /\
     PANOC.qub_cond slv (PANOC.ψₖ₁ l')
       (PANOC.cur_qub (PANOC.advance_cur c l')) = false /\
     (PANOC.qub_compares slv (PANOC.ψₖ₁ l')
        (PANOC.cur_qub (PANOC.advance_cur c l')) ->
      rleb (rsub (PANOC.ψxhatₖ₁ l') (PANOC.ψₖ₁ l'))
           (radd (PANOC.grad_ψₖ₁ᵀpₖ₁ l')
              (rmul (rmul r05 (PANOC.Lₖ₁ l')) (PANOC.norm_sq_pₖ₁ l'))) = true \/
      rleb (rabs (rdiv (PANOC.grad_ψₖ₁ᵀpₖ₁ l') (PANOC.ψₖ₁ l')))
           (PANOC.quadratic_upperbound_threshold prm) = true)).
Proof.
  split.
  - intros k c c' Hk H. unfold PANOC.quadratic_upper_bound in H.
    rewrite Hk in H. apply bind_Ret in H. destruct H as [q [Hq H]].
    injection H as <-. split; [|split].
    + intros Hc. eapply qub_loop_coherent in Hq; [|exact Hc]. exact Hq.
    + apply qub_loop_ends in Hq. exact Hq.
    + intros Hn. apply qub_loop_ends in Hq.
      exact (qub_cond_false_settled slv laws _ _ Hq Hn).
  - intros c l l' Hf H. split.
    + eapply linesearch_pass_coherent; eauto.
    + unfold PANOC.linesearch_pass in H. rewrite Hf in H.
      apply bind_Ret in H. destruct H as [q [Hq H]]. injection H as <-.
      apply qub_loop_ends in Hq. split; [exact Hq|].
      intros Hn. exact (qub_cond_false_settled slv laws _ _ Hq Hn).
Qed.

(** C5.  The line search of a PANOC iteration starts from τ = 1, or from
    τ = 0 at [k = 0] or when [qₖ] has a component that is not finite, with
    x̂ₖ and ∇ψ(x̂ₖ) as the iteration has them; every pass halves τ; in a
    pass with τ/2 < τ_min the candidate is the projected gradient step
    (xₖ₊₁ takes the value of x̂ₖ, ψₖ₊₁ that of ψx̂ₖ and ∇ψₖ₊₁ that of
    ∇ψ(x̂ₖ)), in any other pass it is xₖ + (1 − τ)·pₖ + τ·qₖ, with ψ and ∇ψ
    computed there; and the iteration adds one to [linesearch_failures]
    exactly when the loop ends with τ < τ_min and [k ≠ 0].  The x̂ₖ and
    ∇ψ(x̂ₖ) a pass finds are those of the iteration, since a pass that takes
    them is the last one: a line search that ends with τ < τ_min leaves
    xₖ₊₁ = x̂ₖ, ψₖ₊₁ = ψx̂ₖ and ∇ψₖ₊₁ = ∇ψ(x̂ₖ). *)
Theorem linesearch_candidates :
  (forall k c nx (d : D) (a : PANOC.Anderson real_t QR),
     PANOC.τ (PANOC.linesearch_init env k c nx d a) =
       (if (k =? 0) || negb (allFinite (PANOC.qₖ c)) then r0 else r1) /\
     PANOC.ls_xhatₖ (PANOC.linesearch_init env k c nx d a) = PANOC.xhatₖ c /\
     PANOC.ls_grad_ψhatₖ (PANOC.linesearch_init env k c nx d a) =
       PANOC.grad_ψhatₖ c) /\
  (forall c l l',
     linesearch_pass c l = Ret l' ->
     PANOC.τ l' = rdiv (PANOC.τ l) r2 /\
     (rltb (rdiv (PANOC.τ l) r2) (PANOC.τ_min prm) = true ->
      PANOC.xₖ₁ (PANOC.ls_next l') = PANOC.ls_xhatₖ l /\
      PANOC.ψₖ₁ l' = PANOC.ψxhatₖ c /\
      PANOC.grad_ψₖ₁ (PANOC.ls_next l') = PANOC.ls_grad_ψhatₖ l) /\
     (rltb (rdiv (PANOC.τ l) r2) (PANOC.τ_min prm) = false ->
      PANOC.xₖ₁ (PANOC.ls_next l') =
        vadd (vadd (PANOC.xₖ c) (vscale (rsub r1 (PANOC.τ l)) (PANOC.pₖ c)))
             (vscale (PANOC.τ l) (PANOC.qₖ c)) /\
      PANOC.ψₖ₁ l' =
        fst (calc_ψ_grad_ψ problem (PANOC.xₖ₁ (PANOC.ls_next l')) y Σ) /\
      PANOC.grad_ψₖ₁ (PANOC.ls_next l') =
        snd (calc_ψ_grad_ψ problem (PANOC.xₖ₁ (PANOC.ls_next l')) y Σ))) /\
  (forall k st st',
     panoc_after_exit k st = Ret st' ->
     exists l,
       PANOC.linesearch_of slv env fuel problem Σ y k st = Ret l /\
       linesearch_failures (PANOC.s st') =
         (if rltb (PANOC.τ l) (PANOC.τ_min prm) && negb (k =? 0)
          then S (linesearch_failures (PANOC.s st))
          else linesearch_failures (PANOC.s st))) /\
  (RealLaws RO ->
   forall passes k c nx (d : D) (a : PANOC.Anderson real_t QR) l',
     PANOC.linesearch_loop slv fuel problem Σ y passes c
       (PANOC.linesearch_init env k c nx d a) = Ret l' ->
     exists l,
       linesearch_pass c l = Ret l' /\
       PANOC.ls_xhatₖ l = PANOC.xhatₖ c /\
       PANOC.ls_grad_ψhatₖ l = PANOC.grad_ψhatₖ c /\
       (rltb (PANOC.τ l') (PANOC.τ_min prm) = true ->
        PANOC.xₖ₁ (PANOC.ls_next l') = PANOC.xhatₖ c /\
        PANOC.ψₖ₁ l' = PANOC.ψxhatₖ c /\
        PANOC.grad_ψₖ₁ (PANOC.ls_next l') = PANOC.grad_ψhatₖ c)).
Proof.
  split; [|split; [|split]].
  - intros k c nx d a. cbn. unfold PANOC.linesearch_τ.
    destruct (k =? 0); [auto|]. destruct (allFinite (PANOC.qₖ c)); auto.
  - intros c l l' H. unfold PANOC.linesearch_pass in H.
    apply bind_Ret in H. destruct H as [q [_ H]]. injection H as <-. cbn.
    unfold PANOC.next_x, PANOC.next_ψ, PANOC.next_grad_ψ,
      PANOC.linesearch_failed.
    split; [reflexivity|].
    split; intros Hf; rewrite !Hf; repeat split;
      unfold PANOC.next_x, PANOC.linesearch_failed; now rewrite Hf.
  - intros k st st' H. apply after_exit_inv in H.
    destruct H as [l [Hl [_ [Hc _]]]]. exists l. split; [exact Hl|exact Hc].
  - intros laws passes k c nx d a l' H.
    apply (linesearch_loop_last slv fuel problem Σ y laws) in H;
      [|reflexivity|reflexivity].
    destruct H as [l [Hl [Hx Hg]]]. exists l.
    split; [exact Hl|]. split; [exact Hx|]. split; [exact Hg|].
    unfold PANOC.linesearch_pass in Hl. apply bind_Ret in Hl.
    destruct Hl as [q [_ Hl]]. injection Hl as <-. cbn.
    unfold PANOC.next_x, PANOC.next_ψ, PANOC.next_grad_ψ,
      PANOC.linesearch_failed.
    intros Hf. rewrite !Hf. now rewrite Hx, Hg.
Qed.

(** C6.  In a PANOC iteration [k ≥ 1] with Anderson acceleration on, the
    extrapolated point is accepted exactly when ψ at its projection is
    strictly below ψx̂ₖ; on acceptance x̂ₖ becomes the projected point, pₖ
    becomes x̂ₖ − xₖ, ψx̂ₖ becomes the new value, strictly below the old one,
    and ∇ψ(x̂ₖ) is computed from ŷₐₐ; on rejection the variables of the
    iteration, ψx̂ₖ among them, stay as they were. *)
Theorem anderson_acceptance :
  forall k c (a : PANOC.Anderson real_t QR) acc c' a',
    k <> 0 -> PANOC.anderson_acceleration prm <> 0 ->
    PANOC.anderson slv problem Σ y k c a = Ret (acc, c', a') ->
    exists a1,
      PANOC.anderson_extrapolate c a = Ret a1 /\
      let xₐₐ := project (PANOC.yₐₐₖ a1) (problem_C problem) in
      let ψₐₐ := fst (calc_ψ_yhat problem xₐₐ y Σ) in
      let yhatₐₐ := snd (calc_ψ_yhat problem xₐₐ y Σ) in
      acc = rltb ψₐₐ (PANOC.ψxhatₖ c) /\
      (acc = true ->
       PANOC.xhatₖ c' = xₐₐ /\
       PANOC.pₖ c' = vsub (PANOC.xhatₖ c') (PANOC.xₖ c') /\
       PANOC.xₖ c' = PANOC.xₖ c /\
       PANOC.ψxhatₖ c' = ψₐₐ /\
       PANOC.grad_ψhatₖ c' =
         calc_grad_ψ_from_yhat problem (PANOC.xhatₖ c') yhatₐₐ /\
       rltb (PANOC.ψxhatₖ c') (PANOC.ψxhatₖ c) = true) /\
      (acc = false -> c' = c).
Proof.
  intros k c a acc c' a' Hk Haa H. unfold PANOC.anderson in H.
  apply Nat.eqb_neq in Hk, Haa. rewrite Hk, Haa in H.
  apply bind_Ret in H. destruct H as [a1 [H1 H]]. exists a1.
  split; [exact H1|]. cbv zeta.
  unfold PANOC.anderson_decide, PANOC.anderson_candidate,
    PANOC.calc_ψ_yhat', PANOC.calc_grad_ψ_from_yhat' in H. cbv zeta in H.
  destruct (rltb _ (PANOC.ψxhatₖ c)) eqn:E in H; injection H as <- <- <-.
  - split; [now rewrite E|]. split; [|discriminate]. intros _. cbn.
    repeat split. exact E.
  - split; [now rewrite E|]. split; [discriminate|reflexivity].
Qed.

(** C7, as the code has it.  When the first estimate is not finite, a call
    returns with the status [NotFinite]; PANOC leaves [x], [y] and [err_z]
    as they were, whether [always_overwrite_results] is set or not, and PGA
    leaves [y] and [err_z] as they were. *)
Theorem not_finite_estimate_frame (laws : RealLaws RO) :
  (isfinite panoc_L = false ->
   exists r,
     panoc_solve = Ret r /\ status (PANOC.res_stats r) = NotFinite /\
     PANOC.res_out r = {| out_x := x; out_y := y; out_err_z := err_z |}) /\
  (isfinite pga_L = false ->
   exists r,
     pga_solve = Ret r /\ status (PGA.res_stats r) = NotFinite /\
     out_y (PGA.res_out r) = y /\ out_err_z (PGA.res_out r) = err_z).
Proof.
  split; intros HL.
  - destruct (panoc_estimate_cases slv problem Σ x y laws) as [_ [H2 _]].
    specialize (H2 HL).
    exists (PANOC.not_finite_return slv env problem x y err_z).
    unfold PANOC.solve. rewrite H2. repeat split.
  - destruct (pga_estimate_cases pga_prm problem Σ x y laws) as [_ [H2 _]].
    specialize (H2 HL).
    exists (PGA.not_finite_return pga_prm env x y err_z).
    unfold PGA.solve. rewrite H2. repeat split.
Qed.

(** X11.  What PGA leaves in [x] on that path, the return with the status
    [NotFinite] from a first estimate that is not finite: x₀ + h, the point
    at which it took the second gradient. *)
Lemma pga_not_finite_estimate_moves_x (laws : RealLaws RO) :
  isfinite pga_L = false ->
  exists r,
    pga_solve = Ret r /\ status (PGA.res_stats r) = NotFinite /\
    out_x (PGA.res_out r) = vadd x (PGA.h pga_prm x).
Proof.
  intros HL.
  destruct (pga_estimate_cases pga_prm problem Σ x y laws) as [_ [H2 _]].
  specialize (H2 HL).
  exists (PGA.not_finite_return pga_prm env x y err_z).
  unfold PGA.solve. rewrite H2. repeat split.
Qed.

(** C8.  In PANOC an iteration [k] that does not exit updates the counter
    only if it is positive or [k mod lbfgs_mem = 0]: to one more when xₖ
    and xₖ₊₁ are equal component by component, to zero otherwise; nothing
    else changes it, and the flag of the NoProgress exit is
    [no_progress > lbfgs_mem].  In PGA every iteration that does not exit
    updates the counter, comparing xₖ and x̂ₖ, before x̂ₖ becomes the next
    iterate, and the flag is [no_progress > 1].  In both, the flag makes
    the exit block fire. *)
Theorem no_progress_detection :
  (* PANOC *)
  ((forall k st st',
      panoc_after_exit k st = Ret st' ->
      PANOC.no_progress st' =
        if (0 <? PANOC.no_progress st) || (k mod PANOC.lbfgs_mem prm =? 0)
        then (if veqb (PANOC.xₖ (PANOC.cur st)) (PANOC.xₖ (PANOC.cur st'))
              then S (PANOC.no_progress st) else 0)
        else PANOC.no_progress st) /\
   (forall k st st1,
      panoc_before_exit k st = Ret st1 ->
      PANOC.no_progress st1 = PANOC.no_progress st /\
      PANOC.xₖ (PANOC.cur st1) = PANOC.xₖ (PANOC.cur st)) /\
   (forall k (st : PANOC.State real_t D QR),
      max_no_progress (panoc_flags k st) =
        (PANOC.lbfgs_mem prm <? PANOC.no_progress st) /\
      (max_no_progress (panoc_flags k st) = true ->
       exit (panoc_flags k st) = true))) /\
  (* PGA *)
  ((forall st : PGA.State real_t,
      PGA.no_progress (PGA.after_exit st) =
        (if veqb (PGA.xₖ st) (PGA.xhatₖ st)
         then S (PGA.no_progress st) else 0) /\
      PGA.xₖ (PGA.after_exit st) = PGA.xhatₖ st) /\
   (forall k st st1,
      pga_before_exit k st = Ret st1 ->
      PGA.no_progress st1 = PGA.no_progress st /\
      PGA.xₖ st1 = PGA.xₖ st /\
      PGA.xhatₖ st1 =
        fst (calc_xhat problem (PGA.γₖ st1) (PGA.xₖ st1) (PGA.grad_ψₖ st1))) /\
   (forall k st,
      max_no_progress (pga_flags k st) = (1 <? PGA.no_progress st) /\
      (max_no_progress (pga_flags k st) = true ->
       exit (pga_flags k st) = true))).
Proof.
  split; [split; [|split]|split; [|split]].
  - intros k st st' H. apply after_exit_inv in H.
    destruct H as [l [_ [Hx [_ Hnp]]]]. rewrite Hx.
    unfold PANOC.update_no_progress in Hnp.
    destruct (0 <? PANOC.no_progress st); [now injection Hnp as <-|].
    destruct (PANOC.lbfgs_mem prm =? 0); [discriminate|]. simpl.
    destruct (k mod PANOC.lbfgs_mem prm =? 0); now injection Hnp as <-.
  - intros k st st1 H.
    unfold PANOC.before_exit, PANOC.head, PANOC.quadratic_upper_bound in H.
    apply bind_Ret in H. destruct H as [st0 [H0 H]]. injection H as <-.
    apply bind_Ret in H0. destruct H0 as [c [Hq H0]]. injection H0 as <-.
    split; [reflexivity|]. cbn.
    destruct (PANOC.qub_at_head slv k).
    + apply bind_Ret in Hq. destruct Hq as [q [_ Hq]]. now injection Hq as <-.
    + now injection Hq as <-.
  - intros k st. split; [reflexivity|].
    unfold exit. intros ->. now rewrite !orb_true_r.
  - intros st. split; reflexivity.
  - intros k st st1 H. apply pga_before_exit_step in H. tauto.
  - intros k st. split; [reflexivity|].
    unfold exit. intros ->. now rewrite !orb_true_r.
Qed.

(** C9.  In a call that enters the main loop with the (clamped) estimate
    L₀, and whose [Lγ_factor] is not negative, the estimate never falls
    below L₀ and the step size never rises above γ₀ = Lγ_factor / L₀: at
    the stop test of every iteration, in everything reported to the
    progress callback, after any number of passes of a quadratic upper
    bound loop, and after every pass of the line search. *)
Theorem step_size_monotone (laws : RealLaws RO) :
  (* PANOC *)
  (forall L0,
     rleb r0 (PANOC.Lipschitz_Lγ_factor prm) = true ->
     panoc_estimate = Some L0 ->
     (forall k st,
        panoc_test_at 0 (panoc_initial L0) k st ->
        rleb L0 (PANOC.Lₖ (PANOC.cur st)) = true /\
        rleb (PANOC.γₖ (PANOC.cur st)) (PANOC.initial_γ slv L0) = true) /\
     (forall r info,
        panoc_solve = Ret r -> In (Progress info) (PANOC.res_trace r) ->
        rleb L0 (pi_L info) = true /\
        rleb (pi_γ info) (PANOC.initial_γ slv L0) = true) /\
     (forall xk g q i,
        bounded L0 (PANOC.initial_γ slv L0) (PANOC.qub_L q) (PANOC.qub_γ q) ->
        bounded L0 (PANOC.initial_γ slv L0)
          (PANOC.qub_L (Nat.iter i (PANOC.qub_body problem Σ y xk g) q))
          (PANOC.qub_γ (Nat.iter i (PANOC.qub_body problem Σ y xk g) q))) /\
     (forall c l l',
        bounded L0 (PANOC.initial_γ slv L0) (PANOC.Lₖ c) (PANOC.γₖ c) ->
        linesearch_pass c l = Ret l' ->
        bounded L0 (PANOC.initial_γ slv L0) (PANOC.Lₖ₁ l') (PANOC.γₖ₁ l'))) /\
  (* PGA *)
  (forall L0,
     rleb r0 (PGA.Lipschitz_Lγ_factor pga_prm) = true ->
     pga_estimate = Some L0 ->
     (forall k st,
        pga_test_at 0 (pga_initial L0) k st ->
        rleb L0 (PGA.Lₖ st) = true /\
        rleb (PGA.γₖ st) (PGA.initial_γ pga_prm L0) = true) /\
     (forall xk g q i,
        bounded L0 (PGA.initial_γ pga_prm L0) (PGA.st_L q) (PGA.st_γ q) ->
        bounded L0 (PGA.initial_γ pga_prm L0)
          (PGA.st_L (Nat.iter i (PGA.qub_body problem Σ y xk g) q))
          (PGA.st_γ (Nat.iter i (PGA.qub_body problem Σ y xk g) q)))).
Proof.
  split.
  - intros L0 HLγ HL.
    destruct (estimate_positive laws _ _ HL) as [Hp Hf].
    pose proof (initial_bounded laws _ _ HLγ Hp Hf) as Hb.
    fold (PANOC.initial_γ slv L0) in Hb.
    split; [|split; [|split]].
    + intros k st H.
      assert (Hs : bounded L0 (PANOC.initial_γ slv L0)
                (PANOC.Lₖ (PANOC.cur st)) (PANOC.γₖ (PANOC.cur st))).
      { eapply stop_test_at_bounded; eauto. }
      destruct Hs as [H1 [_ H2]]. now split.
    + intros r info H Hin.
      apply panoc_solve_cases in H.
      destruct H as [[H _]|[L [k [st [H1 [H2 [H3 ->]]]]]]]; [congruence|].
      assert (L = L0) by congruence. subst L. cbn in Hin.
      assert (Hs : bounded L0 (PANOC.initial_γ slv L0) (pi_L info) (pi_γ info)).
      { eapply stop_test_at_reported; eauto. intros i []. }
      destruct Hs as [Ha [_ Hc]]. now split.
    + intros xk g q i. now apply qub_iter_bounded.
    + intros c l l'. now apply linesearch_pass_bounded.
  - intros L0 HLγ HL.
    destruct (estimate_positive laws _ _ HL) as [Hp Hf].
    pose proof (initial_bounded laws _ _ HLγ Hp Hf) as Hb.
    fold (PGA.initial_γ pga_prm L0) in Hb.
    split.
    + intros k st H.
      assert (Hs : bounded L0 (PGA.initial_γ pga_prm L0) (PGA.Lₖ st) (PGA.γₖ st)).
      { eapply pga_stop_test_at_bounded; eauto. }
      destruct Hs as [H1 [_ H2]]. now split.
    + intros xk g q i. now apply pga_qub_iter_bounded.
Qed.

(** C10.  With [anderson_acceleration] = mₐₐ > 0 the Anderson storage a
    PANOC call works with has the depth min(mₐₐ, n), not mₐₐ: the history
    [Gₐₐ] has that many columns, of [n] rows each, the QR factorisation is
    resized to [n] rows and that many columns, and the coefficient vector
    [γₐₐ_LS] has that many components. *)
Theorem anderson_memory_depth (L0 : real_t) :
  PANOC.anderson_acceleration prm <> 0 ->
  let depth := Nat.min (PANOC.anderson_acceleration prm) (problem_n problem) in
  let a := PANOC.aa (panoc_initial L0) in
  mat_cols (PANOC.Gₐₐ a) = depth /\
  (forall col, In col (PANOC.Gₐₐ a) -> length col = problem_n problem) /\
  PANOC.qr a = qr_resize qr_default (problem_n problem) depth /\
  length (PANOC.γₐₐ_LS a) = depth.
Proof.
  intros Haa depth a. subst a depth. cbn. unfold PANOC.alloc_anderson.
  apply Nat.eqb_neq in Haa. rewrite Haa. cbn. unfold PANOC.mₐₐ.
  repeat split.
  - apply mat_cols_resize.
  - intros col. apply mat_rows_resize.
  - apply length_uninit.
Qed.

End Specification.

(** ** Runs on the machine's doubles *)

(** The runs start from the origin, with fuel for 64 passes of every inner
    loop. *)
Section Runs.

Local Abbreviation origin := ([r0; r0] : vec float).
Local Abbreviation plain := (demo_solver (RO:=binary64) 20 1000 false 0).
Local Abbreviation plain_pga := (demo_pga (RO:=binary64) 20 1000).
Local Abbreviation hurried := (demo_solver (RO:=binary64) 0 0 false 0).
Local Abbreviation capped := (demo_solver (RO:=binary64) 0 1000 false 0).
Local Abbreviation capped_pga := (demo_pga (RO:=binary64) 0 1000).
Local Abbreviation deep := (demo_solver (RO:=binary64) 20 1000 false 5).
(** A solver with the cautious step size γ = 1/(4L) and an Anderson memory
    of two. *)
Local Abbreviation cautious :=
  {| PANOC.params :=
       panoc_params (real_t:=float) (half_pow 20) (half_pow 40) (half_pow 2)
         (half_pow 8) (half_pow 33) 20 1000 false 2;
     PANOC.direction_provider := 0%nat;
     PANOC.progress_cb := true |}.
(** A stop is requested in the iteration [k = 2]. *)
Local Abbreviation stopped_late :=
  (surroundings (real_t:=float) (fun k => Z.of_nat (S k)) (Some 2)).
(** ψ(x) = 1/x₁ + 1/x₂ over the box that holds the one point (+0, −0),
    where ψ is +∞ − ∞. *)
Local Abbreviation split_pole :=
  (reciprocal (RO:=binary64) [r0; rneg r0] [r0; rneg r0]).
(** Solvers with [Lγ_factor = -1] that are allowed no iteration but the
    first, and 2²⁰, far from the pole. *)
Local Abbreviation negative :=
  {| PANOC.params :=
       panoc_params (real_t:=float) (half_pow 20) (half_pow 40) (rneg r1)
         (half_pow 8) (half_pow 33) 0 1000 false 0;
     PANOC.direction_provider := 0%nat;
     PANOC.progress_cb := true |}.
Local Abbreviation negative_pga :=
  (pga_params (real_t:=float) (half_pow 20) (half_pow 40) (rneg r1) 0 1000).
Local Abbreviation far_away := (rdiv r1 (half_pow 20) : float).

(** C1 on a PANOC and a PGA run to convergence on [bowl]. *)
Lemma exit_status_by_code_priority_witness :
  (exists L0 r,
     PANOC.lipschitz_estimate plain bowl [] origin [] = Some L0 /\
     PANOC.solve plain ticking 64 bowl [] tolerance false origin [] [] =
       Ret r /\
     exists k st,
       PANOC.stop_test_at plain ticking 64 bowl [] tolerance [] 0
         (PANOC.initial_state plain ticking bowl [] origin [] L0) k st /\
       exit (PANOC.flags_at plain ticking tolerance k st) = true /\
       iterations (PANOC.res_stats r) = k /\
       status (PANOC.res_stats r) =
         exit_status (PANOC.flags_at plain ticking tolerance k st) /\
       status_by_priority code_priority
         (PANOC.flags_at plain ticking tolerance k st) =
         Some (status (PANOC.res_stats r))) /\
  (exists L0 r,
     PGA.lipschitz_estimate plain_pga bowl [] origin [] = Some L0 /\
     PGA.solve plain_pga ticking 64 bowl [] tolerance origin [] [] = Ret r /\
     exists k st,
       PGA.stop_test_at plain_pga ticking 64 bowl [] tolerance [] 0
         (PGA.initial_state plain_pga ticking bowl [] origin [] L0) k st /\
       exit (PGA.flags_at plain_pga ticking tolerance k st) = true /\
       iterations (PGA.res_stats r) = k /\
       status (PGA.res_stats r) =
         exit_status (PGA.flags_at plain_pga ticking tolerance k st) /\
       status_by_priority code_priority
         (PGA.flags_at plain_pga ticking tolerance k st) =
         Some (status (PGA.res_stats r))).
Proof.
  split; eexists; eexists.
  - split; [vm_compute; reflexivity|].
    split; [vm_compute; reflexivity|].
    apply (proj1 (exit_status_by_code_priority plain plain_pga ticking 64
                    bowl [] tolerance false origin [] []));
      vm_compute; reflexivity.
  - split; [vm_compute; reflexivity|].
    split; [vm_compute; reflexivity|].
    apply (proj2 (exit_status_by_code_priority plain plain_pga ticking 64
                    bowl [] tolerance false origin [] []));
      vm_compute; reflexivity.
Defined.

(** C1 as the specification words it fails on two runs.  With [max_iter = 0]
    and [max_time = 0] PANOC's first stop test finds itself out of
    iterations and out of time, and the status is [MaxTime], where the
    order of the specification gives [MaxIter].  PGA, started at the
    minimiser of [bowl_in_box] with a tolerance of −1, has counted two
    iterations without progress when, in iteration 2, a stop is requested:
    the status is [NoProgress], where the order of the specification gives
    [Interrupted]. *)
Lemma exit_status_not_by_spec_priority :
  (exists L0 r st,
     PANOC.lipschitz_estimate hurried bowl_in_box [] origin [] = Some L0 /\
     PANOC.solve hurried ticking 64 bowl_in_box [] tolerance false origin []
       [] = Ret r /\
     PANOC.before_exit hurried 64 bowl_in_box [] [] 0
       (PANOC.initial_state hurried ticking bowl_in_box [] origin [] L0) =
       Ret st /\
     iterations (PANOC.res_stats r) = 0 /\
     out_of_iter (PANOC.flags_at hurried ticking tolerance 0 st) = true /\
     out_of_time (PANOC.flags_at hurried ticking tolerance 0 st) = true /\
     status (PANOC.res_stats r) = MaxTime /\
     status_by_priority spec_priority
       (PANOC.flags_at hurried ticking tolerance 0 st) = Some MaxIter) /\
  (exists L0 r st,
     PGA.lipschitz_estimate plain_pga bowl_in_box [] [r1; r1] [] = Some L0 /\
     PGA.solve plain_pga stopped_late 64 bowl_in_box [] (rneg r1) [r1; r1]
       [] [] = Ret r /\
     PGA.stop_test_at plain_pga stopped_late 64 bowl_in_box [] (rneg r1) []
       0 (PGA.initial_state plain_pga stopped_late bowl_in_box [] [r1; r1]
            [] L0) 2 st /\
     iterations (PGA.res_stats r) = 2 /\
     interrupted (PGA.flags_at plain_pga stopped_late (rneg r1) 2 st) = true /\
     max_no_progress (PGA.flags_at plain_pga stopped_late (rneg r1) 2 st) =
       true /\
     status (PGA.res_stats r) = NoProgress /\
     status_by_priority spec_priority
       (PGA.flags_at plain_pga stopped_late (rneg r1) 2 st) =
       Some Interrupted).
Proof.
  split; eexists; eexists; eexists.
  - split; [vm_compute; reflexivity|].
    split; [vm_compute; reflexivity|].
    split; [vm_compute; reflexivity|].
    repeat split.
  - split; [vm_compute; reflexivity|].
    split; [vm_compute; reflexivity|].
    split.
    + eapply PGA.stop_test_later; [vm_compute; reflexivity|reflexivity|].
      eapply PGA.stop_test_later; [vm_compute; reflexivity|reflexivity|].
      apply PGA.stop_test_now. vm_compute. reflexivity.
    + repeat split.
Defined.

(** C2 on a PANOC run that converges on [bowl_in_box], to the corner (1, 1)
    of the box, and on the PGA run on [bowl]. *)
Lemma outputs_written_on_exit_witness :
  (exists L0 r,
     PANOC.lipschitz_estimate plain bowl_in_box [] origin [] = Some L0 /\
     PANOC.solve plain ticking 64 bowl_in_box [] tolerance false origin []
       [] = Ret r /\
     status (PANOC.res_stats r) = Converged /\
     out_x (PANOC.res_out r) = [r1; r1] /\
     exists k st,
       PANOC.stop_test_at plain ticking 64 bowl_in_box [] tolerance [] 0
         (PANOC.initial_state plain ticking bowl_in_box [] origin [] L0)
         k st /\
       PANOC.res_out r =
         if conv (PANOC.flags_at plain ticking tolerance k st)
            || interrupted (PANOC.flags_at plain ticking tolerance k st)
            || false
         then {| out_x := PANOC.xhatₖ (PANOC.cur st);
                 out_y := PANOC.yhat_xhatₖ (PANOC.cur st);
                 out_err_z :=
                   calc_err_z bowl_in_box (PANOC.xhatₖ (PANOC.cur st)) [] [] |}
         else {| out_x := origin; out_y := []; out_err_z := [] |}) /\
  (exists L0 r,
     PGA.lipschitz_estimate plain_pga bowl [] origin [] = Some L0 /\
     PGA.solve plain_pga ticking 64 bowl [] tolerance origin [] [] = Ret r /\
     exists k st,
       PGA.stop_test_at plain_pga ticking 64 bowl [] tolerance [] 0
         (PGA.initial_state plain_pga ticking bowl [] origin [] L0) k st /\
       PGA.res_out r =
         {| out_x := PGA.xhatₖ st; out_y := PGA.yhatₖ st;
            out_err_z := calc_err_z bowl (PGA.xhatₖ st) [] [] |}).
Proof.
  split; eexists; eexists.
  - split; [vm_compute; reflexivity|].
    split; [vm_compute; reflexivity|].
    split; [reflexivity|]. split; [reflexivity|].
    edestruct (proj1 (outputs_written_on_exit plain plain_pga ticking 64
                        bowl_in_box [] tolerance false origin [] []))
      as [k [st [H1 [_ [_ [_ [_ [_ H2]]]]]]]];
      [vm_compute; reflexivity|vm_compute; reflexivity|].
    exists k, st. split; [exact H1|exact H2].
  - split; [vm_compute; reflexivity|].
    split; [vm_compute; reflexivity|].
    edestruct (proj2 (outputs_written_on_exit plain plain_pga ticking 64
                        bowl [] tolerance false origin [] []))
      as [k [st [H1 [_ [_ [_ H2]]]]]];
      [vm_compute; reflexivity|vm_compute; reflexivity|].
    exists k, st. split; [exact H1|exact H2].
Defined.

(** C2 as the specification words it fails on two runs that stop at the
    first test, out of iterations, with [always_overwrite_results] off (in
    PANOC; PGA has no such argument): both return [MaxIter], and both have
    replaced the [x] of the caller, the origin, by (1, 1).  In the PANOC
    run a stop had been requested. *)
Lemma outputs_written_without_flag_or_status :
  (exists r,
     PANOC.solve capped stopped 64 bowl_in_box [] tolerance false origin []
       [] = Ret r /\
     status (PANOC.res_stats r) = MaxIter /\
     out_x (PANOC.res_out r) = [r1; r1] /\
     veqb (out_x (PANOC.res_out r)) origin = false) /\
  (exists r,
     PGA.solve capped_pga ticking 64 bowl_in_box [] tolerance origin [] [] =
       Ret r /\
     status (PGA.res_stats r) = MaxIter /\
     out_x (PGA.res_out r) = [r1; r1] /\
     veqb (out_x (PGA.res_out r)) origin = false).
Proof.
  split; eexists; (split; [vm_compute; reflexivity|]); repeat split.
Defined.

(** C6 on an extrapolation that is accepted, in iteration 1 of the cautious
    solver on [bowl]: ψ at the projected gradient step falls. *)
Lemma anderson_acceptance_witness :
  exists L0 st1 st2 st3 c' a',
    PANOC.lipschitz_estimate cautious bowl [] origin [] = Some L0 /\
    PANOC.before_exit cautious 64 bowl [] [] 0
      (PANOC.initial_state cautious ticking bowl [] origin [] L0) = Ret st1 /\
    PANOC.after_exit cautious ticking 64 bowl [] [] 0 st1 = Ret st2 /\
    PANOC.before_exit cautious 64 bowl [] [] 1 st2 = Ret st3 /\
    PANOC.anderson cautious bowl [] [] 1
      (fst (PANOC.quasi_newton 1 (PANOC.cur st3) (PANOC.dp st3)))
      (PANOC.aa st3) = Ret (true, c', a') /\
    PANOC.pₖ c' = vsub (PANOC.xhatₖ c') (PANOC.xₖ c') /\
    PANOC.xₖ c' = PANOC.xₖ (PANOC.cur st3) /\
    rltb (PANOC.ψxhatₖ c') (PANOC.ψxhatₖ (PANOC.cur st3)) = true.
Proof.
  do 6 eexists.
  split; [vm_compute; reflexivity|].
  split; [vm_compute; reflexivity|].
  split; [vm_compute; reflexivity|].
  split; [vm_compute; reflexivity|].
  match goal with
  | |- ?P /\ _ => assert (Ha : P) by (vm_compute; reflexivity)
  end.
  split; [exact Ha|].
  assert (Hk : 1 <> 0) by lia.
  assert (Hm : PANOC.anderson_acceleration (PANOC.params cautious) <> 0)
    by (simpl; lia).
  destruct (anderson_acceptance cautious bowl [] [] 1 _ _ _ _ _ Hk Hm Ha)
    as [a1 [_ [_ [H _]]]].
  destruct (H eq_refl) as [_ [Hp [Hx [_ [_ Hψ]]]]].
  split; [exact Hp|]. split; [exact Hx|exact Hψ].
Defined.

(** C8 on the first iteration of the PANOC run on [bowl], and on the first
    iteration of PGA started at the minimiser of [bowl_in_box], where it
    does not move: the counter goes from 0 to 1, and a counter of 2 would
    make the next stop test fire. *)
Lemma no_progress_detection_witness :
  (exists L0 st1 st2,
     PANOC.lipschitz_estimate plain bowl [] origin [] = Some L0 /\
     PANOC.before_exit plain 64 bowl [] [] 0
       (PANOC.initial_state plain ticking bowl [] origin [] L0) = Ret st1 /\
     PANOC.after_exit plain ticking 64 bowl [] [] 0 st1 = Ret st2 /\
     PANOC.no_progress st2 =
       if (0 <? PANOC.no_progress st1)
          || (0 mod PANOC.lbfgs_mem (PANOC.params plain) =? 0)
       then (if veqb (PANOC.xₖ (PANOC.cur st1)) (PANOC.xₖ (PANOC.cur st2))
             then S (PANOC.no_progress st1) else 0)
       else PANOC.no_progress st1) /\
  (exists L0 st1,
     PGA.lipschitz_estimate plain_pga bowl_in_box [] [r1; r1] [] = Some L0 /\
     PGA.before_exit plain_pga 64 bowl_in_box [] [] 0
       (PGA.initial_state plain_pga ticking bowl_in_box [] [r1; r1] [] L0) =
       Ret st1 /\
     PGA.no_progress st1 = 0 /\
     veqb (PGA.xₖ st1) (PGA.xhatₖ st1) = true /\
     PGA.no_progress (PGA.after_exit st1) = 1 /\
     PGA.xₖ (PGA.after_exit st1) = PGA.xhatₖ st1 /\
     exit (PGA.flags_at plain_pga ticking (rneg r1) 1
             (PGA.after_exit (PGA.after_exit st1))) = true).
Proof.
  pose proof (no_progress_detection plain plain_pga ticking 64 bowl_in_box
                [] (rneg r1) []) as [_ [Hpga [_ Hexit]]].
  split.
  - do 3 eexists.
    split; [vm_compute; reflexivity|].
    split; [vm_compute; reflexivity|].
    split; [vm_compute; reflexivity|].
    apply (proj1 (proj1 (no_progress_detection plain plain_pga ticking 64
                           bowl [] tolerance []))).
    vm_compute. reflexivity.
  - do 2 eexists.
    split; [vm_compute; reflexivity|].
    split; [vm_compute; reflexivity|].
    split; [reflexivity|]. split; [reflexivity|].
    split; [exact (proj1 (Hpga _))|]. split; [exact (proj2 (Hpga _))|].
    apply (Hexit 1). reflexivity.
Defined.

(** C10 on [bowl], of dimension 2, with a requested memory of 5: the depth
    is 2. *)
Lemma anderson_memory_depth_witness :
  PANOC.anderson_acceleration (PANOC.params deep) = 5 /\
  problem_n (bowl (RO:=binary64)) = 2 /\
  mat_cols
    (PANOC.Gₐₐ (PANOC.aa (PANOC.initial_state deep ticking bowl [] origin
                            [] r1))) = 2 /\
  PANOC.qr (PANOC.aa (PANOC.initial_state deep ticking bowl [] origin [] r1)) =
    qr_resize qr_default 2 2 /\
  length
    (PANOC.γₐₐ_LS (PANOC.aa (PANOC.initial_state deep ticking bowl [] origin
                               [] r1))) = 2.
Proof.
  split; [reflexivity|]. split; [reflexivity|].
  destruct (anderson_memory_depth deep ticking bowl [] origin [] r1)
    as [H1 [_ [H2 H3]]].
  - simpl. lia.
  - split; [exact H1|]. split; [exact H2|exact H3].
Defined.

(** C4 as the specification words it fails on [split_pole] from (1, 1):
    the projected gradient step ends at (+0, −0), where ψ is a NaN; the loop
    condition is false of a NaN, so the loop at the head of iteration 0
    ends at once, and neither the bound nor the guard holds of what it
    leaves. *)
Lemma quadratic_upper_bound_not_after_nan :
  exists L0 c',
    PANOC.lipschitz_estimate plain split_pole [] [r1; r1] [] = Some L0 /\
    PANOC.qub_at_head plain 0 = true /\
    PANOC.quadratic_upper_bound plain 64 split_pole [] [] 0
      (PANOC.cur (PANOC.initial_state plain ticking split_pole [] [r1; r1]
                    [] L0)) = Ret c' /\
    PANOC.xhatₖ c' = [r0; rneg r0] /\
    is_nan (PANOC.ψxhatₖ c') = true /\
    rleb (rsub (PANOC.ψxhatₖ c') (PANOC.ψₖ c'))
      (radd (PANOC.grad_ψₖᵀpₖ c')
         (rmul (rmul r05 (PANOC.Lₖ c')) (PANOC.norm_sq_pₖ c'))) = false /\
    rleb (rabs (rdiv (PANOC.grad_ψₖᵀpₖ c') (PANOC.ψₖ c')))
      (PANOC.quadratic_upperbound_threshold (PANOC.params plain)) = false /\
    ~ (rleb (rsub (PANOC.ψxhatₖ c') (PANOC.ψₖ c'))
         (radd (PANOC.grad_ψₖᵀpₖ c')
            (rmul (rmul r05 (PANOC.Lₖ c')) (PANOC.norm_sq_pₖ c'))) = true \/
       rleb (rabs (rdiv (PANOC.grad_ψₖᵀpₖ c') (PANOC.ψₖ c')))
         (PANOC.quadratic_upperbound_threshold (PANOC.params plain)) = true).
Proof.
  do 2 eexists.
  split; [vm_compute; reflexivity|]. split; [reflexivity|].
  split; [vm_compute; reflexivity|]. split; [vm_compute; reflexivity|].
  split; [vm_compute; reflexivity|].
  match goal with
  | |- ?P /\ ?Q /\ _ =>
      assert (H1 : P) by (vm_compute; reflexivity);
      assert (H2 : Q) by (vm_compute; reflexivity)
  end.
  split; [exact H1|]. split; [exact H2|].
  intros [H|H]; [rewrite H1 in H|rewrite H2 in H]; discriminate H.
Qed.

(** C9 as the specification words it fails with [Lγ_factor = -1] on [pole]
    from 2²⁰: the first estimate is machine epsilon and γ₀ = −2⁵²; the loop at
    the head of iteration 0 halves γ thirteen times, to −2³⁹, which is
    above γ₀. *)
Lemma step_size_not_monotone_for_negative_factor :
  (exists L0 r info,
     PANOC.lipschitz_estimate negative pole [] [far_away] [] = Some L0 /\
     PANOC.solve negative ticking 64 pole [] tolerance false [far_away] []
       [] = Ret r /\
     In (Progress info) (PANOC.res_trace r) /\
     rltb (PANOC.initial_γ negative L0) (pi_γ info) = true /\
     rleb (pi_γ info) (PANOC.initial_γ negative L0) = false) /\
  (exists L0 st,
     PGA.lipschitz_estimate negative_pga pole [] [far_away] [] = Some L0 /\
     PGA.stop_test_at negative_pga ticking 64 pole [] tolerance [] 0
       (PGA.initial_state negative_pga ticking pole [] [far_away] [] L0)
       0 st /\
     rltb (PGA.initial_γ negative_pga L0) (PGA.γₖ st) = true /\
     rleb (PGA.γₖ st) (PGA.initial_γ negative_pga L0) = false).
Proof.
  split.
  - do 3 eexists.
    split; [vm_compute; reflexivity|]. split; [vm_compute; reflexivity|].
    split; [left; reflexivity|]. split; vm_compute; reflexivity.
  - do 2 eexists.
    split; [vm_compute; reflexivity|].
    split; [apply PGA.stop_test_now; vm_compute; reflexivity|].
    split; vm_compute; reflexivity.
Qed.

End Runs.

(** ** Runs on the exact numbers *)

Section ExactRuns.

Local Abbreviation start := ([r0; r0] : vec xreal).
Local Abbreviation exact := (demo_solver (RO:=xreal_ops) 20 1000 false 0).
Local Abbreviation exact_pga := (demo_pga (RO:=xreal_ops) 20 1000).
Local Abbreviation searching := (demo_solver (RO:=xreal_ops) 20 1000 true 0).
(** 2²⁰, far from the pole. *)
Local Abbreviation far := (rdiv r1 (half_pow 20) : xreal).
(** Solvers with ε_L = −2⁻²⁰. *)
Local Abbreviation backward :=
  {| PANOC.params :=
       panoc_params (real_t:=xreal) (rneg (half_pow 20)) (half_pow 40)
         (rsub r1 (half_pow 4)) (half_pow 8) (half_pow 33) 20 1000 false 0;
     PANOC.direction_provider := 0%nat;
     PANOC.progress_cb := true |}.
Local Abbreviation backward_pga :=
  (pga_params (real_t:=xreal) (rneg (half_pow 20)) (half_pow 40)
     (rsub r1 (half_pow 4)) 20 1000).

(** C3 on three estimates: 1 for [bowl], which is kept; one below machine
    epsilon for [pole] far from zero, which is raised, from a perturbation
    of |2²⁰|·2⁻²⁰ = 1; and +∞ for [pole] at zero. *)
Lemma initial_lipschitz_estimate_witness :
  (PANOC.initial_lipschitz exact bowl [] start [] = r1 /\
   PANOC.lipschitz_estimate exact bowl [] start [] = Some r1 /\
   PGA.initial_lipschitz exact_pga bowl [] start [] = r1 /\
   PGA.lipschitz_estimate exact_pga bowl [] start [] = Some r1) /\
  (rltb (PANOC.initial_lipschitz exact pole [] [far] []) epsilon = true /\
   PANOC.lipschitz_estimate exact pole [] [far] [] = Some epsilon /\
   PGA.lipschitz_estimate exact_pga pole [] [far] [] = Some epsilon /\
   PANOC.h exact [far] =
     map (fun xi => rmax (rmul (rabs xi) (half_pow 20)) (half_pow 40))
       [far] /\
   PGA.h exact_pga [far] =
     map (fun xi => rmax (rmul (rabs xi) (half_pow 20)) (half_pow 40))
       [far] /\
   PANOC.h exact [far] = [r1]) /\
  (PANOC.initial_lipschitz exact pole [] [r0] [] = inf /\
   (exists r,
      PANOC.solve exact ticking 64 pole [] tolerance false [r0] [] [] =
        Ret r /\
      status (PANOC.res_stats r) = NotFinite /\
      iterations (PANOC.res_stats r) = 0 /\ PANOC.res_trace r = []) /\
   (exists r,
      PGA.solve exact_pga ticking 64 pole [] tolerance [r0] [] [] = Ret r /\
      status (PGA.res_stats r) = NotFinite /\
      iterations (PGA.res_stats r) = 0 /\ PGA.res_trace r = [])).
Proof.
  split; [|split].
  - destruct (initial_lipschitz_estimate exact exact_pga ticking 64 bowl []
                tolerance false start [] [] xreal_laws)
      as [[_ [_ [_ [_ H1]]]] [_ [_ [_ [_ H2]]]]].
    split; [vm_compute; reflexivity|].
    split; [apply H1; vm_compute; reflexivity|].
    split; [vm_compute; reflexivity|].
    apply H2; vm_compute; reflexivity.
  - destruct (initial_lipschitz_estimate exact exact_pga ticking 64 pole []
                tolerance false [far] [] [] xreal_laws)
      as [[[_ Hh1] [_ [H1 _]]] [[_ Hh2] [_ [H2 _]]]].
    split; [vm_compute; reflexivity|].
    split; [apply H1; vm_compute; reflexivity|].
    split; [apply H2; vm_compute; reflexivity|].
    split; [apply Hh1; vm_compute; reflexivity|].
    split; [apply Hh2; vm_compute; reflexivity|].
    vm_compute; reflexivity.
  - destruct (initial_lipschitz_estimate exact exact_pga ticking 64 pole []
                tolerance false [r0] [] [] xreal_laws)
      as [[_ [_ [_ [H1 _]]]] [_ [_ [_ [H2 _]]]]].
    split; [vm_compute; reflexivity|].
    split; [apply H1|apply H2]; vm_compute; reflexivity.
Defined.

(** C3 as the specification words it fails with ε_L = −2⁻²⁰ at x₀ = (1):
    the code perturbs by |1·ε_L| = 2⁻²⁰, where max(|x₀|·ε_L, δ_L) is
    δ_L = 2⁻⁴⁰, and for [pole] the estimate taken with that perturbation is
    not the one the code takes. *)
Lemma initial_lipschitz_estimate_not_by_spec_perturbation :
  PANOC.h backward [r1] = [half_pow 20] /\
  PGA.h backward_pga [r1] = [half_pow 20] /\
  map (fun xi => rmax (rmul (rabs xi)
                         (PANOC.Lipschitz_ε (PANOC.params backward)))
                   (PANOC.Lipschitz_δ (PANOC.params backward))) [r1] =
    [half_pow 40] /\
  map (fun xi => rmax (rmul (rabs xi) (PGA.Lipschitz_ε backward_pga))
                   (PGA.Lipschitz_δ backward_pga)) [r1] = [half_pow 40] /\
  rltb (half_pow 40) (half_pow 20) = true /\
  rltb (PANOC.initial_lipschitz backward pole [] [r1] [])
    (rdiv (norm (vsub (calc_grad_ψ pole (vadd [r1] [half_pow 40]) [] [])
                   (snd (calc_ψ_grad_ψ pole [r1] [] []))))
       (norm [half_pow 40])) = true /\
  rltb (PGA.initial_lipschitz backward_pga pole [] [r1] [])
    (rdiv (norm (vsub (calc_grad_ψ pole (vadd [r1] [half_pow 40]) [] [])
                   (snd (calc_ψ_grad_ψ pole [r1] [] []))))
       (norm [half_pow 40])) = true.
Proof.
  repeat split; vm_compute; reflexivity.
Qed.

(** C4 on [bowl], from an estimate of 1/4, four times too small: the loop
    at the head of iteration 0 raises it until the bound holds; and on the
    first pass of the line search when the loop runs there. *)
Lemma quadratic_upper_bound_after_loop_witness :
  (exists c',
     PANOC.quadratic_upper_bound exact 64 bowl [] [] 0
       (PANOC.cur (PANOC.initial_state exact ticking bowl [] start []
                     (half_pow 2))) = Ret c' /\
     PANOC.Lₖ c' = r1 /\
     PANOC.coherent bowl [] [] c' /\
     (rleb (rsub (PANOC.ψxhatₖ c') (PANOC.ψₖ c'))
        (radd (PANOC.grad_ψₖᵀpₖ c')
           (rmul (rmul r05 (PANOC.Lₖ c')) (PANOC.norm_sq_pₖ c'))) = true \/
      rleb (rabs (rdiv (PANOC.grad_ψₖᵀpₖ c') (PANOC.ψₖ c')))
        (PANOC.quadratic_upperbound_threshold (PANOC.params exact)) = true)) /\
  (exists st1 l',
     PANOC.before_exit searching 64 bowl [] [] 0
       (PANOC.initial_state searching ticking bowl [] start [] (half_pow 2)) =
       Ret st1 /\
     PANOC.linesearch_pass searching 64 bowl [] [] (PANOC.cur st1)
       (PANOC.linesearch_init ticking 0 (PANOC.cur st1) (PANOC.next st1)
          (PANOC.dp st1) (PANOC.aa st1)) = Ret l' /\
     (rleb (rsub (PANOC.ψxhatₖ₁ l') (PANOC.ψₖ₁ l'))
        (radd (PANOC.grad_ψₖ₁ᵀpₖ₁ l')
           (rmul (rmul r05 (PANOC.Lₖ₁ l')) (PANOC.norm_sq_pₖ₁ l'))) = true \/
      rleb (rabs (rdiv (PANOC.grad_ψₖ₁ᵀpₖ₁ l') (PANOC.ψₖ₁ l')))
        (PANOC.quadratic_upperbound_threshold (PANOC.params searching)) =
        true)).
Proof.
  split.
  - eexists.
    match goal with
    | |- ?P /\ _ => assert (Hq : P) by (vm_compute; reflexivity)
    end.
    split; [exact Hq|]. split; [reflexivity|].
    destruct (proj1 (quadratic_upper_bound_after_loop exact 64 bowl [] []
                       xreal_laws) 0 _ _ eq_refl Hq) as [Hc [_ Hb]].
    split.
    + apply Hc. repeat split.
    + apply Hb. repeat split.
  - do 2 eexists.
    split; [vm_compute; reflexivity|].
    match goal with
    | |- ?P /\ _ => assert (Hl : P) by (vm_compute; reflexivity)
    end.
    split; [exact Hl|].
    destruct (proj2 (quadratic_upper_bound_after_loop searching 64 bowl []
                       [] xreal_laws) _ _ _ eq_refl Hl) as [_ [_ Hb]].
    apply Hb. repeat split.
Defined.

(** C5 on the first two iterations of the PANOC run on [bowl].  In
    iteration 0 the line search starts from τ = 0, its one pass takes the
    projected gradient step, and no failure is counted.  In iteration 1 it
    starts from τ = 1, its pass halves τ and takes
    xₖ + (1 − τ)·pₖ + τ·qₖ, and no failure is counted, since it ends with
    τ = 1/2. *)
Lemma linesearch_candidates_witness :
  (exists L0 st1 st2 l,
    PANOC.lipschitz_estimate exact bowl [] start [] = Some L0 /\
    PANOC.before_exit exact 64 bowl [] [] 0
      (PANOC.initial_state exact ticking bowl [] start [] L0) = Ret st1 /\
    PANOC.after_exit exact ticking 64 bowl [] [] 0 st1 = Ret st2 /\
    PANOC.linesearch_loop exact 64 bowl [] [] 64 (PANOC.cur st1)
      (PANOC.linesearch_init ticking 0 (PANOC.cur st1) (PANOC.next st1)
         (PANOC.dp st1) (PANOC.aa st1)) = Ret l /\
    PANOC.linesearch_pass exact 64 bowl [] [] (PANOC.cur st1)
      (PANOC.linesearch_init ticking 0 (PANOC.cur st1) (PANOC.next st1)
         (PANOC.dp st1) (PANOC.aa st1)) = Ret l /\
    (PANOC.τ (PANOC.linesearch_init ticking 0 (PANOC.cur st1)
                (PANOC.next st1) (PANOC.dp st1) (PANOC.aa st1)) = r0 /\
     PANOC.τ l = rdiv r0 r2) /\
    (PANOC.xₖ₁ (PANOC.ls_next l) = PANOC.xhatₖ (PANOC.cur st1) /\
     PANOC.ψₖ₁ l = PANOC.ψxhatₖ (PANOC.cur st1) /\
     PANOC.grad_ψₖ₁ (PANOC.ls_next l) = PANOC.grad_ψhatₖ (PANOC.cur st1)) /\
    exists l',
      PANOC.linesearch_of exact ticking 64 bowl [] [] 0 st1 = Ret l' /\
      linesearch_failures (PANOC.s st2) =
        if rltb (PANOC.τ l') (PANOC.τ_min (PANOC.params exact))
           && negb (0 =? 0)
        then S (linesearch_failures (PANOC.s st1))
        else linesearch_failures (PANOC.s st1)) /\
  (exists L0 st1 st2 st3 st4 l,
     PANOC.lipschitz_estimate exact bowl [] start [] = Some L0 /\
     PANOC.before_exit exact 64 bowl [] [] 0
       (PANOC.initial_state exact ticking bowl [] start [] L0) = Ret st1 /\
     PANOC.after_exit exact ticking 64 bowl [] [] 0 st1 = Ret st2 /\
     PANOC.before_exit exact 64 bowl [] [] 1 st2 = Ret st3 /\
     PANOC.after_exit exact ticking 64 bowl [] [] 1 st3 = Ret st4 /\
     PANOC.linesearch_pass exact 64 bowl [] []
       (fst (PANOC.quasi_newton 1 (PANOC.cur st3) (PANOC.dp st3)))
       (PANOC.linesearch_init ticking 1
          (fst (PANOC.quasi_newton 1 (PANOC.cur st3) (PANOC.dp st3)))
          (PANOC.next st3)
          (snd (PANOC.quasi_newton 1 (PANOC.cur st3) (PANOC.dp st3)))
          (PANOC.aa st3)) = Ret l /\
     PANOC.τ
       (PANOC.linesearch_init ticking 1
          (fst (PANOC.quasi_newton 1 (PANOC.cur st3) (PANOC.dp st3)))
          (PANOC.next st3)
          (snd (PANOC.quasi_newton 1 (PANOC.cur st3) (PANOC.dp st3)))
          (PANOC.aa st3)) = r1 /\
     PANOC.τ l = rdiv r1 r2 /\
     PANOC.xₖ₁ (PANOC.ls_next l) =
       vadd (vadd (PANOC.xₖ (PANOC.cur st3))
               (vscale (rsub r1 r1) (PANOC.pₖ (PANOC.cur st3))))
         (vscale r1
            (PANOC.qₖ
               (fst (PANOC.quasi_newton 1 (PANOC.cur st3) (PANOC.dp st3))))) /\
     exists l',
       PANOC.linesearch_of exact ticking 64 bowl [] [] 1 st3 = Ret l' /\
       PANOC.τ l' = rdiv r1 r2 /\
       linesearch_failures (PANOC.s st4) =
         if rltb (PANOC.τ l') (PANOC.τ_min (PANOC.params exact))
            && negb (1 =? 0)
         then S (linesearch_failures (PANOC.s st3))
         else linesearch_failures (PANOC.s st3)).
Proof.
  pose proof (linesearch_candidates exact ticking 64 bowl [] [])
    as [Hinit [Hpass [Hcount Hlast]]].
  split.
  - do 4 eexists.
    split; [vm_compute; reflexivity|].
    split; [vm_compute; reflexivity|].
    split; [vm_compute; reflexivity|].
    match goal with
    | |- ?P /\ _ => assert (Hloop : P) by (vm_compute; reflexivity)
    end.
    split; [exact Hloop|].
    match goal with
    | |- ?P /\ _ => assert (Hl : P) by (vm_compute; reflexivity)
    end.
    split; [exact Hl|].
    split; [|split].
    + split; [exact (proj1 (Hinit 0 _ _ _ _))|].
      exact (proj1 (Hpass _ _ _ Hl)).
    + destruct (Hlast xreal_laws _ _ _ _ _ _ _ Hloop) as [l0 [_ [_ [_ H]]]].
      apply H. vm_compute. reflexivity.
    + apply Hcount. vm_compute. reflexivity.
  - do 6 eexists.
    split; [vm_compute; reflexivity|].
    split; [vm_compute; reflexivity|].
    split; [vm_compute; reflexivity|].
    split; [vm_compute; reflexivity|].
    match goal with
    | |- ?P /\ ?Q /\ _ =>
        assert (Ha : P) by (vm_compute; reflexivity);
        assert (Hl : Q) by (vm_compute; reflexivity)
    end.
    split; [exact Ha|]. split; [exact Hl|].
    destruct (Hpass _ _ _ Hl) as [Hτ [_ Hstep]].
    match goal with
    | |- ?P /\ _ =>
        assert (H1 : P)
          by (rewrite (proj1 (Hinit 1 _ _ _ _)); vm_compute; reflexivity)
    end.
    split; [exact H1|]. rewrite H1 in Hτ, Hstep.
    split; [exact Hτ|]. split.
    + destruct Hstep as [Hx _]; [vm_compute; reflexivity|]. exact Hx.
    + destruct (Hcount 1 _ _ Ha) as [l' [Hl' Hf]].
      exists l'. split; [exact Hl'|]. split; [|exact Hf].
      assert (Hc : PANOC.linesearch_of exact ticking 64 bowl [] [] 1 _ =
                     Ret l') by exact Hl'.
      vm_compute in Hc. injection Hc as <-. vm_compute. reflexivity.
Defined.

(** C7 on [pole] at zero, with [always_overwrite_results] set and an
    [err_z] of 1. *)
Lemma not_finite_estimate_frame_witness :
  isfinite (PANOC.initial_lipschitz exact pole [] [r0] []) = false /\
  (exists r,
     PANOC.solve exact ticking 64 pole [] tolerance true [r0] [] [r1] =
       Ret r /\
     status (PANOC.res_stats r) = NotFinite /\
     PANOC.res_out r = {| out_x := [r0]; out_y := []; out_err_z := [r1] |}) /\
  (exists r,
     PGA.solve exact_pga ticking 64 pole [] tolerance [r0] [] [r1] = Ret r /\
     status (PGA.res_stats r) = NotFinite /\
     out_y (PGA.res_out r) = [] /\ out_err_z (PGA.res_out r) = [r1]).
Proof.
  split; [vm_compute; reflexivity|].
  destruct (not_finite_estimate_frame exact exact_pga ticking 64 pole []
              tolerance true [r0] [] [r1] xreal_laws) as [H1 H2].
  split; [apply H1|apply H2]; vm_compute; reflexivity.
Defined.

(** C7 as the specification words it fails on that PANOC call, on the
    doubles as on the exact numbers: [always_overwrite_results] is set, and
    yet [err_z] is returned as it was given, when writing the outputs would
    have emptied it ([bowl] and [pole] have no constraints). *)
Lemma not_finite_estimate_ignores_overwrite_flag :
  (exists r,
     PANOC.solve (demo_solver (RO:=binary64) 20 1000 false 0) ticking 64
       pole [] tolerance true [r0] [] [r1] = Ret r /\
     status (PANOC.res_stats r) = NotFinite /\
     PANOC.res_out r = {| out_x := [r0]; out_y := []; out_err_z := [r1] |}) /\
  (exists r,
     PANOC.solve exact ticking 64 pole [] tolerance true [r0] [] [r1] =
       Ret r /\
     status (PANOC.res_stats r) = NotFinite /\
     PANOC.res_out r = {| out_x := [r0]; out_y := []; out_err_z := [r1] |}) /\
  (forall xhat : vec xreal, calc_err_z pole xhat [] [] = []).
Proof.
  split; [|split].
  - eexists. split; [vm_compute; reflexivity|]. split; reflexivity.
  - eexists. split; [vm_compute; reflexivity|]. split; reflexivity.
  - reflexivity.
Defined.

(** What PGA leaves in [x] on that path, on [pole] at zero: h = (2⁻⁴⁰). *)
Lemma pga_not_finite_estimate_moves_x_witness :
  exists r,
    PGA.solve exact_pga ticking 64 pole [] tolerance [r0] [] [r1] = Ret r /\
    status (PGA.res_stats r) = NotFinite /\
    out_x (PGA.res_out r) = [half_pow 40].
Proof.
  destruct (pga_not_finite_estimate_moves_x exact_pga ticking 64 pole []
              tolerance [r0] [] [r1] xreal_laws) as [r [H1 [H2 H3]]].
  - vm_compute. reflexivity.
  - exists r. split; [exact H1|]. split; [exact H2|].
    rewrite H3. vm_compute. reflexivity.
Defined.

(** C9 on the runs of both solvers on [pole] from 2²⁰, where the first
    estimate, machine epsilon, is doubled thirteen times, and the step size
    halved as often, in iteration 0: whatever PANOC reports to the
    callback, and whatever state PGA tests, has an estimate of at least L₀
    and a step size of at most γ₀. *)
Lemma step_size_monotone_witness :
  rleb r0 (PANOC.Lipschitz_Lγ_factor (PANOC.params exact)) = true /\
  (exists L0 r,
     PANOC.lipschitz_estimate exact pole [] [far] [] = Some L0 /\
     PANOC.solve exact ticking 64 pole [] tolerance false [far] [] [] =
       Ret r /\
     (exists info,
        In (Progress info) (PANOC.res_trace r) /\
        pi_L info = doubled 13 L0 /\
        pi_γ info = halved 13 (PANOC.initial_γ exact L0) /\
        rltb L0 (pi_L info) = true /\
        rltb (pi_γ info) (PANOC.initial_γ exact L0) = true) /\
     forall info,
       In (Progress info) (PANOC.res_trace r) ->
       rleb L0 (pi_L info) = true /\
       rleb (pi_γ info) (PANOC.initial_γ exact L0) = true) /\
  (exists L0 st0,
     PGA.lipschitz_estimate exact_pga pole [] [far] [] = Some L0 /\
     PGA.before_exit exact_pga 64 pole [] [] 0
       (PGA.initial_state exact_pga ticking pole [] [far] [] L0) = Ret st0 /\
     PGA.Lₖ st0 = doubled 13 L0 /\
     PGA.γₖ st0 = halved 13 (PGA.initial_γ exact_pga L0) /\
     forall k st,
       PGA.stop_test_at exact_pga ticking 64 pole [] tolerance [] 0
         (PGA.initial_state exact_pga ticking pole [] [far] [] L0) k st ->
       rleb L0 (PGA.Lₖ st) = true /\
       rleb (PGA.γₖ st) (PGA.initial_γ exact_pga L0) = true).
Proof.
  pose proof (step_size_monotone exact exact_pga ticking 64 pole [] tolerance
                false [far] [] [] xreal_laws) as [Hpanoc Hpga].
  split; [vm_compute; reflexivity|]. split.
  - do 2 eexists.
    match goal with
    | |- ?P /\ _ => assert (HL : P) by (vm_compute; reflexivity)
    end.
    split; [exact HL|].
    match goal with
    | |- ?P /\ _ => assert (Hr : P) by (vm_compute; reflexivity)
    end.
    split; [exact Hr|]. split.
    + eexists. split; [left; reflexivity|].
      repeat split; vm_compute; reflexivity.
    + intros info Hin.
      destruct (Hpanoc _ ltac:(vm_compute; reflexivity) HL) as [_ [H _]].
      exact (H _ info Hr Hin).
  - do 2 eexists.
    match goal with
    | |- ?P /\ _ => assert (HL : P) by (vm_compute; reflexivity)
    end.
    split; [exact HL|].
    split; [vm_compute; reflexivity|].
    split; [vm_compute; reflexivity|].
    split; [vm_compute; reflexivity|].
    exact (proj1 (Hpga _ ltac:(vm_compute; reflexivity) HL)).
Defined.

End ExactRuns.


(** * Further properties of the two solvers *)

(** ** Outcomes that are not an exception *)

Lemma bind_not_Throws {A B : Type} (m : outcome A) (f : A -> outcome B) :
  m <> Throws -> (forall a, f a <> Throws) -> bind m f <> Throws.
Proof. destruct m; simpl; auto; intros; discriminate. Qed.

Lemma set_col_not_Throws {real_t : Type} (M : mat real_t) i v :
  set_col M i v <> Throws.
Proof. unfold set_col. destruct (i <? length M); discriminate. Qed.

Lemma get_col_not_Throws {real_t : Type} (M : mat real_t) i :
  get_col M i <> Throws.
Proof. unfold get_col. destruct (nth_error M i); discriminate. Qed.

(** ** Doubling and halving *)

Lemma doubled_add {real_t : Type} {RO : RealOps real_t} i j (a : real_t) :
  doubled i (doubled j a) = doubled (i + j) a.
Proof. unfold doubled. now rewrite Nat.iter_add. Qed.

Lemma halved_add {real_t : Type} {RO : RealOps real_t} i j (a : real_t) :
  halved i (halved j a) = halved (i + j) a.
Proof. unfold halved. now rewrite Nat.iter_add. Qed.

(** ** The perturbation of the first estimate *)

Lemma rmax_at_least {real_t : Type} {RO : RealOps real_t} (laws : RealLaws RO)
    (a δ : real_t) :
  isfinite δ = true -> is_nan a = false -> rleb δ (rmax a δ) = true.
Proof.
  intros Hδ Ha. unfold rmax. destruct (rltb a δ) eqn:E.
  - now apply (leb_refl laws).
  - apply (not_ltb_leb laws); [now apply (finite_not_nan laws)|exact Ha|exact E].
Qed.

Lemma cwise_h_at_least {real_t : Type} {RO : RealOps real_t}
    (laws : RealLaws RO) (x : vec real_t) (ε_L δ : real_t) :
  isfinite δ = true ->
  (forall xi, In xi x -> is_nan (rabs (rmul xi ε_L)) = false) ->
  length (cwiseMax (cwiseAbs (vscale_r x ε_L)) δ) = length x /\
  (forall hi, In hi (cwiseMax (cwiseAbs (vscale_r x ε_L)) δ) ->
              rleb δ hi = true).
Proof.
  intros Hδ Hx. unfold cwiseMax, cwiseAbs, vscale_r. split.
  - now rewrite !length_map.
  - intros hi Hin. rewrite !map_map in Hin. apply in_map_iff in Hin.
    destruct Hin as [xi [<- Hin]]. apply (rmax_at_least laws); auto.
Qed.

(** ** The status names a flag that is set *)

Lemma exit_status_sound (f : ExitFlags) :
  exit f = true ->
  match exit_status f with
  | Unknown => False
  | Converged => conv f = true
  | MaxTime => out_of_time f = true
  | MaxIter => out_of_iter f = true
  | NotFinite => not_finite f = true
  | NoProgress => max_no_progress f = true
  | Interrupted => interrupted f = true
  end.
Proof.
  unfold exit, exit_status.
  destruct (conv f), (out_of_time f), (out_of_iter f), (not_finite f),
    (max_no_progress f), (interrupted f); simpl; auto.
Qed.


(** ** More on the runs of the PANOC solver *)

Section PANOC_more.
Context {real_t : Type} {RO : RealOps real_t}.
Context {Problem Box : Type} {HP : Helpers real_t Problem Box}.
Context {D : Type} {DIR : PANOCDirection real_t Box D}.
Context {QR : Type} {LMQR : LimitedMemoryQR real_t QR}.
Variable slv : PANOC.Solver real_t D.
Variable env : Env real_t.
Variable fuel : nat.
Variable problem : Problem.
Variable Σ : vec real_t.
Variable ε : real_t.
Variable always_overwrite_results : bool.
Variable x : vec real_t.
Variable y : vec real_t.
Variable err_z : vec real_t.

Local Abbreviation prm := (PANOC.params slv).
Local Abbreviation before_exit := (PANOC.before_exit slv fuel problem Σ y).
Local Abbreviation after_exit := (PANOC.after_exit slv env fuel problem Σ y).
Local Abbreviation flags_at := (PANOC.flags_at slv env ε).
Local Abbreviation exit_block :=
  (PANOC.exit_block env problem Σ always_overwrite_results x y err_z).
Local Abbreviation main_loop :=
  (PANOC.main_loop slv env fuel problem Σ ε always_overwrite_results x y err_z).
Local Abbreviation stop_test_at := (PANOC.stop_test_at slv env fuel problem Σ ε y).
Local Abbreviation qub_loop := (PANOC.qub_loop slv problem Σ y).
Local Abbreviation qub_body := (PANOC.qub_body problem Σ y).
Local Abbreviation linesearch_pass := (PANOC.linesearch_pass slv fuel problem Σ y).
Local Abbreviation linesearch_loop := (PANOC.linesearch_loop slv fuel problem Σ y).
Local Abbreviation initial_state := (PANOC.initial_state slv env problem Σ x y).
Local Abbreviation solve :=
  (PANOC.solve slv env fuel problem Σ ε always_overwrite_results x y err_z).
Local Abbreviation estimate := (PANOC.lipschitz_estimate slv problem Σ x y).

(** *** Nothing in an iteration throws *)

Lemma qub_loop_not_Throws passes : forall xk g ψ q,
  qub_loop passes xk g ψ q <> Throws.
Proof.
  induction passes as [|p IH]; intros xk g ψ q; simpl;
    destruct (PANOC.qub_cond slv ψ q); try discriminate. apply IH.
Qed.

Lemma before_exit_not_Throws k st : before_exit k st <> Throws.
Proof.
  unfold PANOC.before_exit, PANOC.head, PANOC.quadratic_upper_bound.
  repeat (apply bind_not_Throws; [|intros; try discriminate]).
  destruct (PANOC.qub_at_head slv k); [|discriminate].
  apply bind_not_Throws; [apply qub_loop_not_Throws|discriminate].
Qed.

Lemma anderson_not_Throws k c (a : PANOC.Anderson real_t QR) :
  PANOC.anderson slv problem Σ y k c a <> Throws.
Proof.
  unfold PANOC.anderson, PANOC.anderson_first, PANOC.anderson_extrapolate,
    PANOC.topRows.
  destruct (PANOC.anderson_acceleration prm =? 0); [discriminate|].
  destruct (k =? 0).
  - repeat (apply bind_not_Throws; [|intros; try discriminate]).
    apply set_col_not_Throws.
  - cbv zeta.
    repeat (apply bind_not_Throws; [|intros; try discriminate]).
    + destruct (_ <=? _); discriminate.
    + destruct (negb (allFinite _)); [|discriminate].
      apply bind_not_Throws; [|discriminate].
      destruct (negb (_ =? 0)); [|discriminate].
      apply bind_not_Throws; [apply get_col_not_Throws|].
      intros col. apply set_col_not_Throws.
Qed.

Lemma linesearch_pass_not_Throws c l : linesearch_pass c l <> Throws.
Proof.
  unfold PANOC.linesearch_pass. cbv zeta.
  apply bind_not_Throws; [|discriminate].
  destruct (PANOC.update_lipschitz_in_linesearch prm); [|discriminate].
  apply qub_loop_not_Throws.
Qed.

Lemma linesearch_loop_not_Throws passes : forall c l,
  linesearch_loop passes c l <> Throws.
Proof.
  induction passes as [|p IH]; intros c l; simpl;
    (apply bind_not_Throws; [apply linesearch_pass_not_Throws|]);
    intros l1; destruct (PANOC.linesearch_continues slv l1);
    try discriminate. apply IH.
Qed.

Lemma after_exit_not_Throws k st : after_exit k st <> Throws.
Proof.
  unfold PANOC.after_exit. cbv zeta.
  apply bind_not_Throws; [apply anderson_not_Throws|]. intros r.
  apply bind_not_Throws; [apply linesearch_loop_not_Throws|]. intros l.
  apply bind_not_Throws; [|discriminate].
  unfold PANOC.update_no_progress. cbv zeta.
  destruct (0 <? _); [discriminate|].
  destruct (PANOC.lbfgs_mem prm =? 0); [discriminate|].
  destruct (_ mod _ =? 0); discriminate.
Qed.

(** The stop test of iteration [max_iter] exits, so the loop never runs
    out of passes. *)
Lemma main_loop_not_Throws remaining : forall k st,
  k + S remaining = S (PANOC.max_iter prm) ->
  main_loop (S remaining) k st <> Throws.
Proof.
  induction remaining as [|rem IH]; intros k st Hk;
    change (PANOC.main_loop slv env fuel problem Σ ε always_overwrite_results
              x y err_z (S ?r) k st)
      with (st1 <- before_exit k st ;;
            if exit (flags_at k st1)
            then Ret (exit_block k (PANOC.εₖ_of (PANOC.cur st1))
                        (flags_at k st1) st1)
            else st2 <- after_exit k st1 ;; main_loop r (S k) st2);
    apply bind_not_Throws; try apply before_exit_not_Throws; intros st1.
  - assert (E : exit (flags_at k st1) = true).
    { unfold exit. cbn. replace (k =? PANOC.max_iter prm) with true
        by (symmetry; apply Nat.eqb_eq; lia).
      now rewrite !orb_true_r. }
    rewrite E. discriminate.
  - destruct (exit (flags_at k st1)); [discriminate|].
    apply bind_not_Throws; [apply after_exit_not_Throws|].
    intros st2. apply IH. lia.
Qed.

(** A main loop that returns, returns an iteration within its passes. *)
Lemma main_loop_iterations remaining : forall k st r,
  main_loop remaining k st = Ret r ->
  k <= iterations (PANOC.res_stats r) < k + remaining.
Proof.
  induction remaining as [|rem IH]; intros k st r H; [discriminate|].
  change (PANOC.main_loop slv env fuel problem Σ ε always_overwrite_results
            x y err_z (S rem) k st)
    with (st1 <- before_exit k st ;;
          if exit (flags_at k st1)
          then Ret (exit_block k (PANOC.εₖ_of (PANOC.cur st1))
                      (flags_at k st1) st1)
          else st2 <- after_exit k st1 ;; main_loop rem (S k) st2) in H.
  apply bind_Ret in H. destruct H as [st1 [_ H]]. cbv beta in H.
  destruct (exit (flags_at k st1)).
  - injection H as <-. cbn. lia.
  - apply bind_Ret in H. destruct H as [st2 [_ H]].
    apply IH in H. lia.
Qed.

(** *** What a run shows *)

Lemma reported_iterations_app (tr1 tr2 : list (Event real_t)) :
  reported_iterations (tr1 ++ tr2) =
  reported_iterations tr1 ++ reported_iterations tr2.
Proof. apply flat_map_app. Qed.

Lemma printed_iterations_app (tr1 tr2 : list (Event real_t)) :
  printed_iterations (tr1 ++ tr2) =
  printed_iterations tr1 ++ printed_iterations tr2.
Proof. apply flat_map_app. Qed.

Lemma reported_iterations_report k c e :
  reported_iterations (PANOC.report slv Σ y k c e) =
  if PANOC.progress_cb slv then [k] else [].
Proof.
  unfold PANOC.report. rewrite reported_iterations_app.
  destruct (negb _ && _), (PANOC.progress_cb slv); reflexivity.
Qed.

Lemma printed_iterations_report k c e :
  printed_iterations (PANOC.report slv Σ y k c e) =
  if negb (PANOC.print_interval prm =? 0) && (k mod PANOC.print_interval prm =? 0)
  then [k] else [].
Proof.
  unfold PANOC.report. rewrite printed_iterations_app.
  destruct (negb _ && _), (PANOC.progress_cb slv); reflexivity.
Qed.

Lemma stop_test_at_le k st k' st' : stop_test_at k st k' st' -> k <= k'.
Proof. induction 1; lia. Qed.

Lemma stop_test_at_shown k st k' st' :
  stop_test_at k st k' st' ->
  reported_iterations (PANOC.trace st') =
    reported_iterations (PANOC.trace st) ++
    (if PANOC.progress_cb slv then seq k (S k' - k) else []) /\
  printed_iterations (PANOC.trace st') =
    printed_iterations (PANOC.trace st) ++
    (if PANOC.print_interval prm =? 0 then []
     else filter (fun j => j mod PANOC.print_interval prm =? 0)
            (seq k (S k' - k))).
Proof.
  induction 1 as [k st st1 H1|k st st1 st2 k' st' H1 He H2 Hr [IH1 IH2]].
  - rewrite (before_exit_trace _ _ _ _ _ _ _ _ H1).
    rewrite reported_iterations_app, printed_iterations_app,
      reported_iterations_report, printed_iterations_report.
    replace (S k - k) with 1 by lia. simpl.
    split; [now destruct (PANOC.progress_cb slv)|].
    now destruct (PANOC.print_interval prm =? 0),
      (k mod PANOC.print_interval prm =? 0).
  - apply stop_test_at_le in Hr.
    rewrite IH1, IH2, (after_exit_trace _ _ _ _ _ _ _ _ _ H2),
      (before_exit_trace _ _ _ _ _ _ _ _ H1).
    rewrite reported_iterations_app, printed_iterations_app,
      reported_iterations_report, printed_iterations_report, <- !app_assoc.
    replace (S k' - k) with (S (S k' - S k)) by lia. simpl.
    split; [now destruct (PANOC.progress_cb slv)|].
    now destruct (PANOC.print_interval prm =? 0),
      (k mod PANOC.print_interval prm =? 0).
Qed.

(** *** The counters *)

Lemma before_exit_counters k st st1 :
  before_exit k st = Ret st1 ->
  PANOC.s st1 = PANOC.s st /\ PANOC.no_progress st1 = PANOC.no_progress st.
Proof.
  unfold PANOC.before_exit, PANOC.head. intros H.
  apply bind_Ret in H. destruct H as [st0 [H0 H]]. injection H as <-.
  apply bind_Ret in H0. destruct H0 as [c [_ H0]]. now injection H0 as <-.
Qed.

Lemma after_exit_counters k st st' :
  after_exit k st = Ret st' ->
  linesearch_failures (PANOC.s st') <=
    linesearch_failures (PANOC.s st) + (if k =? 0 then 0 else 1) /\
  lbfgs_failures (PANOC.s st') <=
    lbfgs_failures (PANOC.s st) + (if k =? 0 then 0 else 1) /\
  lbfgs_rejected (PANOC.s st') <= S (lbfgs_rejected (PANOC.s st)) /\
  PANOC.no_progress st' <= S (PANOC.no_progress st) /\
  (PANOC.lbfgs_mem prm = 0 -> PANOC.no_progress st <> 0).
Proof.
  unfold PANOC.after_exit. intros H.
  apply bind_Ret in H. destruct H as [r [_ H]]. cbv beta zeta in H.
  apply bind_Ret in H. destruct H as [l [_ H]]. cbv beta zeta in H.
  apply bind_Ret in H. destruct H as [np [Hnp H]]. injection H as <-. cbn.
  unfold PANOC.counts_linesearch_failure, PANOC.lbfgs_failed.
  unfold PANOC.update_no_progress in Hnp. cbv zeta in Hnp.
  repeat split.
  - destruct (k =? 0); [rewrite andb_false_r|destruct (_ && _)]; simpl; lia.
  - destruct (k =? 0); simpl; [lia|]. destruct (negb _); simpl; lia.
  - destruct (snd (dir_update _ _ _ _ _ _ _ _)); simpl; lia.
  - destruct (0 <? PANOC.no_progress st) eqn:E.
    + injection Hnp as <-. destruct (veqb _ _); lia.
    + destruct (PANOC.lbfgs_mem prm =? 0); [discriminate|].
      destruct (k mod _ =? 0); injection Hnp as <-;
        [destruct (veqb _ _)|]; lia.
  - intros Hm Hz. rewrite Hz, Hm in Hnp. discriminate.
Qed.

Lemma stop_test_at_counters k st k' st' :
  stop_test_at k st k' st' ->
  linesearch_failures (PANOC.s st) <= pred k ->
  lbfgs_failures (PANOC.s st) <= pred k ->
  lbfgs_rejected (PANOC.s st) <= k ->
  PANOC.no_progress st <= k ->
  linesearch_failures (PANOC.s st') <= pred k' /\
  lbfgs_failures (PANOC.s st') <= pred k' /\
  lbfgs_rejected (PANOC.s st') <= k' /\
  PANOC.no_progress st' <= k'.
Proof.
  induction 1 as [k st st1 H1|k st st1 st2 k' st' H1 He H2 Hr IH];
    intros Ha Hb Hc Hd;
    destruct (before_exit_counters _ _ _ H1) as [Hs Hn].
  - rewrite Hs, Hn. auto.
  - destruct (after_exit_counters _ _ _ H2) as [Ia [Ib [Ic [Id _]]]].
    rewrite Hs, Hn in *.
    destruct k as [|k]; simpl in *; apply IH; lia.
Qed.

(** *** The estimate, the step size and σ move together *)

Lemma qub_iter_scaled xk g q i :
  PANOC.qub_L (Nat.iter i (qub_body xk g) q) = doubled i (PANOC.qub_L q) /\
  PANOC.qub_γ (Nat.iter i (qub_body xk g) q) = halved i (PANOC.qub_γ q) /\
  PANOC.qub_σ (Nat.iter i (qub_body xk g) q) = halved i (PANOC.qub_σ q).
Proof.
  induction i as [|i [IH1 [IH2 IH3]]]; [now repeat split|].
  unfold doubled, halved. rewrite !Nat.iter_succ. cbn.
  fold (doubled i (PANOC.qub_L q)) (halved i (PANOC.qub_γ q))
    (halved i (PANOC.qub_σ q)).
  now rewrite IH1, IH2, IH3.
Qed.

Lemma before_exit_scaled k st st1 :
  before_exit k st = Ret st1 ->
  exists i,
    PANOC.Lₖ (PANOC.cur st1) = doubled i (PANOC.Lₖ (PANOC.cur st)) /\
    PANOC.γₖ (PANOC.cur st1) = halved i (PANOC.γₖ (PANOC.cur st)) /\
    PANOC.σₖ (PANOC.cur st1) = halved i (PANOC.σₖ (PANOC.cur st)).
Proof.
  unfold PANOC.before_exit, PANOC.head, PANOC.quadratic_upper_bound.
  intros H. apply bind_Ret in H. destruct H as [st0 [H0 H]].
  injection H as <-. apply bind_Ret in H0. destruct H0 as [c [Hq H0]].
  injection H0 as <-. cbn. destruct (PANOC.qub_at_head slv k).
  - apply bind_Ret in Hq. destruct Hq as [q [Hq Hc]]. injection Hc as <-.
    apply qub_loop_iter in Hq. destruct Hq as [i [_ ->]]. exists i.
    exact (qub_iter_scaled _ _ _ i).
  - injection Hq as <-. now exists 0.
Qed.

(** A line search that returns, returns what its last pass left, and the
    loop condition is false of it. *)
Lemma linesearch_loop_is_pass passes : forall c l l',
  linesearch_loop passes c l = Ret l' ->
  PANOC.linesearch_continues slv l' = false /\
  exists l0, linesearch_pass c l0 = Ret l'.
Proof.
  induction passes as [|p IH]; intros c l l' H; simpl in H;
    apply bind_Ret in H; destruct H as [l1 [H1 H]]; cbv beta in H;
    destruct (PANOC.linesearch_continues slv l1) eqn:E; try discriminate.
  - injection H as <-. split; [exact E|now exists l].
  - now apply IH in H.
  - injection H as <-. split; [exact E|now exists l].
Qed.

Lemma linesearch_pass_scaled c l l' :
  linesearch_pass c l = Ret l' ->
  exists i,
    PANOC.Lₖ₁ l' = doubled i (PANOC.Lₖ c) /\
    PANOC.γₖ₁ l' = halved i (PANOC.γₖ c) /\
    PANOC.σₖ₁ l' = halved i (PANOC.σₖ c).
Proof.
  unfold PANOC.linesearch_pass. cbv zeta. intros H.
  apply bind_Ret in H. destruct H as [q [Hq H]]. injection H as <-. cbn.
  destruct (PANOC.update_lipschitz_in_linesearch prm).
  - apply qub_loop_iter in Hq. destruct Hq as [i [_ ->]]. exists i.
    exact (qub_iter_scaled _ _ _ i).
  - injection Hq as <-. now exists 0.
Qed.

(** The Anderson block and the quasi-Newton step leave the iterate, its
    objective and gradient, the estimate, the step size and σ alone. *)
Lemma anderson_keeps_iterate k c (a : PANOC.Anderson real_t QR) acc c' a' :
  PANOC.anderson slv problem Σ y k c a = Ret (acc, c', a') ->
  PANOC.xₖ c' = PANOC.xₖ c /\ PANOC.ψₖ c' = PANOC.ψₖ c /\
  PANOC.grad_ψₖ c' = PANOC.grad_ψₖ c /\ PANOC.Lₖ c' = PANOC.Lₖ c /\
  PANOC.γₖ c' = PANOC.γₖ c /\ PANOC.σₖ c' = PANOC.σₖ c.
Proof.
  unfold PANOC.anderson. intros H.
  destruct (PANOC.anderson_acceleration prm =? 0).
  - injection H as _ <- _. tauto.
  - destruct (k =? 0).
    + apply bind_Ret in H. destruct H as [a1 [_ H]].
      injection H as _ <- _. tauto.
    + apply bind_Ret in H. destruct H as [a1 [_ H]].
      unfold PANOC.anderson_decide in H. cbv zeta in H.
      destruct (rltb _ _) in H; injection H as _ <- _; cbn; tauto.
Qed.

Lemma quasi_newton_keeps_iterate k c (d : D) :
  PANOC.xₖ (fst (PANOC.quasi_newton k c d)) = PANOC.xₖ c /\
  PANOC.ψₖ (fst (PANOC.quasi_newton k c d)) = PANOC.ψₖ c /\
  PANOC.grad_ψₖ (fst (PANOC.quasi_newton k c d)) = PANOC.grad_ψₖ c /\
  PANOC.Lₖ (fst (PANOC.quasi_newton k c d)) = PANOC.Lₖ c /\
  PANOC.γₖ (fst (PANOC.quasi_newton k c d)) = PANOC.γₖ c /\
  PANOC.σₖ (fst (PANOC.quasi_newton k c d)) = PANOC.σₖ c.
Proof. unfold PANOC.quasi_newton. destruct (0 <? k); cbn; tauto. Qed.

(** What an iteration that goes on is made of: the variables [c] the
    Anderson block leaves, and the last pass of the line search. *)
Lemma after_exit_parts k st st' :
  after_exit k st = Ret st' ->
  exists acc c a l0 l,
    PANOC.anderson slv problem Σ y k
      (fst (PANOC.quasi_newton k (PANOC.cur st) (PANOC.dp st)))
      (PANOC.aa st) = Ret (acc, c, a) /\
    linesearch_pass c l0 = Ret l /\
    PANOC.linesearch_continues slv l = false /\
    PANOC.linesearch_of slv env fuel problem Σ y k st = Ret l /\
    PANOC.cur st' = PANOC.advance_cur c l.
Proof.
  unfold PANOC.after_exit, PANOC.linesearch_of. intros H.
  apply bind_Ret in H. destruct H as [[[acc c] a] [Ha H]]. cbv beta zeta in H.
  apply bind_Ret in H. destruct H as [l [Hl H]]. cbv beta zeta in H.
  apply bind_Ret in H. destruct H as [np [_ H]]. injection H as <-.
  cbn in Hl. pose proof Hl as Hl'.
  apply linesearch_loop_is_pass in Hl. destruct Hl as [He [l0 Hl]].
  exists acc, c, a, l0, l. rewrite Ha. cbn. auto.
Qed.

Lemma after_exit_scaled k st st' :
  after_exit k st = Ret st' ->
  exists i,
    PANOC.Lₖ (PANOC.cur st') = doubled i (PANOC.Lₖ (PANOC.cur st)) /\
    PANOC.γₖ (PANOC.cur st') = halved i (PANOC.γₖ (PANOC.cur st)) /\
    PANOC.σₖ (PANOC.cur st') = halved i (PANOC.σₖ (PANOC.cur st)).
Proof.
  intros H. apply after_exit_parts in H.
  destruct H as [acc [c [a [l0 [l [Ha [Hl [_ [_ ->]]]]]]]]].
  apply anderson_keeps_iterate in Ha.
  destruct Ha as [_ [_ [_ [HL [Hγ Hσ]]]]].
  destruct (quasi_newton_keeps_iterate k (PANOC.cur st) (PANOC.dp st))
    as [_ [_ [_ [HL' [Hγ' Hσ']]]]].
  apply linesearch_pass_scaled in Hl. destruct Hl as [i [H1 [H2 H3]]].
  exists i. cbn. now rewrite H1, H2, H3, HL, Hγ, Hσ, HL', Hγ', Hσ'.
Qed.

Lemma stop_test_at_scaled k st k' st' :
  stop_test_at k st k' st' ->
  exists i,
    PANOC.Lₖ (PANOC.cur st') = doubled i (PANOC.Lₖ (PANOC.cur st)) /\
    PANOC.γₖ (PANOC.cur st') = halved i (PANOC.γₖ (PANOC.cur st)) /\
    PANOC.σₖ (PANOC.cur st') = halved i (PANOC.σₖ (PANOC.cur st)).
Proof.
  induction 1 as [k st st1 H1|k st st1 st2 k' st' H1 He H2 Hr IH].
  - now apply before_exit_scaled in H1.
  - apply before_exit_scaled in H1. destruct H1 as [i1 [A1 [B1 C1]]].
    apply after_exit_scaled in H2. destruct H2 as [i2 [A2 [B2 C2]]].
    destruct IH as [i3 [A3 [B3 C3]]]. exists (i3 + i2 + i1).
    rewrite A3, B3, C3, A2, B2, C2, A1, B1, C1.
    now rewrite !doubled_add, !halved_add.
Qed.

(** *** The run returns at the first stop test that finds a flag set *)

Lemma stop_test_at_within k st k' st' :
  stop_test_at k st k' st' ->
  k <= PANOC.max_iter prm -> k' <= PANOC.max_iter prm.
Proof.
  induction 1 as [|k st st1 st2 k' st' H1 He H2 Hr IH]; intros Hk; [exact Hk|].
  apply IH. unfold exit in He. cbn in He.
  destruct (k =? PANOC.max_iter prm) eqn:E.
  - now rewrite !orb_true_r in He.
  - apply Nat.eqb_neq in E. lia.
Qed.

Lemma main_loop_returns k st k' st' :
  stop_test_at k st k' st' ->
  exit (flags_at k' st') = true ->
  forall remaining, k' < k + remaining ->
  main_loop remaining k st =
    Ret (exit_block k' (PANOC.εₖ_of (PANOC.cur st')) (flags_at k' st') st').
Proof.
  induction 1 as [k st st1 H1|k st st1 st2 k' st' H1 He H2 Hr IH];
    intros Hx remaining Hk; try apply stop_test_at_le in Hr;
    (destruct remaining as [|rem]; [lia|]);
    rewrite main_loop_S, H1; cbn.
  - now rewrite Hx.
  - rewrite He, H2. cbn. apply IH; [exact Hx|lia].
Qed.

(** *** The line search ends *)

Lemma linesearch_loop_returns (laws : RealLaws RO) :
  PANOC.update_lipschitz_in_linesearch prm = false ->
  forall n c l,
    rltb (halved (S n) (PANOC.τ l)) (PANOC.τ_min prm) = true ->
    exists l', linesearch_loop n c l = Ret l'.
Proof.
  intros Hu. induction n as [|n IH]; intros c l Hτ; simpl;
    unfold PANOC.linesearch_pass; rewrite Hu; cbn;
    match goal with
    | |- context [PANOC.linesearch_continues slv ?l1] =>
        destruct (PANOC.linesearch_continues slv l1) eqn:E;
        [|now eexists]
    end.
  - unfold PANOC.linesearch_continues in E. cbn in E.
    apply andb_true_iff in E. destruct E as [_ E].
    apply (ltb_not_leb laws) in Hτ. unfold halved in Hτ. simpl in Hτ.
    congruence.
  - match goal with
    | |- exists l', linesearch_loop n c ?l1 = Ret l' =>
        destruct (IH c l1) as [l' Hl']; [|now exists l']
    end.
    cbn. unfold halved in *. now rewrite Nat.iter_succ_r in Hτ.
Qed.

(** *** What the progress callback is shown *)

Lemma before_exit_grad_ψhat k st st1 :
  before_exit k st = Ret st1 ->
  PANOC.grad_ψhatₖ (PANOC.cur st1) =
    calc_grad_ψ_from_yhat problem (PANOC.xhatₖ (PANOC.cur st1))
      (PANOC.yhat_xhatₖ (PANOC.cur st1)).
Proof.
  unfold PANOC.before_exit. intros H. apply bind_Ret in H.
  destruct H as [st0 [_ H]]. now injection H as <-.
Qed.

Lemma before_exit_snapshots k st st1 :
  PANOC.coherent problem Σ y (PANOC.cur st) ->
  (forall info, In (Progress info) (PANOC.trace st) ->
                snapshot_consistent problem Σ y info) ->
  before_exit k st = Ret st1 ->
  forall info, In (Progress info) (PANOC.trace st1) ->
               snapshot_consistent problem Σ y info.
Proof.
  intros Hc Ht H info Hin.
  pose proof (before_exit_coherent _ _ _ _ _ _ _ _ Hc H) as Hc1.
  pose proof (before_exit_grad_ψhat _ _ _ H) as Hg.
  rewrite (before_exit_trace _ _ _ _ _ _ _ _ H) in Hin.
  apply in_app_or in Hin. destruct Hin as [Hin|Hin]; [now apply Ht|].
  unfold PANOC.report in Hin. apply in_app_or in Hin.
  destruct Hin as [Hin|Hin].
  - destruct (_ && _) in Hin; [|contradiction].
    destruct Hin as [Hin|[]]. discriminate.
  - destruct (PANOC.progress_cb slv); [|contradiction].
    destruct Hin as [Hin|[]]. injection Hin as <-.
    destruct Hc1 as [H1 [H2 [H3 [H4 [H5 H6]]]]].
    unfold snapshot_consistent. cbn.
    repeat split; try assumption. rewrite Hg. f_equal. exact H4.
Qed.

Lemma stop_test_at_snapshots k st k' st' :
  stop_test_at k st k' st' ->
  PANOC.coherent problem Σ y (PANOC.cur st) ->
  (forall info, In (Progress info) (PANOC.trace st) ->
                snapshot_consistent problem Σ y info) ->
  forall info, In (Progress info) (PANOC.trace st') ->
               snapshot_consistent problem Σ y info.
Proof.
  induction 1 as [k st st1 H1|k st st1 st2 k' st' H1 E H2 _ IH]; intros Hc Ht.
  - eapply before_exit_snapshots; eauto.
  - apply IH.
    + eapply after_exit_coherent; eauto.
    + rewrite (after_exit_trace _ _ _ _ _ _ _ _ _ H2).
      eapply before_exit_snapshots; eauto.
Qed.

(** *** The objective and the gradient carried along belong to the iterate *)

Lemma before_exit_keeps_iterate k st st1 :
  before_exit k st = Ret st1 ->
  PANOC.xₖ (PANOC.cur st1) = PANOC.xₖ (PANOC.cur st) /\
  PANOC.ψₖ (PANOC.cur st1) = PANOC.ψₖ (PANOC.cur st) /\
  PANOC.grad_ψₖ (PANOC.cur st1) = PANOC.grad_ψₖ (PANOC.cur st).
Proof.
  unfold PANOC.before_exit, PANOC.head, PANOC.quadratic_upper_bound.
  intros H. apply bind_Ret in H. destruct H as [st0 [H0 H]].
  injection H as <-. apply bind_Ret in H0. destruct H0 as [c [Hq H0]].
  injection H0 as <-. cbn. destruct (PANOC.qub_at_head slv k).
  - apply bind_Ret in Hq. destruct Hq as [q [_ Hc]]. now injection Hc as <-.
  - now injection Hq as <-.
Qed.

(** After the Anderson block, as before it, ψx̂ₖ and ∇ψ(x̂ₖ) are the
    objective and the gradient at x̂ₖ. *)
Lemma anderson_keeps_xhat k c (a : PANOC.Anderson real_t QR) acc c' a' :
  PANOC.anderson slv problem Σ y k c a = Ret (acc, c', a') ->
  evaluated_at problem Σ y (PANOC.xhatₖ c) (PANOC.ψxhatₖ c) (PANOC.grad_ψhatₖ c) ->
  evaluated_at problem Σ y (PANOC.xhatₖ c') (PANOC.ψxhatₖ c') (PANOC.grad_ψhatₖ c').
Proof.
  unfold PANOC.anderson. intros H Hc.
  destruct (PANOC.anderson_acceleration prm =? 0).
  - now injection H as _ <- _.
  - destruct (k =? 0).
    + apply bind_Ret in H. destruct H as [a1 [_ H]]. now injection H as _ <- _.
    + apply bind_Ret in H. destruct H as [a1 [_ H]].
      unfold PANOC.anderson_decide in H. cbv zeta in H.
      destruct (rltb _ _) in H; injection H as _ <- _; [|exact Hc].
      right. cbn. split; reflexivity.
Qed.

Lemma after_exit_evaluated (laws : RealLaws RO) k st st' :
  after_exit k st = Ret st' ->
  evaluated_at problem Σ y (PANOC.xhatₖ (PANOC.cur st)) (PANOC.ψxhatₖ (PANOC.cur st))
    (PANOC.grad_ψhatₖ (PANOC.cur st)) ->
  evaluated_at problem Σ y (PANOC.xₖ (PANOC.cur st')) (PANOC.ψₖ (PANOC.cur st'))
    (PANOC.grad_ψₖ (PANOC.cur st')).
Proof.
  unfold PANOC.after_exit. intros H Hc.
  apply bind_Ret in H. destruct H as [[[acc c] a] [Ha H]]. cbv beta zeta in H.
  apply bind_Ret in H. destruct H as [l [Hl H]]. cbv beta zeta in H.
  apply bind_Ret in H. destruct H as [np [_ H]]. injection H as <-.
  cbn in Hl. cbn.
  apply anderson_keeps_xhat in Ha;
    [|unfold PANOC.quasi_newton; destruct (0 <? k); exact Hc].
  apply (linesearch_loop_last slv fuel problem Σ y laws) in Hl;
    [|reflexivity|reflexivity].
  destruct Hl as [l0 [Hl [Hx Hg]]].
  unfold PANOC.linesearch_pass in Hl. apply bind_Ret in Hl.
  destruct Hl as [q [_ Hl]]. injection Hl as <-. cbn.
  unfold PANOC.next_ψ, PANOC.next_grad_ψ, PANOC.next_x.
  destruct (PANOC.linesearch_failed slv (PANOC.τ l0)).
  - now rewrite Hx, Hg.
  - left. split; reflexivity.
Qed.

Lemma stop_test_at_evaluated (laws : RealLaws RO) k st k' st' :
  stop_test_at k st k' st' ->
  PANOC.coherent problem Σ y (PANOC.cur st) ->
  evaluated_at problem Σ y (PANOC.xₖ (PANOC.cur st)) (PANOC.ψₖ (PANOC.cur st))
    (PANOC.grad_ψₖ (PANOC.cur st)) ->
  evaluated_at problem Σ y (PANOC.xₖ (PANOC.cur st')) (PANOC.ψₖ (PANOC.cur st'))
    (PANOC.grad_ψₖ (PANOC.cur st')).
Proof.
  induction 1 as [k st st1 H1|k st st1 st2 k' st' H1 E H2 _ IH]; intros Hc He.
  - destruct (before_exit_keeps_iterate _ _ _ H1) as [-> [-> ->]]. exact He.
  - pose proof (before_exit_coherent _ _ _ _ _ _ _ _ Hc H1) as Hc1.
    apply IH.
    + eapply after_exit_coherent; eauto.
    + apply (after_exit_evaluated laws _ _ _ H2).
      right. rewrite (before_exit_grad_ψhat _ _ _ H1).
      destruct Hc1 as [_ [_ [H3 [H4 _]]]]. cbn in H3, H4.
      now rewrite H3, H4.
Qed.

(** *** Anderson acceleration switched off *)

Lemma linesearch_pass_keeps_aa c l l' :
  PANOC.anderson_acceleration prm = 0 ->
  linesearch_pass c l = Ret l' -> PANOC.ls_aa l' = PANOC.ls_aa l.
Proof.
  intros Ha H. unfold PANOC.linesearch_pass in H. cbv zeta in H.
  apply bind_Ret in H. destruct H as [q [_ H]]. injection H as <-. cbn.
  unfold PANOC.anderson_changed_γ. rewrite Ha. cbn.
  now destruct (_ && _).
Qed.

Lemma linesearch_loop_keeps_aa passes : forall c l l',
  PANOC.anderson_acceleration prm = 0 ->
  linesearch_loop passes c l = Ret l' -> PANOC.ls_aa l' = PANOC.ls_aa l.
Proof.
  induction passes as [|p IH]; intros c l l' Ha H; simpl in H;
    apply bind_Ret in H; destruct H as [l1 [H1 H]]; cbv beta in H;
    apply (linesearch_pass_keeps_aa _ _ _ Ha) in H1;
    destruct (PANOC.linesearch_continues slv l1); try discriminate.
  - now injection H as <-.
  - apply IH in H; [congruence|exact Ha].
  - now injection H as <-.
Qed.

Lemma before_exit_keeps_aa k st st1 :
  PANOC.anderson_acceleration prm = 0 ->
  before_exit k st = Ret st1 -> PANOC.aa st1 = PANOC.aa st.
Proof.
  unfold PANOC.before_exit, PANOC.head. intros Ha H.
  apply bind_Ret in H. destruct H as [st0 [H0 H]]. injection H as <-.
  apply bind_Ret in H0. destruct H0 as [c [_ H0]]. injection H0 as <-. cbn.
  unfold PANOC.anderson_changed_γ. rewrite Ha. cbn. now destruct (_ && _).
Qed.

Lemma after_exit_keeps_aa k st st' :
  PANOC.anderson_acceleration prm = 0 ->
  after_exit k st = Ret st' ->
  PANOC.aa st' = PANOC.aa st /\
  PANOC.anderson slv problem Σ y k
    (fst (PANOC.quasi_newton k (PANOC.cur st) (PANOC.dp st))) (PANOC.aa st) =
    Ret (false, fst (PANOC.quasi_newton k (PANOC.cur st) (PANOC.dp st)),
         PANOC.aa st).
Proof.
  unfold PANOC.after_exit. intros Ha H.
  assert (Hand : forall c a, PANOC.anderson slv problem Σ y k c a =
                             Ret (false, c, a)).
  { intros c a. unfold PANOC.anderson. now rewrite Ha. }
  split; [|apply Hand]. rewrite Hand in H. cbn in H.
  apply bind_Ret in H. destruct H as [l [Hl H]]. cbv beta zeta in H.
  apply bind_Ret in H. destruct H as [np [_ H]]. injection H as <-. cbn.
  apply (linesearch_loop_keeps_aa _ _ _ _ Ha) in Hl. cbn in Hl.
  unfold PANOC.anderson_update. rewrite Ha. cbn.
  rewrite andb_false_r. exact Hl.
Qed.

Lemma stop_test_at_keeps_aa k st k' st' :
  stop_test_at k st k' st' ->
  PANOC.anderson_acceleration prm = 0 -> PANOC.aa st' = PANOC.aa st.
Proof.
  induction 1 as [k st st1 H1|k st st1 st2 k' st' H1 He H2 Hr IH]; intros Ha.
  - eapply before_exit_keeps_aa; eauto.
  - rewrite (IH Ha). apply (after_exit_keeps_aa _ _ _ Ha) in H2.
    destruct H2 as [-> _]. eapply before_exit_keeps_aa; eauto.
Qed.

(** *** The same run with another iteration budget *)

Lemma before_exit_with_max_iter N k st :
  PANOC.before_exit (panoc_with_max_iter slv N) fuel problem Σ y k st =
  before_exit k st.
Proof. reflexivity. Qed.

Lemma after_exit_with_max_iter N k st :
  PANOC.after_exit (panoc_with_max_iter slv N) env fuel problem Σ y k st =
  after_exit k st.
Proof. reflexivity. Qed.

Lemma flags_at_with_max_iter N k (st : PANOC.State real_t D QR) :
  k <> N -> k <> PANOC.max_iter prm ->
  PANOC.flags_at (panoc_with_max_iter slv N) env ε k st = flags_at k st.
Proof.
  intros H1 H2. unfold PANOC.flags_at, PANOC.exit_flags. cbn.
  apply Nat.eqb_neq in H1, H2. now rewrite H1, H2.
Qed.

Lemma stop_test_at_with_max_iter N k st k' st' :
  stop_test_at k st k' st' ->
  k' < N ->
  PANOC.stop_test_at (panoc_with_max_iter slv N) env fuel problem Σ ε y
    k st k' st'.
Proof.
  induction 1 as [k st st1 H1|k st st1 st2 k' st' H1 He H2 Hr IH]; intros HN.
  - apply PANOC.stop_test_now. now rewrite before_exit_with_max_iter.
  - pose proof (stop_test_at_le _ _ _ _ Hr) as Hle.
    apply PANOC.stop_test_later with (st1 := st1) (st2 := st2).
    + now rewrite before_exit_with_max_iter.
    + rewrite flags_at_with_max_iter; [exact He|lia|].
      unfold exit in He. cbn in He.
      destruct (k =? PANOC.max_iter prm) eqn:E;
        [now rewrite !orb_true_r in He|now apply Nat.eqb_neq].
    + now rewrite after_exit_with_max_iter.
    + apply IH. exact HN.
Qed.

End PANOC_more.

(** ** More on the runs of the PGA solver *)

Section PGA_more.
Context {real_t : Type} {RO : RealOps real_t}.
Context {Problem Box : Type} {HP : Helpers real_t Problem Box}.
Variable params : PGA.Params real_t.
Variable env : Env real_t.
Variable fuel : nat.
Variable problem : Problem.
Variable Σ : vec real_t.
Variable ε : real_t.
Variable x : vec real_t.
Variable y : vec real_t.
Variable err_z : vec real_t.

Local Abbreviation before_exit := (PGA.before_exit params fuel problem Σ y).
Local Abbreviation flags_at := (PGA.flags_at params env ε).
Local Abbreviation exit_block := (PGA.exit_block params env problem Σ ε y).
Local Abbreviation main_loop := (PGA.main_loop params env fuel problem Σ ε y).
Local Abbreviation stop_test_at := (PGA.stop_test_at params env fuel problem Σ ε y).
Local Abbreviation qub_body := (PGA.qub_body problem Σ y).
Local Abbreviation qub_loop := (PGA.qub_loop problem Σ y).
Local Abbreviation solve := (PGA.solve params env fuel problem Σ ε x y err_z).
Local Abbreviation estimate := (PGA.lipschitz_estimate params problem Σ x y).
Local Abbreviation initial_state := (PGA.initial_state params env problem Σ x y).

Lemma pga_qub_loop_not_Throws passes : forall xk g ψ q,
  qub_loop passes xk g ψ q <> Throws.
Proof.
  induction passes as [|p IH]; intros xk g ψ q; simpl;
    destruct (PGA.qub_cond ψ q); try discriminate. apply IH.
Qed.

Lemma pga_before_exit_not_Throws k st : before_exit k st <> Throws.
Proof.
  unfold PGA.before_exit.
  apply bind_not_Throws; [apply pga_qub_loop_not_Throws|discriminate].
Qed.

Lemma pga_main_loop_not_Throws remaining : forall k st,
  k + S remaining = S (PGA.max_iter params) ->
  main_loop (S remaining) k st <> Throws.
Proof.
  induction remaining as [|rem IH]; intros k st Hk;
    rewrite pga_main_loop_S;
    apply bind_not_Throws; try apply pga_before_exit_not_Throws; intros st1.
  - assert (E : exit (flags_at k st1) = true).
    { unfold exit. cbn. replace (k =? PGA.max_iter params) with true
        by (symmetry; apply Nat.eqb_eq; lia).
      now rewrite !orb_true_r. }
    rewrite E. discriminate.
  - destruct (exit (flags_at k st1)); [discriminate|]. apply IH. lia.
Qed.

Lemma pga_main_loop_iterations remaining : forall k st r,
  main_loop remaining k st = Ret r ->
  k <= iterations (PGA.res_stats r) < k + remaining.
Proof.
  induction remaining as [|rem IH]; intros k st r H; [discriminate|].
  rewrite pga_main_loop_S in H.
  apply bind_Ret in H. destruct H as [st1 [_ H]]. cbv beta in H.
  destruct (exit (flags_at k st1)).
  - injection H as <-. cbn. lia.
  - apply IH in H. lia.
Qed.

(** *** What a run shows *)

Lemma pga_stop_test_at_le k st k' st' : stop_test_at k st k' st' -> k <= k'.
Proof. induction 1; lia. Qed.

Lemma pga_before_exit_trace k st st1 :
  before_exit k st = Ret st1 ->
  printed_iterations (PGA.trace st1) =
    printed_iterations (PGA.trace st) ++
    (if negb (PGA.print_interval params =? 0)
        && (k mod PGA.print_interval params =? 0)
     then [k] else []) /\
  reported_iterations (PGA.trace st1) = reported_iterations (PGA.trace st).
Proof.
  unfold PGA.before_exit. intros H. apply bind_Ret in H.
  destruct H as [q [_ H]]. injection H as <-. cbn.
  unfold printed_iterations, reported_iterations. rewrite !flat_map_app.
  destruct (negb _ && _); simpl; now rewrite ?app_nil_r.
Qed.

Lemma pga_stop_test_at_shown k st k' st' :
  stop_test_at k st k' st' ->
  printed_iterations (PGA.trace st') =
    printed_iterations (PGA.trace st) ++
    (if PGA.print_interval params =? 0 then []
     else filter (fun j => j mod PGA.print_interval params =? 0)
            (seq k (S k' - k))) /\
  reported_iterations (PGA.trace st') = reported_iterations (PGA.trace st).
Proof.
  induction 1 as [k st st1 H1|k st st1 k' st' H1 He Hr [IH1 IH2]];
    destruct (pga_before_exit_trace _ _ _ H1) as [Hp Hq].
  - rewrite Hp, Hq. split; [|reflexivity].
    replace (S k - k) with 1 by lia. simpl.
    now destruct (PGA.print_interval params =? 0),
      (k mod PGA.print_interval params =? 0).
  - apply pga_stop_test_at_le in Hr.
    change (PGA.trace (PGA.after_exit st1)) with (PGA.trace st1) in IH1, IH2.
    rewrite IH1, IH2, Hp, Hq, <- app_assoc.
    split; [|reflexivity].
    replace (S k' - k) with (S (S k' - S k)) by lia. simpl.
    now destruct (PGA.print_interval params =? 0),
      (k mod PGA.print_interval params =? 0).
Qed.

(** *** The counter of iterations without progress *)


(** *** The estimate and the step size move together *)

Lemma pga_qub_iter_scaled xk g q i :
  PGA.st_L (Nat.iter i (qub_body xk g) q) = doubled i (PGA.st_L q) /\
  PGA.st_γ (Nat.iter i (qub_body xk g) q) = halved i (PGA.st_γ q).
Proof.
  induction i as [|i [IH1 IH2]]; [now split|].
  unfold doubled, halved. rewrite !Nat.iter_succ. cbn.
  fold (doubled i (PGA.st_L q)) (halved i (PGA.st_γ q)).
  now rewrite IH1, IH2.
Qed.

Lemma pga_before_exit_scaled k st st1 :
  before_exit k st = Ret st1 ->
  exists i,
    PGA.Lₖ st1 = doubled i (PGA.Lₖ st) /\ PGA.γₖ st1 = halved i (PGA.γₖ st).
Proof.
  unfold PGA.before_exit. intros H. apply bind_Ret in H.
  destruct H as [q [Hq H]]. injection H as <-. cbn.
  apply pga_qub_loop_iter in Hq. destruct Hq as [i [_ ->]]. exists i.
  exact (pga_qub_iter_scaled _ _ _ i).
Qed.

Lemma pga_stop_test_at_scaled k st k' st' :
  stop_test_at k st k' st' ->
  exists i,
    PGA.Lₖ st' = doubled i (PGA.Lₖ st) /\ PGA.γₖ st' = halved i (PGA.γₖ st).
Proof.
  induction 1 as [k st st1 H1|k st st1 k' st' H1 He Hr IH].
  - now apply pga_before_exit_scaled in H1.
  - apply pga_before_exit_scaled in H1. destruct H1 as [i1 [A1 B1]].
    destruct IH as [i2 [A2 B2]]. cbn in A2, B2. exists (i2 + i1).
    rewrite A2, B2, A1, B1. now rewrite doubled_add, halved_add.
Qed.

(** *** The run returns at the first stop test that finds a flag set *)

Lemma pga_stop_test_at_within k st k' st' :
  stop_test_at k st k' st' ->
  k <= PGA.max_iter params -> k' <= PGA.max_iter params.
Proof.
  induction 1 as [|k st st1 k' st' H1 He Hr IH]; intros Hk; [exact Hk|].
  apply IH. unfold exit in He. cbn in He.
  destruct (k =? PGA.max_iter params) eqn:E.
  - now rewrite !orb_true_r in He.
  - apply Nat.eqb_neq in E. lia.
Qed.

Lemma pga_main_loop_returns k st k' st' :
  stop_test_at k st k' st' ->
  exit (flags_at k' st') = true ->
  forall remaining, k' < k + remaining ->
  main_loop remaining k st = Ret (exit_block k' st').
Proof.
  induction 1 as [k st st1 H1|k st st1 k' st' H1 He Hr IH];
    intros Hx remaining Hk; try apply pga_stop_test_at_le in Hr;
    (destruct remaining as [|rem]; [lia|]);
    rewrite pga_main_loop_S, H1; cbn.
  - now rewrite Hx.
  - rewrite He. apply IH; [exact Hx|lia].
Qed.

(** *** The objective and the gradient carried along belong to the iterate *)

Lemma pga_stop_test_at_evaluated k st k' st' :
  stop_test_at k st k' st' ->
  evaluated_at problem Σ y (PGA.xₖ st) (PGA.ψₖ st) (PGA.grad_ψₖ st) ->
  evaluated_at problem Σ y (PGA.xₖ st') (PGA.ψₖ st') (PGA.grad_ψₖ st').
Proof.
  induction 1 as [k st st1 H1|k st st1 k' st' H1 He Hr IH]; intros Hv.
  - apply pga_before_exit_step in H1.
    destruct H1 as [-> [-> [-> _]]]. exact Hv.
  - apply IH. right. cbn.
    assert (Hg : PGA.grad_ψxhatₖ st1 =
                 calc_grad_ψ_from_yhat problem (PGA.xhatₖ st1) (PGA.yhatₖ st1)).
    { unfold PGA.before_exit in H1. apply bind_Ret in H1.
      destruct H1 as [q [_ H1]]. now injection H1 as <-. }
    apply pga_before_exit_step in H1.
    destruct H1 as [_ [_ [_ [_ [_ [_ [Hψ Hy]]]]]]].
    now rewrite Hg, Hy, Hψ.
Qed.

(** *** The same run with another iteration budget *)

Lemma pga_before_exit_with_max_iter N k st :
  PGA.before_exit (pga_with_max_iter params N) fuel problem Σ y k st =
  before_exit k st.
Proof. reflexivity. Qed.

Lemma pga_flags_at_with_max_iter N k st :
  k <> N -> k <> PGA.max_iter params ->
  PGA.flags_at (pga_with_max_iter params N) env ε k st = flags_at k st.
Proof.
  intros H1 H2. unfold PGA.flags_at. cbn.
  apply Nat.eqb_neq in H1, H2. now rewrite H1, H2.
Qed.

Lemma pga_stop_test_at_with_max_iter N k st k' st' :
  stop_test_at k st k' st' ->
  k' < N ->
  PGA.stop_test_at (pga_with_max_iter params N) env fuel problem Σ ε y
    k st k' st'.
Proof.
  induction 1 as [k st st1 H1|k st st1 k' st' H1 He Hr IH]; intros HN.
  - apply PGA.stop_test_now. now rewrite pga_before_exit_with_max_iter.
  - pose proof (pga_stop_test_at_le _ _ _ _ Hr) as Hle.
    apply PGA.stop_test_later with (st1 := st1).
    + now rewrite pga_before_exit_with_max_iter.
    + rewrite pga_flags_at_with_max_iter; [exact He|lia|].
      unfold exit in He. cbn in He.
      destruct (k =? PGA.max_iter params) eqn:E;
        [now rewrite !orb_true_r in He|now apply Nat.eqb_neq].
    + apply IH. exact HN.
Qed.

(** *** The quadratic upper bound at the stop test *)

Lemma pga_qub_loop_ends passes : forall xk g ψ q q',
  qub_loop passes xk g ψ q = Ret q' -> PGA.qub_cond ψ q' = false.
Proof.
  induction passes as [|p IH]; intros xk g ψ q q' H; simpl in H;
    destruct (PGA.qub_cond ψ q) eqn:E; try discriminate.
  - now injection H as <-.
  - eapply IH; eauto.
  - now injection H as <-.
Qed.

Lemma pga_before_exit_upper_bound k st st1 :
  before_exit k st = Ret st1 ->
  rltb (radd (radd (radd (PGA.ψₖ st1) PGA.margin)
                (dot (PGA.grad_ψₖ st1) (PGA.pₖ st1)))
          (rmul (rmul r05 (PGA.Lₖ st1)) (squaredNorm (PGA.pₖ st1))))
       (PGA.ψxhatₖ st1) = false.
Proof.
  unfold PGA.before_exit. intros H. apply bind_Ret in H.
  destruct H as [q [Hq H]]. injection H as <-. cbn.
  pose proof (pga_qub_loop_ends _ _ _ _ _ _ Hq) as He.
  apply pga_qub_loop_iter in Hq. destruct Hq as [i [_ Hq]].
  assert (Hs : PGA.st_grad_ψᵀp q = dot (PGA.grad_ψₖ st) (PGA.st_p q) /\
               PGA.st_norm_sq_p q = squaredNorm (PGA.st_p q)).
  { rewrite Hq, pga_qub_iter_step. split; reflexivity. }
  destruct Hs as [Hg Hn]. unfold PGA.qub_cond in He.
  now rewrite Hg, Hn in He.
Qed.

Lemma pga_stop_test_at_upper_bound k st k' st' :
  stop_test_at k st k' st' ->
  rltb (radd (radd (radd (PGA.ψₖ st') PGA.margin)
                (dot (PGA.grad_ψₖ st') (PGA.pₖ st')))
          (rmul (rmul r05 (PGA.Lₖ st')) (squaredNorm (PGA.pₖ st'))))
       (PGA.ψxhatₖ st') = false.
Proof.
  induction 1 as [k st st1 H1|k st st1 k' st' H1 He Hr IH].
  - now apply pga_before_exit_upper_bound in H1.
  - exact IH.
Qed.

End PGA_more.

(** ** Further properties of a call *)

Section Further.
Context {real_t : Type} {RO : RealOps real_t}.
Context {Problem Box : Type} {HP : Helpers real_t Problem Box}.
Context {D : Type} {DIR : PANOCDirection real_t Box D}.
Context {QR : Type} {LMQR : LimitedMemoryQR real_t QR}.

Variable slv : PANOC.Solver real_t D.
Variable pga_prm : PGA.Params real_t.
Variable env : Env real_t.
Variable fuel : nat.
Variable problem : Problem.
Variable Σ : vec real_t.
Variable ε : real_t.
Variable always_overwrite_results : bool.
Variable x : vec real_t.
Variable y : vec real_t.
Variable err_z : vec real_t.

Local Abbreviation prm := (PANOC.params slv).
Local Abbreviation panoc_solve :=
  (PANOC.solve slv env fuel problem Σ ε always_overwrite_results x y err_z).
Local Abbreviation panoc_estimate := (PANOC.lipschitz_estimate slv problem Σ x y).
Local Abbreviation panoc_initial := (PANOC.initial_state slv env problem Σ x y).
Local Abbreviation panoc_flags := (PANOC.flags_at slv env ε).
Local Abbreviation panoc_test_at := (PANOC.stop_test_at slv env fuel problem Σ ε y).
Local Abbreviation panoc_exit_block :=
  (PANOC.exit_block env problem Σ always_overwrite_results x y err_z).
Local Abbreviation linesearch_loop := (PANOC.linesearch_loop slv fuel problem Σ y).
Local Abbreviation pga_solve := (PGA.solve pga_prm env fuel problem Σ ε x y err_z).
Local Abbreviation pga_estimate := (PGA.lipschitz_estimate pga_prm problem Σ x y).
Local Abbreviation pga_initial := (PGA.initial_state pga_prm env problem Σ x y).
Local Abbreviation pga_flags := (PGA.flags_at pga_prm env ε).
Local Abbreviation pga_test_at := (PGA.stop_test_at pga_prm env fuel problem Σ ε y).
Local Abbreviation pga_exit_block := (PGA.exit_block pga_prm env problem Σ ε y).

(** X1.  No call of either solver ends in the [throw std::logic_error]
    that follows its main loop: the loop is never left through its
    condition [k <= max_iter].  Every stop test a run reaches is that of an
    iteration [k ≤ max_iter], and a run that reaches the stop test of
    iteration [max_iter] returns from it, with [iterations = max_iter] and
    a status that is not [Unknown].  (A call need not return for all that:
    an inner loop can go on for ever.) *)
Theorem main_loop_never_throws :
  (PANOC.solve slv env fuel problem Σ ε always_overwrite_results x y err_z <>
     Throws /\
   forall L0 k st,
     panoc_estimate = Some L0 ->
     panoc_test_at 0 (panoc_initial L0) k st ->
     k <= PANOC.max_iter prm /\
     (k = PANOC.max_iter prm ->
      exists r,
        PANOC.solve slv env fuel problem Σ ε always_overwrite_results x y
          err_z = Ret r /\
        iterations (PANOC.res_stats r) = PANOC.max_iter prm /\
        status (PANOC.res_stats r) <> Unknown)) /\
  (PGA.solve pga_prm env fuel problem Σ ε x y err_z <> Throws /\
   forall L0 k st,
     pga_estimate = Some L0 ->
     pga_test_at 0 (pga_initial L0) k st ->
     k <= PGA.max_iter pga_prm /\
     (k = PGA.max_iter pga_prm ->
      exists r,
        PGA.solve pga_prm env fuel problem Σ ε x y err_z = Ret r /\
        iterations (PGA.res_stats r) = PGA.max_iter pga_prm /\
        status (PGA.res_stats r) <> Unknown)).
Proof.
  split; split.
  - unfold PANOC.solve. destruct panoc_estimate; [|discriminate].
    apply main_loop_not_Throws. lia.
  - intros L0 k st HL Ht.
    pose proof (stop_test_at_within slv env fuel problem Σ ε y _ _ _ _ Ht
                  (Nat.le_0_l _)) as Hk.
    split; [exact Hk|]. intros ->.
    assert (He : exit (panoc_flags (PANOC.max_iter prm) st) = true).
    { unfold exit. cbn. rewrite Nat.eqb_refl. now rewrite !orb_true_r. }
    eexists. split; [|split].
    + unfold PANOC.solve. rewrite HL.
      apply main_loop_returns; [exact Ht|exact He|lia].
    + reflexivity.
    + cbn [PANOC.exit_block PANOC.res_stats status].
      pose proof (exit_status_sound _ He) as Hs. intros E.
      now rewrite E in Hs.
  - unfold PGA.solve. destruct pga_estimate; [|discriminate].
    apply pga_main_loop_not_Throws. lia.
  - intros L0 k st HL Ht.
    pose proof (pga_stop_test_at_within pga_prm env fuel problem Σ ε y
                  _ _ _ _ Ht (Nat.le_0_l _)) as Hk.
    split; [exact Hk|]. intros ->.
    assert (He : exit (pga_flags (PGA.max_iter pga_prm) st) = true).
    { unfold exit. cbn. rewrite Nat.eqb_refl. now rewrite !orb_true_r. }
    eexists. split; [|split].
    + unfold PGA.solve. rewrite HL.
      apply pga_main_loop_returns; [exact Ht|exact He|lia].
    + reflexivity.
    + cbn [PGA.exit_block PGA.res_stats status].
      pose proof (exit_status_sound _ He) as Hs. intros E.
      now rewrite E in Hs.
Qed.


(** X3.  A call that enters the main loop calls the progress callback
    once in every iteration it starts, the last one included, in the order
    [k = 0, 1, ..., iterations] (PANOC, when a callback is installed; PGA
    has none), and prints a line in exactly those of these iterations that
    are multiples of [print_interval] (never, when that is zero). *)
Theorem progress_shown_once_per_iteration :
  (forall L0 r,
     panoc_estimate = Some L0 -> panoc_solve = Ret r ->
     reported_iterations (PANOC.res_trace r) =
       (if PANOC.progress_cb slv
        then seq 0 (S (iterations (PANOC.res_stats r))) else []) /\
     printed_iterations (PANOC.res_trace r) =
       print_schedule (PANOC.print_interval prm)
         (iterations (PANOC.res_stats r))) /\
  (forall L0 r,
     pga_estimate = Some L0 -> pga_solve = Ret r ->
     reported_iterations (PGA.res_trace r) = [] /\
     printed_iterations (PGA.res_trace r) =
       print_schedule (PGA.print_interval pga_prm)
         (iterations (PGA.res_stats r))).
Proof.
  split; intros L0 r HL H.
  - apply panoc_solve_cases in H.
    destruct H as [[H _]|[L [k [st [_ [Ht [_ ->]]]]]]]; [congruence|].
    apply stop_test_at_shown in Ht. destruct Ht as [H1 H2].
    cbn [PANOC.exit_block PANOC.res_trace PANOC.res_stats iterations].
    rewrite H1, H2, Nat.sub_0_r. split; reflexivity.
  - apply pga_solve_cases in H.
    destruct H as [[H _]|[L [k [st [_ [Ht [_ ->]]]]]]]; [congruence|].
    apply pga_stop_test_at_shown in Ht. destruct Ht as [H1 H2].
    cbn [PGA.exit_block PGA.res_trace PGA.res_stats iterations].
    rewrite H1, H2, Nat.sub_0_r. split; reflexivity.
Qed.

(** X4.  Of the three failure counters of [Stats], PANOC's
    [linesearch_failures] and [lbfgs_failures] grow by at most one in an
    iteration and not at all in iteration 0, so they stay below the
    iteration count; [lbfgs_rejected] grows by at most one in every
    iteration that goes on.  PGA never touches any of them. *)
Theorem failure_counters_bounded :
  (forall r,
     PANOC.solve slv env fuel problem Σ ε always_overwrite_results x y err_z =
       Ret r ->
     linesearch_failures (PANOC.res_stats r) <=
       iterations (PANOC.res_stats r) - 1 /\
     lbfgs_failures (PANOC.res_stats r) <=
       iterations (PANOC.res_stats r) - 1 /\
     lbfgs_rejected (PANOC.res_stats r) <= iterations (PANOC.res_stats r)) /\
  (forall r,
     PGA.solve pga_prm env fuel problem Σ ε x y err_z = Ret r ->
     linesearch_failures (PGA.res_stats r) = 0 /\
     lbfgs_failures (PGA.res_stats r) = 0 /\
     lbfgs_rejected (PGA.res_stats r) = 0).
Proof.
  split; intros r H.
  - apply panoc_solve_cases in H.
    destruct H as [[_ ->]|[L [k [st [_ [Ht [_ ->]]]]]]]; [cbn; lia|].
    destruct (stop_test_at_counters slv env fuel problem Σ ε y _ _ _ _ Ht
                (Nat.le_0_l _) (Nat.le_0_l _) (Nat.le_0_l _) (Nat.le_0_l _))
      as [H1 [H2 [H3 _]]].
    cbn [PANOC.exit_block PANOC.res_stats iterations linesearch_failures
           lbfgs_failures lbfgs_rejected]. lia.
  - apply pga_solve_cases in H.
    destruct H as [[_ ->]|[L [k [st [_ [_ [_ ->]]]]]]]; now cbn.
Qed.

(** X5.  The estimate, the step size and (in PANOC) σ are only ever
    changed together: at the stop test of every iteration there is a count
    [i] with Lₖ = L₀·2ⁱ, γₖ = γ₀/2ⁱ and σₖ = σ₀/2ⁱ, the products and
    quotients taken one factor of two at a time as the code takes them,
    where γ₀ = Lγ_factor/L₀ and σ₀ = γ₀·(1 − γ₀·L₀)/2. *)
Theorem estimate_and_step_scale_together :
  (forall L0 k st,
     panoc_test_at 0 (panoc_initial L0) k st ->
     exists i,
       PANOC.Lₖ (PANOC.cur st) = doubled i L0 /\
       PANOC.γₖ (PANOC.cur st) = halved i (PANOC.initial_γ slv L0) /\
       PANOC.σₖ (PANOC.cur st) =
         halved i
           (rdiv (rmul (PANOC.initial_γ slv L0)
                    (rsub r1 (rmul (PANOC.initial_γ slv L0) L0))) r2)) /\
  (forall L0 k st,
     pga_test_at 0 (pga_initial L0) k st ->
     exists i,
       PGA.Lₖ st = doubled i L0 /\
       PGA.γₖ st = halved i (PGA.initial_γ pga_prm L0)).
Proof.
  split; intros L0 k st Ht.
  - now apply stop_test_at_scaled in Ht.
  - now apply pga_stop_test_at_scaled in Ht.
Qed.


(** X7.  With [update_lipschitz_in_linesearch] off, the line search of
    PANOC returns after at most [n + 1] passes, whatever the problem,
    whenever [n + 1] halvings take its first τ below τ_min: every pass
    halves τ, and the loop goes on only while τ ≥ τ_min. *)
Theorem linesearch_pass_bound :
  RealLaws RO ->
  PANOC.update_lipschitz_in_linesearch prm = false ->
  forall n passes c l,
    n <= passes ->
    rltb (halved (S n) (PANOC.τ l)) (PANOC.τ_min prm) = true ->
    exists l',
      linesearch_loop passes c l = Ret l' /\ linesearch_loop n c l = Ret l'.
Proof.
  intros laws Hu. induction n as [|n IH]; intros passes c l Hn Hτ.
  - destruct (linesearch_loop_returns slv fuel problem Σ y laws Hu 0 c l Hτ)
      as [l' Hl']. exists l'. split; [|exact Hl'].
    destruct passes as [|p]; [exact Hl'|].
    simpl in *. destruct (PANOC.linesearch_pass slv fuel problem Σ y c l)
      as [l1| | |]; try discriminate. cbn in *.
    destruct (PANOC.linesearch_continues slv l1); [discriminate|exact Hl'].
  - destruct passes as [|p]; [lia|]. simpl.
    destruct (PANOC.linesearch_pass slv fuel problem Σ y c l) as [l1| | |] eqn:E.
    + cbn. destruct (PANOC.linesearch_continues slv l1).
      * apply IH; [lia|].
        unfold PANOC.linesearch_pass in E. rewrite Hu in E. cbn in E.
        injection E as <-. cbn. unfold halved in *.
        now rewrite Nat.iter_succ_r in Hτ.
      * now eexists.
    + unfold PANOC.linesearch_pass in E. rewrite Hu in E. discriminate.
    + unfold PANOC.linesearch_pass in E. rewrite Hu in E. discriminate.
    + unfold PANOC.linesearch_pass in E. rewrite Hu in E. discriminate.
Qed.

(** X8.  A call returns from the first stop test that finds an exit flag
    set: if the run reaches the stop test of iteration [k] and a flag is
    set there, the call returns the exit block of that iteration.  In
    particular a stop request is honoured in the iteration in which it is
    seen: the call returns with [iterations = k], and with [x], [y] and
    [err_z] written, whatever [always_overwrite_results] says. *)
Theorem returns_at_first_exit :
  (forall L0 k st,
     panoc_estimate = Some L0 ->
     panoc_test_at 0 (panoc_initial L0) k st ->
     (exit (panoc_flags k st) = true ->
      panoc_solve =
        Ret (panoc_exit_block k (PANOC.εₖ_of (PANOC.cur st))
               (panoc_flags k st) st)) /\
     (stop_requested env k = true ->
      exists r,
        panoc_solve = Ret r /\ iterations (PANOC.res_stats r) = k /\
        PANOC.res_out r =
          {| out_x := PANOC.xhatₖ (PANOC.cur st);
             out_y := PANOC.yhat_xhatₖ (PANOC.cur st);
             out_err_z :=
               calc_err_z problem (PANOC.xhatₖ (PANOC.cur st)) y Σ |})) /\
  (forall L0 k st,
     pga_estimate = Some L0 ->
     pga_test_at 0 (pga_initial L0) k st ->
     (exit (pga_flags k st) = true ->
      pga_solve = Ret (pga_exit_block k st)) /\
     (stop_requested env k = true ->
      exists r,
        pga_solve = Ret r /\ iterations (PGA.res_stats r) = k /\
        PGA.res_out r =
          {| out_x := PGA.xhatₖ st; out_y := PGA.yhatₖ st;
             out_err_z := calc_err_z problem (PGA.xhatₖ st) y Σ |})).
Proof.
  split; intros L0 k st HL Ht.
  - assert (Hr : exit (panoc_flags k st) = true ->
                 panoc_solve =
                   Ret (panoc_exit_block k (PANOC.εₖ_of (PANOC.cur st))
                          (panoc_flags k st) st)).
    { intros He. unfold PANOC.solve. rewrite HL.
      apply main_loop_returns; [exact Ht|exact He|].
      pose proof (stop_test_at_within slv env fuel problem Σ ε y _ _ _ _ Ht
                    (Nat.le_0_l _)). lia. }
    split; [exact Hr|]. intros Hs.
    assert (Hi : interrupted (panoc_flags k st) = true) by exact Hs.
    eexists. split; [apply Hr|split; [reflexivity|]].
    + unfold exit. rewrite Hi. now rewrite !orb_true_r.
    + cbn [PANOC.exit_block PANOC.res_out]. unfold PANOC.overwrites.
      rewrite Hi. now rewrite orb_true_r.
  - assert (Hr : exit (pga_flags k st) = true ->
                 pga_solve = Ret (pga_exit_block k st)).
    { intros He. unfold PGA.solve. rewrite HL.
      apply pga_main_loop_returns; [exact Ht|exact He|].
      pose proof (pga_stop_test_at_within pga_prm env fuel problem Σ ε y
                    _ _ _ _ Ht (Nat.le_0_l _)). lia. }
    split; [exact Hr|]. intros Hs.
    assert (Hi : interrupted (pga_flags k st) = true) by exact Hs.
    eexists. split; [apply Hr|split; reflexivity].
    unfold exit. rewrite Hi. now rewrite !orb_true_r.
Qed.

(** X9.  On an empty [x] (a problem of dimension zero, whose gradient is
    empty) the first estimate is [0 / 0]: where that is neither finite nor
    below machine epsilon, as with IEEE doubles, both solvers return at
    once with the status [NotFinite], no iteration, nothing printed or
    reported and the arguments as they were. *)
Theorem empty_input_is_not_finite :
  isfinite (rdiv (rsqrt r0) (rsqrt r0)) = false ->
  rltb (rdiv (rsqrt r0) (rsqrt r0)) epsilon = false ->
  calc_grad_ψ problem [] y Σ = [] ->
  (exists r,
     PANOC.solve slv env fuel problem Σ ε always_overwrite_results [] y
       err_z = Ret r /\
     status (PANOC.res_stats r) = NotFinite /\
     iterations (PANOC.res_stats r) = 0 /\
     PANOC.res_out r = {| out_x := []; out_y := y; out_err_z := err_z |} /\
     PANOC.res_trace r = []) /\
  (exists r,
     PGA.solve pga_prm env fuel problem Σ ε [] y err_z = Ret r /\
     status (PGA.res_stats r) = NotFinite /\
     iterations (PGA.res_stats r) = 0 /\
     PGA.res_out r = {| out_x := []; out_y := y; out_err_z := err_z |} /\
     PGA.res_trace r = []).
Proof.
  intros Hf Hlt Hg. split.
  - exists (PANOC.not_finite_return slv env problem [] y err_z).
    split; [|repeat split].
    unfold PANOC.solve, PANOC.lipschitz_estimate, PANOC.initial_lipschitz,
      PANOC.calc_grad_ψ'. cbn. rewrite Hg. cbn.
    fold (@norm real_t RO []). unfold norm, squaredNorm, dot. cbn.
    now rewrite Hlt, Hf.
  - exists (PGA.not_finite_return pga_prm env [] y err_z).
    split; [|repeat split].
    unfold PGA.solve, PGA.lipschitz_estimate, PGA.initial_lipschitz,
      PGA.calc_grad_ψ', PGA.x_plus_h. cbn. rewrite Hg. cbn.
    unfold norm, squaredNorm, dot. cbn.
    now rewrite Hlt, Hf.
Qed.

(** X10.  [lbfgs_mem = 0] is not a value PANOC can run with: an
    iteration 0 that goes on past its stop test and whose line search ends
    evaluates [k % params.lbfgs_mem], by zero, in the progress check, which
    is undefined behaviour. *)
Theorem lbfgs_mem_zero_is_undefined :
  PANOC.lbfgs_mem prm = 0 ->
  forall L0 st l,
    panoc_estimate = Some L0 ->
    PANOC.before_exit slv fuel problem Σ y 0 (panoc_initial L0) = Ret st ->
    exit (panoc_flags 0 st) = false ->
    PANOC.linesearch_of slv env fuel problem Σ y 0 st = Ret l ->
    PANOC.solve slv env fuel problem Σ ε always_overwrite_results x y err_z =
      Undefined.
Proof.
  intros Hm L0 st l HL Hb He Hl.
  destruct (before_exit_counters slv fuel problem Σ y _ _ _ Hb) as [_ Hn].
  cbn in Hn.
  unfold PANOC.linesearch_of in Hl.
  apply bind_Ret in Hl. destruct Hl as [r [Hr Hl]]. cbv beta in Hl.
  assert (Ha : PANOC.after_exit slv env fuel problem Σ y 0 st = Undefined).
  { unfold PANOC.after_exit. cbv zeta. rewrite Hr.
    unfold bind at 1. rewrite Hl. unfold bind at 1.
    unfold PANOC.update_no_progress. cbv zeta. now rewrite Hn, Hm. }
  unfold PANOC.solve. rewrite HL. rewrite main_loop_S, Hb.
  unfold bind at 1. rewrite He, Ha. reflexivity.
Qed.

(** X12.  [max_iter] only bounds the run: a call that returned before
    iteration [max_iter] returns the same with any other [max_iter] above
    the iteration it returned from. *)
Theorem larger_max_iter_same_run :
  (forall r N,
     panoc_solve = Ret r ->
     iterations (PANOC.res_stats r) < PANOC.max_iter prm ->
     iterations (PANOC.res_stats r) < N ->
     PANOC.solve (panoc_with_max_iter slv N) env fuel problem Σ ε
       always_overwrite_results x y err_z = Ret r) /\
  (forall r N,
     pga_solve = Ret r ->
     iterations (PGA.res_stats r) < PGA.max_iter pga_prm ->
     iterations (PGA.res_stats r) < N ->
     PGA.solve (pga_with_max_iter pga_prm N) env fuel problem Σ ε x y err_z =
       Ret r).
Proof.
  split; intros r N H Hm HN.
  - apply panoc_solve_cases in H. unfold PANOC.solve.
    change (PANOC.lipschitz_estimate (panoc_with_max_iter slv N) problem Σ x y)
      with panoc_estimate.
    destruct H as [[-> ->]|[L0 [k [st [-> [Ht [He ->]]]]]]]; [reflexivity|].
    cbn in Hm, HN.
    change (PANOC.initial_state (panoc_with_max_iter slv N) env problem Σ x y L0)
      with (panoc_initial L0).
    rewrite <- (flags_at_with_max_iter slv env ε N k st) in * by lia.
    apply main_loop_returns; [|exact He|cbn; lia].
    now apply stop_test_at_with_max_iter.
  - apply pga_solve_cases in H. unfold PGA.solve.
    change (PGA.lipschitz_estimate (pga_with_max_iter pga_prm N) problem Σ x y)
      with pga_estimate.
    destruct H as [[-> ->]|[L0 [k [st [-> [Ht [He ->]]]]]]]; [reflexivity|].
    cbn in Hm, HN.
    change (PGA.initial_state (pga_with_max_iter pga_prm N) env problem Σ x y L0)
      with (pga_initial L0).
    assert (Hf : PGA.flags_at (pga_with_max_iter pga_prm N) env ε k st =
                 pga_flags k st)
      by (apply pga_flags_at_with_max_iter; lia).
    rewrite (pga_main_loop_returns (pga_with_max_iter pga_prm N) env fuel
               problem Σ ε y 0 (pga_initial L0) k st);
      [| now apply pga_stop_test_at_with_max_iter
       | now rewrite Hf | cbn; lia].
    unfold PGA.exit_block. now rewrite Hf.
Qed.

(** X13.  Whatever PANOC hands to the progress callback is a consistent
    picture of the iteration: x̂ and p are the projected gradient step from
    x with the step size γ reported, ‖p‖² belongs to that p, ψ(x̂) and ∇ψ(x̂)
    are evaluated at that x̂, ε is the stop criterion of these, and Σ and y
    are the arguments of the call. *)
Theorem callback_sees_consistent_iteration :
  forall r info,
    panoc_solve = Ret r -> In (Progress info) (PANOC.res_trace r) ->
    snapshot_consistent problem Σ y info.
Proof.
  intros r info H Hin. apply panoc_solve_cases in H.
  destruct H as [[_ ->]|[L0 [k [st [_ [Ht [_ ->]]]]]]]; [destruct Hin|].
  cbn in Hin.
  apply (stop_test_at_snapshots slv env fuel problem Σ ε y _ _ _ _ Ht);
    [apply initial_state_coherent|intros i []|exact Hin].
Qed.

(** X14.  The objective ψₖ and the gradient ∇ψₖ a solver carries from one
    iteration to the next are always those of the iterate xₖ it carries
    them with: computed at xₖ by [calc_ψ_grad_ψ], or, when xₖ was the x̂ of
    the iteration before, by [calc_ψ_ŷ] and [calc_grad_ψ_from_ŷ] there. *)
Theorem objective_belongs_to_iterate :
  (RealLaws RO ->
   forall L0 k st,
     panoc_test_at 0 (panoc_initial L0) k st ->
     evaluated_at problem Σ y (PANOC.xₖ (PANOC.cur st))
       (PANOC.ψₖ (PANOC.cur st)) (PANOC.grad_ψₖ (PANOC.cur st))) /\
  (forall L0 k st,
     pga_test_at 0 (pga_initial L0) k st ->
     evaluated_at problem Σ y (PGA.xₖ st) (PGA.ψₖ st) (PGA.grad_ψₖ st)).
Proof.
  split.
  - intros laws L0 k st Ht.
    apply (stop_test_at_evaluated slv env fuel problem Σ ε y laws _ _ _ _ Ht);
      [apply initial_state_coherent|]. left. split; reflexivity.
  - intros L0 k st Ht.
    apply (pga_stop_test_at_evaluated pga_prm env fuel problem Σ ε y
             _ _ _ _ Ht). left. split; reflexivity.
Qed.

(** X15.  The perturbation [h] of the first estimate has a component for
    every component of [x], and none of them is below δ_L (for a finite
    δ_L and an [x] whose products with ε_L are numbers); with a positive
    δ_L every component of [h] is positive. *)
Theorem perturbation_at_least_delta :
  RealLaws RO ->
  (isfinite (PANOC.Lipschitz_δ prm) = true ->
   (forall xi, In xi x ->
               is_nan (rabs (rmul xi (PANOC.Lipschitz_ε prm))) = false) ->
   length (PANOC.h slv x) = length x /\
   (forall hi, In hi (PANOC.h slv x) ->
               rleb (PANOC.Lipschitz_δ prm) hi = true) /\
   (rltb r0 (PANOC.Lipschitz_δ prm) = true ->
    forall hi, In hi (PANOC.h slv x) -> rltb r0 hi = true)) /\
  (isfinite (PGA.Lipschitz_δ pga_prm) = true ->
   (forall xi, In xi x ->
               is_nan (rabs (rmul xi (PGA.Lipschitz_ε pga_prm))) = false) ->
   length (PGA.h pga_prm x) = length x /\
   (forall hi, In hi (PGA.h pga_prm x) ->
               rleb (PGA.Lipschitz_δ pga_prm) hi = true) /\
   (rltb r0 (PGA.Lipschitz_δ pga_prm) = true ->
    forall hi, In hi (PGA.h pga_prm x) -> rltb r0 hi = true)).
Proof.
  intros laws. split; intros Hδ Hx.
  - destruct (cwise_h_at_least laws x (PANOC.Lipschitz_ε prm)
                (PANOC.Lipschitz_δ prm) Hδ Hx) as [H1 H2].
    split; [exact H1|]. split; [exact H2|].
    intros Hp hi Hin.
    exact (ltb_leb_trans laws _ _ _ Hp (H2 hi Hin)).
  - destruct (cwise_h_at_least laws x (PGA.Lipschitz_ε pga_prm)
                (PGA.Lipschitz_δ pga_prm) Hδ Hx) as [H1 H2].
    split; [exact H1|]. split; [exact H2|].
    intros Hp hi Hin.
    exact (ltb_leb_trans laws _ _ _ Hp (H2 hi Hin)).
Qed.

(** X16.  At the stop test of every PGA iteration the quadratic upper
    bound holds of the projected gradient step: the loop condition
    [ψx̂ₖ > ψₖ + margin + ∇ψₖᵀpₖ + ½·Lₖ·‖pₖ‖²] is false, and where neither
    side is a NaN, ψ(x̂ₖ) ≤ ψₖ + ∇ψₖᵀpₖ + ½·Lₖ·‖pₖ‖² (the margin is
    zero), with x̂ₖ and pₖ the step from xₖ for the final γₖ. *)
Theorem pga_upper_bound_at_stop_test :
  forall L0 k st,
    pga_test_at 0 (pga_initial L0) k st ->
    PGA.pₖ st =
      snd (calc_xhat problem (PGA.γₖ st) (PGA.xₖ st) (PGA.grad_ψₖ st)) /\
    PGA.ψxhatₖ st =
      fst (calc_ψ_yhat problem
             (fst (calc_xhat problem (PGA.γₖ st) (PGA.xₖ st) (PGA.grad_ψₖ st)))
             y Σ) /\
    rltb (radd (radd (radd (PGA.ψₖ st) r0)
                  (dot (PGA.grad_ψₖ st) (PGA.pₖ st)))
            (rmul (rmul r05 (PGA.Lₖ st)) (squaredNorm (PGA.pₖ st))))
         (PGA.ψxhatₖ st) = false /\
    (RealLaws RO ->
     is_nan (PGA.ψxhatₖ st) = false ->
     is_nan (radd (radd (radd (PGA.ψₖ st) r0)
                     (dot (PGA.grad_ψₖ st) (PGA.pₖ st)))
               (rmul (rmul r05 (PGA.Lₖ st)) (squaredNorm (PGA.pₖ st)))) =
       false ->
     rleb (PGA.ψxhatₖ st)
       (radd (radd (radd (PGA.ψₖ st) r0)
                (dot (PGA.grad_ψₖ st) (PGA.pₖ st)))
          (rmul (rmul r05 (PGA.Lₖ st)) (squaredNorm (PGA.pₖ st)))) = true).
Proof.
  intros L0 k st Ht.
  pose proof (pga_stop_test_at_upper_bound pga_prm env fuel problem Σ ε y
                _ _ _ _ Ht) as Hb.
  assert (Hs : PGA.pₖ st =
                 snd (calc_xhat problem (PGA.γₖ st) (PGA.xₖ st)
                        (PGA.grad_ψₖ st)) /\
               PGA.xhatₖ st =
                 fst (calc_xhat problem (PGA.γₖ st) (PGA.xₖ st)
                        (PGA.grad_ψₖ st)) /\
               PGA.ψxhatₖ st = fst (calc_ψ_yhat problem (PGA.xhatₖ st) y Σ)).
  { clear Hb. induction Ht as [k st st1 H1|k st st1 k' st' H1 He Hr IH];
      [|exact IH].
    apply pga_before_exit_step in H1. tauto. }
  destruct Hs as [Hp [Hx Hψ]].
  split; [exact Hp|]. split; [now rewrite <- Hx|]. split; [exact Hb|].
  intros laws N1 N2. now apply (not_ltb_leb laws).
Qed.

(** X17.  With [anderson_acceleration = 0] the Anderson acceleration is
    off for good: its storage is never allocated and stays empty at every
    stop test of the run, and no iteration that goes on accepts an
    extrapolated point or changes the variables of the iteration in the
    Anderson block. *)
Theorem anderson_off_does_nothing :
  PANOC.anderson_acceleration prm = 0 ->
  forall L0 k st,
    panoc_test_at 0 (panoc_initial L0) k st ->
    PANOC.aa st =
      {| PANOC.rₐₐ_prev := []; PANOC.rₐₐₖ := []; PANOC.yₐₐₖ := [];
         PANOC.xₐₐₖ := []; PANOC.gₐₐₖ := []; PANOC.γₐₐ_LS := [];
         PANOC.yhatₐₐₖ := []; PANOC.Gₐₐ := []; PANOC.qr := qr_default |} /\
    (forall st',
       PANOC.after_exit slv env fuel problem Σ y k st = Ret st' ->
       PANOC.anderson slv problem Σ y k
         (fst (PANOC.quasi_newton k (PANOC.cur st) (PANOC.dp st)))
         (PANOC.aa st) =
         Ret (false, fst (PANOC.quasi_newton k (PANOC.cur st) (PANOC.dp st)),
              PANOC.aa st)).
Proof.
  intros Ha L0 k st Ht. split.
  - rewrite (stop_test_at_keeps_aa slv env fuel problem Σ ε y _ _ _ _ Ht Ha).
    cbn. unfold PANOC.alloc_anderson. now rewrite Ha.
  - intros st' H. now apply (after_exit_keeps_aa slv env fuel problem Σ y) in H.
Qed.

End Further.

(** ** Runs for the further properties, on the machine's doubles *)

Section FurtherRuns.

Local Abbreviation origin := ([r0; r0] : vec float).
Local Abbreviation corner := ([r1; r1] : vec float).
Local Abbreviation plain := (demo_solver (RO:=binary64) 20 1000 false 0).
Local Abbreviation plain_pga := (demo_pga (RO:=binary64) 20 1000).
(** The cautious solver: γ = 1/(4L), an Anderson memory of two. *)
Local Abbreviation cautious :=
  {| PANOC.params :=
       panoc_params (real_t:=float) (half_pow 20) (half_pow 40) (half_pow 2)
         (half_pow 8) (half_pow 33) 20 1000 false 2;
     PANOC.direction_provider := 0%nat;
     PANOC.progress_cb := true |}.
(** A solver that prints every second iteration, and PGA parameters that
    print every third. *)
Local Abbreviation chatty :=
  {| PANOC.params :=
       {| PANOC.Lipschitz_ε := half_pow 20; PANOC.Lipschitz_δ := half_pow 40;
          PANOC.Lipschitz_Lγ_factor := rsub r1 (half_pow 4);
          PANOC.max_iter := 20; PANOC.max_time := 1000;
          PANOC.τ_min := half_pow 8; PANOC.lbfgs_mem := 10;
          PANOC.print_interval := 2;
          PANOC.quadratic_upperbound_threshold := half_pow 33;
          PANOC.update_lipschitz_in_linesearch := false;
          PANOC.alternative_linesearch_cond := false;
          PANOC.anderson_acceleration := 0 |};
     PANOC.direction_provider := 0%nat;
     PANOC.progress_cb := true |}.
Local Abbreviation chatty_pga :=
  {| PGA.Lipschitz_ε := half_pow 20; PGA.Lipschitz_δ := half_pow 40;
     PGA.Lipschitz_Lγ_factor := rsub r1 (half_pow 4); PGA.max_iter := 20;
     PGA.max_time := 1000; PGA.print_interval := 3 |}.
(** A solver whose direction provider is given no memory. *)
Local Abbreviation forgetful :=
  {| PANOC.params :=
       {| PANOC.Lipschitz_ε := half_pow 20; PANOC.Lipschitz_δ := half_pow 40;
          PANOC.Lipschitz_Lγ_factor := rsub r1 (half_pow 4);
          PANOC.max_iter := 20; PANOC.max_time := 1000;
          PANOC.τ_min := half_pow 8; PANOC.lbfgs_mem := 0;
          PANOC.print_interval := 0;
          PANOC.quadratic_upperbound_threshold := half_pow 33;
          PANOC.update_lipschitz_in_linesearch := false;
          PANOC.alternative_linesearch_cond := false;
          PANOC.anderson_acceleration := 0 |};
     PANOC.direction_provider := 0%nat;
     PANOC.progress_cb := true |}.
(** The problem without variables. *)
Local Abbreviation nothing := (quadratic (RO:=binary64) [] [] []).
(** Solvers that are allowed two iterations, and solvers that are allowed
    one microsecond. *)
Local Abbreviation brief := (demo_solver (RO:=binary64) 2 1000 false 0).
Local Abbreviation brief_pga := (demo_pga (RO:=binary64) 2 1000).
Local Abbreviation hasty := (demo_solver (RO:=binary64) 20 1 false 0).
Local Abbreviation hasty_pga := (demo_pga (RO:=binary64) 20 1).
(** A clock that ticks once a nanosecond and reads 1500 ticks in every
    iteration. *)
Local Abbreviation nanoseconds :=
  (clocked (real_t:=float) 1 1000000000 (fun _ => 1500%Z) None).

(** X1 on runs that are allowed two iterations on [bowl]: both reach the
    stop test of iteration 2 and return from it, out of iterations. *)
Lemma main_loop_never_throws_witness :
  (exists r,
     PANOC.solve brief ticking 64 bowl [] tolerance false origin [] [] =
       Ret r /\
     iterations (PANOC.res_stats r) = 2 /\
     status (PANOC.res_stats r) = MaxIter) /\
  (exists r,
     PGA.solve brief_pga ticking 64 bowl [] tolerance origin [] [] = Ret r /\
     iterations (PGA.res_stats r) = 2 /\
     status (PGA.res_stats r) = MaxIter).
Proof.
  split.
  - eassert (HL : PANOC.lipschitz_estimate brief bowl [] origin [] = Some _)
      by (vm_compute; reflexivity).
    match type of HL with
    | _ = Some ?L =>
        eassert (H0 : PANOC.before_exit brief 64 bowl [] [] 0
                        (PANOC.initial_state brief ticking bowl [] origin []
                           L) = Ret _) by (vm_compute; reflexivity)
    end.
    match type of H0 with
    | _ = Ret ?s =>
        assert (E0 : exit (PANOC.flags_at brief ticking tolerance 0 s) =
                       false) by (vm_compute; reflexivity);
        eassert (A0 : PANOC.after_exit brief ticking 64 bowl [] [] 0 s =
                        Ret _) by (vm_compute; reflexivity)
    end.
    match type of A0 with
    | _ = Ret ?s =>
        eassert (H1 : PANOC.before_exit brief 64 bowl [] [] 1 s = Ret _)
          by (vm_compute; reflexivity)
    end.
    match type of H1 with
    | _ = Ret ?s =>
        assert (E1 : exit (PANOC.flags_at brief ticking tolerance 1 s) =
                       false) by (vm_compute; reflexivity);
        eassert (A1 : PANOC.after_exit brief ticking 64 bowl [] [] 1 s =
                        Ret _) by (vm_compute; reflexivity)
    end.
    match type of A1 with
    | _ = Ret ?s =>
        eassert (H2 : PANOC.before_exit brief 64 bowl [] [] 2 s = Ret _)
          by (vm_compute; reflexivity)
    end.
    destruct (proj2 (proj1 (main_loop_never_throws brief brief_pga ticking
                              64 bowl [] tolerance false origin [] []))
                _ 2 _ HL
                (PANOC.stop_test_later _ H0 E0 A0
                   (PANOC.stop_test_later _ H1 E1 A1
                      (PANOC.stop_test_now _ _ _ _ _ _ _ _ _ H2))))
      as [_ Hr].
    destruct (Hr eq_refl) as [r [Hs [Hi _]]].
    exists r. split; [exact Hs|]. split; [exact Hi|].
    assert (Hc : PANOC.solve brief ticking 64 bowl [] tolerance false origin
                   [] [] = Ret r) by exact Hs.
    vm_compute in Hc. injection Hc as <-. reflexivity.
  - eassert (HL : PGA.lipschitz_estimate brief_pga bowl [] origin [] =
                    Some _) by (vm_compute; reflexivity).
    match type of HL with
    | _ = Some ?L =>
        eassert (H0 : PGA.before_exit brief_pga 64 bowl [] [] 0
                        (PGA.initial_state brief_pga ticking bowl [] origin
                           [] L) = Ret _) by (vm_compute; reflexivity)
    end.
    match type of H0 with
    | _ = Ret ?s =>
        assert (E0 : exit (PGA.flags_at brief_pga ticking tolerance 0 s) =
                       false) by (vm_compute; reflexivity);
        eassert (H1 : PGA.before_exit brief_pga 64 bowl [] [] 1
                        (PGA.after_exit s) = Ret _)
          by (vm_compute; reflexivity)
    end.
    match type of H1 with
    | _ = Ret ?s =>
        assert (E1 : exit (PGA.flags_at brief_pga ticking tolerance 1 s) =
                       false) by (vm_compute; reflexivity);
        eassert (H2 : PGA.before_exit brief_pga 64 bowl [] [] 2
                        (PGA.after_exit s) = Ret _)
          by (vm_compute; reflexivity)
    end.
    destruct (proj2 (proj2 (main_loop_never_throws brief brief_pga ticking
                              64 bowl [] tolerance false origin [] []))
                _ 2 _ HL
                (PGA.stop_test_later _ H0 E0
                   (PGA.stop_test_later _ H1 E1
                      (PGA.stop_test_now _ _ _ _ _ _ _ _ _ H2))))
      as [_ Hr].
    destruct (Hr eq_refl) as [r [Hs [Hi _]]].
    exists r. split; [exact Hs|]. split; [exact Hi|].
    assert (Hc : PGA.solve brief_pga ticking 64 bowl [] tolerance origin []
                   [] = Ret r) by exact Hs.
    vm_compute in Hc. injection Hc as <-. reflexivity.
Defined.


(** X3 on runs that return from iteration 7: PANOC has printed in the
    iterations 0, 2, 4 and 6, PGA in the iterations 0, 3 and 6. *)
Lemma progress_shown_once_per_iteration_witness :
  (exists L0 r,
     PANOC.lipschitz_estimate chatty bowl [] origin [] = Some L0 /\
     PANOC.solve chatty ticking 64 bowl [] tolerance false origin [] [] =
       Ret r /\
     iterations (PANOC.res_stats r) = 7 /\
     reported_iterations (PANOC.res_trace r) = [0; 1; 2; 3; 4; 5; 6; 7] /\
     printed_iterations (PANOC.res_trace r) = [0; 2; 4; 6]) /\
  (exists L0 r,
     PGA.lipschitz_estimate chatty_pga bowl [] origin [] = Some L0 /\
     PGA.solve chatty_pga ticking 64 bowl [] tolerance origin [] [] =
       Ret r /\
     iterations (PGA.res_stats r) = 7 /\
     reported_iterations (PGA.res_trace r) = [] /\
     printed_iterations (PGA.res_trace r) = [0; 3; 6]).
Proof.
  split; do 2 eexists;
    (match goal with
     | |- ?P /\ _ => assert (HL : P) by (vm_compute; reflexivity)
     end;
     split; [exact HL|];
     match goal with
     | |- ?P /\ _ => assert (Hr : P) by (vm_compute; reflexivity)
     end;
     split; [exact Hr|]; split; [reflexivity|]).
  - exact (proj1 (progress_shown_once_per_iteration chatty chatty_pga
                    ticking 64 bowl [] tolerance false origin [] [])
             _ _ HL Hr).
  - exact (proj2 (progress_shown_once_per_iteration chatty chatty_pga
                    ticking 64 bowl [] tolerance false origin [] [])
             _ _ HL Hr).
Defined.

(** X4 on the run of the cautious solver, which is out of iterations
    after twenty and has counted one failure of the line search. *)
Lemma failure_counters_bounded_witness :
  (exists r,
     PANOC.solve cautious ticking 64 bowl [] tolerance false origin [] [] =
       Ret r /\
     iterations (PANOC.res_stats r) = 20 /\
     linesearch_failures (PANOC.res_stats r) <= 19 /\
     lbfgs_failures (PANOC.res_stats r) <= 19 /\
     lbfgs_rejected (PANOC.res_stats r) <= 20) /\
  (exists r,
     PGA.solve plain_pga ticking 64 bowl [] tolerance origin [] [] = Ret r /\
     linesearch_failures (PGA.res_stats r) = 0 /\
     lbfgs_failures (PGA.res_stats r) = 0 /\
     lbfgs_rejected (PGA.res_stats r) = 0).
Proof.
  split; eexists;
    (match goal with
     | |- ?P /\ _ => assert (Hr : P) by (vm_compute; reflexivity)
     end;
     split; [exact Hr|]).
  - split; [reflexivity|].
    exact (proj1 (failure_counters_bounded cautious plain_pga ticking 64
                    bowl [] tolerance false origin [] []) _ Hr).
  - exact (proj2 (failure_counters_bounded cautious plain_pga ticking 64
                    bowl [] tolerance false origin [] []) _ Hr).
Defined.

(** X5 on the first stop test of both solvers on [bowl], from an estimate
    of 1/4: the estimate is doubled, and the step size halved, twice. *)
Lemma estimate_and_step_scale_together_witness :
  (exists st,
     PANOC.before_exit plain 64 bowl [] [] 0
       (PANOC.initial_state plain ticking bowl [] origin [] (half_pow 2)) =
       Ret st /\
     PANOC.Lₖ (PANOC.cur st) = r1 /\
     exists i,
       PANOC.Lₖ (PANOC.cur st) = doubled i (half_pow 2) /\
       PANOC.γₖ (PANOC.cur st) =
         halved i (PANOC.initial_γ plain (half_pow 2)) /\
       PANOC.σₖ (PANOC.cur st) =
         halved i
           (rdiv (rmul (PANOC.initial_γ plain (half_pow 2))
                    (rsub r1 (rmul (PANOC.initial_γ plain (half_pow 2))
                                (half_pow 2)))) r2)) /\
  (exists st,
     PGA.before_exit plain_pga 64 bowl [] [] 0
       (PGA.initial_state plain_pga ticking bowl [] origin [] (half_pow 2)) =
       Ret st /\
     PGA.Lₖ st = r1 /\
     exists i,
       PGA.Lₖ st = doubled i (half_pow 2) /\
       PGA.γₖ st = halved i (PGA.initial_γ plain_pga (half_pow 2))).
Proof.
  split; eexists;
    (match goal with
     | |- ?P /\ _ => assert (Hb : P) by (vm_compute; reflexivity)
     end;
     split; [exact Hb|]; split; [reflexivity|]).
  - apply (proj1 (estimate_and_step_scale_together plain plain_pga ticking
                    64 bowl [] tolerance origin []) (half_pow 2) 0).
    apply PANOC.stop_test_now. exact Hb.
  - apply (proj2 (estimate_and_step_scale_together plain plain_pga ticking
                    64 bowl [] tolerance origin []) (half_pow 2) 0).
    apply PGA.stop_test_now. exact Hb.
Defined.

(** X8 on a PANOC and a PGA call during which a stop had been requested
    from the start: both return from iteration 0, with [x] moved from the
    origin to the corner (1, 1) of the box. *)
Lemma returns_at_first_exit_witness :
  (exists L0 st r,
     PANOC.lipschitz_estimate plain bowl_in_box [] origin [] = Some L0 /\
     PANOC.before_exit plain 64 bowl_in_box [] [] 0
       (PANOC.initial_state plain stopped bowl_in_box [] origin [] L0) =
       Ret st /\
     PANOC.solve plain stopped 64 bowl_in_box [] tolerance false origin []
       [] = Ret r /\
     iterations (PANOC.res_stats r) = 0 /\
     PANOC.res_out r =
       {| out_x := PANOC.xhatₖ (PANOC.cur st);
          out_y := PANOC.yhat_xhatₖ (PANOC.cur st);
          out_err_z :=
            calc_err_z bowl_in_box (PANOC.xhatₖ (PANOC.cur st)) [] [] |} /\
     out_x (PANOC.res_out r) = corner) /\
  (exists L0 st r,
     PGA.lipschitz_estimate plain_pga bowl_in_box [] origin [] = Some L0 /\
     PGA.before_exit plain_pga 64 bowl_in_box [] [] 0
       (PGA.initial_state plain_pga stopped bowl_in_box [] origin [] L0) =
       Ret st /\
     PGA.solve plain_pga stopped 64 bowl_in_box [] tolerance origin [] [] =
       Ret r /\
     iterations (PGA.res_stats r) = 0 /\
     PGA.res_out r =
       {| out_x := PGA.xhatₖ st; out_y := PGA.yhatₖ st;
          out_err_z := calc_err_z bowl_in_box (PGA.xhatₖ st) [] [] |} /\
     out_x (PGA.res_out r) = corner).
Proof.
  split.
  - eexists. eexists.
    match goal with
    | |- exists r, ?P /\ ?Q /\ _ =>
        assert (HL : P) by (vm_compute; reflexivity);
        assert (Hb : Q) by (vm_compute; reflexivity)
    end.
    destruct (proj2 (proj1 (returns_at_first_exit plain plain_pga stopped
                              64 bowl_in_box [] tolerance false origin []
                              []) _ 0 _ HL (PANOC.stop_test_now _ _ _ _ _ _
                                              _ _ _ Hb)) eq_refl)
      as [r [Hr [Hi Ho]]].
    exists r. repeat split; try assumption.
    rewrite Ho. vm_compute. reflexivity.
  - eexists. eexists.
    match goal with
    | |- exists r, ?P /\ ?Q /\ _ =>
        assert (HL : P) by (vm_compute; reflexivity);
        assert (Hb : Q) by (vm_compute; reflexivity)
    end.
    destruct (proj2 (proj2 (returns_at_first_exit plain plain_pga stopped
                              64 bowl_in_box [] tolerance false origin []
                              []) _ 0 _ HL (PGA.stop_test_now _ _ _ _ _ _
                                              _ _ _ Hb)) eq_refl)
      as [r [Hr [Hi Ho]]].
    exists r. repeat split; try assumption.
    rewrite Ho. vm_compute. reflexivity.
Defined.

(** X9 on the problem without variables: 0/0 is a NaN. *)
Lemma empty_input_is_not_finite_witness :
  (exists r,
     PANOC.solve plain ticking 64 nothing [] tolerance true [] [] [r1] =
       Ret r /\
     status (PANOC.res_stats r) = NotFinite /\
     iterations (PANOC.res_stats r) = 0 /\
     PANOC.res_out r = {| out_x := []; out_y := []; out_err_z := [r1] |} /\
     PANOC.res_trace r = []) /\
  (exists r,
     PGA.solve plain_pga ticking 64 nothing [] tolerance [] [] [r1] = Ret r /\
     status (PGA.res_stats r) = NotFinite /\
     iterations (PGA.res_stats r) = 0 /\
     PGA.res_out r = {| out_x := []; out_y := []; out_err_z := [r1] |} /\
     PGA.res_trace r = []).
Proof.
  apply (empty_input_is_not_finite plain plain_pga ticking 64 nothing []
           tolerance true [] [r1]); vm_compute; reflexivity.
Defined.

(** X10 on [bowl]: iteration 0 does not exit, its line search ends after
    one pass, and the call is undefined. *)
Lemma lbfgs_mem_zero_is_undefined_witness :
  (exists L0 st l,
     PANOC.lipschitz_estimate forgetful bowl [] origin [] = Some L0 /\
     PANOC.before_exit forgetful 64 bowl [] [] 0
       (PANOC.initial_state forgetful ticking bowl [] origin [] L0) =
       Ret st /\
     exit (PANOC.flags_at forgetful ticking tolerance 0 st) = false /\
     PANOC.linesearch_of forgetful ticking 64 bowl [] [] 0 st = Ret l) /\
  PANOC.solve forgetful ticking 64 bowl [] tolerance false origin [] [] =
    Undefined.
Proof.
  eassert (HL : PANOC.lipschitz_estimate forgetful bowl [] origin [] =
                  Some _) by (vm_compute; reflexivity).
  match type of HL with
  | _ = Some ?L =>
      eassert (Hb : PANOC.before_exit forgetful 64 bowl [] [] 0
                      (PANOC.initial_state forgetful ticking bowl [] origin
                         [] L) = Ret _) by (vm_compute; reflexivity)
  end.
  match type of Hb with
  | _ = Ret ?s =>
      assert (He : exit (PANOC.flags_at forgetful ticking tolerance 0 s) =
                     false) by (vm_compute; reflexivity);
      eassert (Hl : PANOC.linesearch_of forgetful ticking 64 bowl [] [] 0 s =
                      Ret _) by (vm_compute; reflexivity)
  end.
  split.
  - do 3 eexists. split; [exact HL|]. split; [exact Hb|].
    split; [exact He|exact Hl].
  - exact (lbfgs_mem_zero_is_undefined forgetful ticking 64 bowl []
             tolerance false origin [] [] eq_refl _ _ _ HL Hb He Hl).
Defined.

(** X12 on the runs of both solvers on [bowl], which converge in iteration
    7 of the 20 they are allowed: allowed 50, or 8, they return the same. *)
Lemma larger_max_iter_same_run_witness :
  (exists r,
     PANOC.solve plain ticking 64 bowl [] tolerance false origin [] [] =
       Ret r /\
     iterations (PANOC.res_stats r) = 7 /\
     PANOC.solve (panoc_with_max_iter plain 50) ticking 64 bowl [] tolerance
       false origin [] [] = Ret r /\
     PANOC.solve (panoc_with_max_iter plain 8) ticking 64 bowl [] tolerance
       false origin [] [] = Ret r) /\
  (exists r,
     PGA.solve plain_pga ticking 64 bowl [] tolerance origin [] [] = Ret r /\
     iterations (PGA.res_stats r) = 7 /\
     PGA.solve (pga_with_max_iter plain_pga 50) ticking 64 bowl [] tolerance
       origin [] [] = Ret r /\
     PGA.solve (pga_with_max_iter plain_pga 8) ticking 64 bowl [] tolerance
       origin [] [] = Ret r).
Proof.
  split; eexists;
    (match goal with
     | |- ?P /\ _ => assert (Hr : P) by (vm_compute; reflexivity)
     end;
     split; [exact Hr|]; split; [reflexivity|]).
  - split;
      apply (proj1 (larger_max_iter_same_run plain plain_pga ticking 64 bowl
                      [] tolerance false origin [] []) _ _ Hr);
      vm_compute; lia.
  - split;
      apply (proj2 (larger_max_iter_same_run plain plain_pga ticking 64 bowl
                      [] tolerance false origin [] []) _ _ Hr);
      vm_compute; lia.
Defined.

(** X13 on the run of PANOC on [bowl], whose callback is called eight
    times. *)
Lemma callback_sees_consistent_iteration_witness :
  exists r,
    PANOC.solve plain ticking 64 bowl [] tolerance false origin [] [] =
      Ret r /\
    length (reported_iterations (PANOC.res_trace r)) = 8 /\
    forall info,
      In (Progress info) (PANOC.res_trace r) ->
      snapshot_consistent bowl [] [] info.
Proof.
  eexists.
  match goal with
  | |- ?P /\ _ => assert (Hr : P) by (vm_compute; reflexivity)
  end.
  split; [exact Hr|]. split; [reflexivity|].
  intros info.
  exact (callback_sees_consistent_iteration plain ticking 64 bowl []
           tolerance false origin [] [] _ info Hr).
Defined.

(** X17 on the first two stop tests of PANOC on [bowl]. *)
Lemma anderson_off_does_nothing_witness :
  exists L0 st1 st2 st3,
    PANOC.lipschitz_estimate plain bowl [] origin [] = Some L0 /\
    PANOC.before_exit plain 64 bowl [] [] 0
      (PANOC.initial_state plain ticking bowl [] origin [] L0) = Ret st1 /\
    PANOC.after_exit plain ticking 64 bowl [] [] 0 st1 = Ret st2 /\
    PANOC.before_exit plain 64 bowl [] [] 1 st2 = Ret st3 /\
    PANOC.Gₐₐ (PANOC.aa st3) = [] /\ PANOC.yₐₐₖ (PANOC.aa st3) = [].
Proof.
  do 4 eexists.
  match goal with
  | |- ?P /\ ?Q /\ ?R /\ ?S /\ _ =>
      assert (HL : P) by (vm_compute; reflexivity);
      assert (H1 : Q) by (vm_compute; reflexivity);
      assert (H2 : R) by (vm_compute; reflexivity);
      assert (H3 : S) by (vm_compute; reflexivity)
  end.
  repeat (split; [assumption|]).
  match type of H1 with
  | _ = Ret ?s =>
      assert (Hf : exit (PANOC.flags_at plain ticking tolerance 0 s) = false)
        by (vm_compute; reflexivity)
  end.
  destruct (anderson_off_does_nothing plain ticking 64 bowl [] tolerance
              origin [] eq_refl _ 1 _
              (PANOC.stop_test_later _ H1 Hf H2
                 (PANOC.stop_test_now _ _ _ _ _ _ _ _ _ H3)))
    as [Ha _].
  rewrite Ha. split; reflexivity.
Defined.

End FurtherRuns.

(** ** Runs for the further properties, on exact numbers *)

Section FurtherExactRuns.

Local Abbreviation start := ([r0; r0] : vec xreal).
Local Abbreviation exact := (demo_solver (RO:=xreal_ops) 20 1000 false 0).
Local Abbreviation exact_pga := (demo_pga (RO:=xreal_ops) 20 1000).


(** X7 on the same line search: τ starts at 1 and τ_min is 2⁻⁸, so that
    nine passes are enough whatever the problem (here one is). *)
Lemma linesearch_pass_bound_witness :
  exists L0 st1 st2 st3 l',
    PANOC.lipschitz_estimate exact bowl [] start [] = Some L0 /\
    PANOC.before_exit exact 64 bowl [] [] 0
      (PANOC.initial_state exact ticking bowl [] start [] L0) = Ret st1 /\
    PANOC.after_exit exact ticking 64 bowl [] [] 0 st1 = Ret st2 /\
    PANOC.before_exit exact 64 bowl [] [] 1 st2 = Ret st3 /\
    PANOC.linesearch_loop exact 64 bowl [] [] 64
      (fst (PANOC.quasi_newton 1 (PANOC.cur st3) (PANOC.dp st3)))
      (PANOC.linesearch_init ticking 1
         (fst (PANOC.quasi_newton 1 (PANOC.cur st3) (PANOC.dp st3)))
         (PANOC.next st3)
         (snd (PANOC.quasi_newton 1 (PANOC.cur st3) (PANOC.dp st3)))
         (PANOC.aa st3)) = Ret l' /\
    PANOC.linesearch_loop exact 64 bowl [] [] 8
      (fst (PANOC.quasi_newton 1 (PANOC.cur st3) (PANOC.dp st3)))
      (PANOC.linesearch_init ticking 1
         (fst (PANOC.quasi_newton 1 (PANOC.cur st3) (PANOC.dp st3)))
         (PANOC.next st3)
         (snd (PANOC.quasi_newton 1 (PANOC.cur st3) (PANOC.dp st3)))
         (PANOC.aa st3)) = Ret l'.
Proof.
  do 4 eexists.
  match goal with
  | |- exists l', _ /\ _ /\ _ /\ _ /\
                  PANOC.linesearch_loop _ _ _ _ _ _ ?c ?l = _ /\ _ =>
      destruct (linesearch_pass_bound exact 64 bowl [] [] xreal_laws
                  eq_refl 8 64 c l) as [l' [H1 H2]]
  end.
  3: { exists l'. do 4 (split; [vm_compute; reflexivity|]).
       split; [exact H1|exact H2]. }
  - lia.
  - vm_compute. reflexivity.
Defined.

(** X14 on the second stop test of both solvers on [bowl]. *)
Lemma objective_belongs_to_iterate_witness :
  (exists L0 st1 st2 st3,
     PANOC.lipschitz_estimate exact bowl [] start [] = Some L0 /\
     PANOC.before_exit exact 64 bowl [] [] 0
       (PANOC.initial_state exact ticking bowl [] start [] L0) = Ret st1 /\
     PANOC.after_exit exact ticking 64 bowl [] [] 0 st1 = Ret st2 /\
     PANOC.before_exit exact 64 bowl [] [] 1 st2 = Ret st3 /\
     evaluated_at bowl [] [] (PANOC.xₖ (PANOC.cur st3))
       (PANOC.ψₖ (PANOC.cur st3)) (PANOC.grad_ψₖ (PANOC.cur st3))) /\
  (exists L0 st1 st2,
     PGA.lipschitz_estimate exact_pga bowl [] start [] = Some L0 /\
     PGA.before_exit exact_pga 64 bowl [] [] 0
       (PGA.initial_state exact_pga ticking bowl [] start [] L0) = Ret st1 /\
     PGA.before_exit exact_pga 64 bowl [] [] 1 (PGA.after_exit st1) =
       Ret st2 /\
     evaluated_at bowl [] [] (PGA.xₖ st2) (PGA.ψₖ st2) (PGA.grad_ψₖ st2)).
Proof.
  split.
  - do 4 eexists.
    match goal with
    | |- ?P /\ ?Q /\ ?R /\ ?S /\ _ =>
        assert (HL : P) by (vm_compute; reflexivity);
        assert (H1 : Q) by (vm_compute; reflexivity);
        assert (H2 : R) by (vm_compute; reflexivity);
        assert (H3 : S) by (vm_compute; reflexivity)
    end.
    repeat (split; [assumption|]).
    match type of H1 with
    | _ = Ret ?s =>
        assert (Hf : exit (PANOC.flags_at exact ticking tolerance 0 s) = false)
          by (vm_compute; reflexivity)
    end.
    exact (proj1 (objective_belongs_to_iterate exact exact_pga ticking 64
                    bowl [] tolerance start []) xreal_laws _ 1 _
             (PANOC.stop_test_later _ H1 Hf H2
                (PANOC.stop_test_now _ _ _ _ _ _ _ _ _ H3))).
  - do 3 eexists.
    match goal with
    | |- ?P /\ ?Q /\ ?R /\ _ =>
        assert (HL : P) by (vm_compute; reflexivity);
        assert (H1 : Q) by (vm_compute; reflexivity);
        assert (H2 : R) by (vm_compute; reflexivity)
    end.
    repeat (split; [assumption|]).
    match type of H1 with
    | _ = Ret ?s =>
        assert (Hf : exit (PGA.flags_at exact_pga ticking tolerance 0 s) =
                       false)
          by (vm_compute; reflexivity)
    end.
    exact (proj2 (objective_belongs_to_iterate exact exact_pga ticking 64
                    bowl [] tolerance start []) _ 1 _
             (PGA.stop_test_later _ H1 Hf
                (PGA.stop_test_now _ _ _ _ _ _ _ _ _ H2))).
Defined.

(** X15 at the point (0, −3): the perturbation is (2⁻⁴⁰, 3·2⁻²⁰). *)
Lemma perturbation_at_least_delta_witness :
  (PANOC.h exact [r0; rsub r0 (radd r1 r2)] =
     [half_pow 40; rmul (radd r1 r2) (half_pow 20)] /\
   length (PANOC.h exact [r0; rsub r0 (radd r1 r2)]) = 2 /\
   (forall hi,
      In hi (PANOC.h exact [r0; rsub r0 (radd r1 r2)]) ->
      rleb (half_pow 40) hi = true) /\
   (forall hi,
      In hi (PANOC.h exact [r0; rsub r0 (radd r1 r2)]) ->
      rltb r0 hi = true)) /\
  (length (PGA.h exact_pga [r0; rsub r0 (radd r1 r2)]) = 2 /\
   (forall hi,
      In hi (PGA.h exact_pga [r0; rsub r0 (radd r1 r2)]) ->
      rleb (half_pow 40) hi = true) /\
   (forall hi,
      In hi (PGA.h exact_pga [r0; rsub r0 (radd r1 r2)]) ->
      rltb r0 hi = true)).
Proof.
  destruct (perturbation_at_least_delta exact exact_pga
              [r0; rsub r0 (radd r1 r2)] xreal_laws) as [H1 H2].
  split.
  - split; [vm_compute; reflexivity|].
    destruct H1 as [Ha [Hb Hc]]; [vm_compute; reflexivity| |].
    + intros xi [<-|[<-|[]]]; vm_compute; reflexivity.
    + split; [exact Ha|]. split; [exact Hb|].
      apply Hc. vm_compute. reflexivity.
  - destruct H2 as [Ha [Hb Hc]]; [vm_compute; reflexivity| |].
    + intros xi [<-|[<-|[]]]; vm_compute; reflexivity.
    + split; [exact Ha|]. split; [exact Hb|].
      apply Hc. vm_compute. reflexivity.
Defined.

(** X16 on the second stop test of PGA on [bowl]. *)
Lemma pga_upper_bound_at_stop_test_witness :
  exists L0 st1 st2,
    PGA.lipschitz_estimate exact_pga bowl [] start [] = Some L0 /\
    PGA.before_exit exact_pga 64 bowl [] [] 0
      (PGA.initial_state exact_pga ticking bowl [] start [] L0) = Ret st1 /\
    PGA.before_exit exact_pga 64 bowl [] [] 1 (PGA.after_exit st1) =
      Ret st2 /\
    rleb (PGA.ψxhatₖ st2)
      (radd (radd (radd (PGA.ψₖ st2) r0)
               (dot (PGA.grad_ψₖ st2) (PGA.pₖ st2)))
         (rmul (rmul r05 (PGA.Lₖ st2)) (squaredNorm (PGA.pₖ st2)))) = true.
Proof.
  do 3 eexists.
  match goal with
  | |- ?P /\ ?Q /\ ?R /\ _ =>
      assert (HL : P) by (vm_compute; reflexivity);
      assert (H1 : Q) by (vm_compute; reflexivity);
      assert (H2 : R) by (vm_compute; reflexivity)
  end.
  repeat (split; [assumption|]).
  match type of H1 with
  | _ = Ret ?s =>
      assert (Hf : exit (PGA.flags_at exact_pga ticking tolerance 0 s) =
                     false)
        by (vm_compute; reflexivity)
  end.
  destruct (pga_upper_bound_at_stop_test exact_pga ticking 64 bowl []
              tolerance start [] _ 1 _
              (PGA.stop_test_later _ H1 Hf
                 (PGA.stop_test_now _ _ _ _ _ _ _ _ _ H2)))
    as [_ [_ [_ H]]].
  apply (H xreal_laws); vm_compute; reflexivity.
Defined.

End FurtherExactRuns.
